(** * Van Gogh (LIC): a shallow embedding of plug-ins/common/van-gogh-lic.c

    Modelling conventions.
    - [gint] values are integers of [Z]; arithmetic that can leave the 32-bit
      range is written with the two's-complement wrap-around [Gint.wrap].
    - [gdouble] values are modelled by the real numbers of the Standard
      Library: rounding, infinities and NaN are outside the model, so every
      statement about a [gdouble] is a statement about the exact arithmetic
      the code approximates.
    - Globals of the C file are the fields of the record [Globals]; a function
      that reads them takes the record as its first argument.
    - A computation that can fail to return (a loop that does not end, a
      remainder by zero, an access outside an array) returns [option]; loops
      whose length is not known beforehand carry a fuel bound.
    - Where rounding or a NaN decides what the code returns, the module
      [Binary64] evaluates the noise-mode convolver on the binary64 numbers
      of the kernel. *)

From Stdlib Require Import ZArith Reals Lra Lia Psatz List Bool.
From Stdlib Require String.
From Stdlib Require Floats.
Import ListNotations.

(** ** The option monad used for fallible code *)

Definition bind {A B : Type} (m : option A) (k : A -> option B) : option B :=
  match m with
  | Some a => k a
  | None => None
  end.

Notation "x <- m ;; k" := (bind m (fun x => k))
  (at level 61, m at next level, right associativity).

(** ** 32-bit signed integers *)

Module Gint.

Local Open Scope Z_scope.

Definition INT_MIN : Z := - 2 ^ 31.
Definition INT_MAX : Z := 2 ^ 31 - 1.

Definition in_range (z : Z) : Prop := INT_MIN <= z <= INT_MAX.

Definition wrap (z : Z) : Z := (z + 2 ^ 31) mod 2 ^ 32 - 2 ^ 31.

Definition add (a b : Z) : Z := wrap (a + b).
Definition sub (a b : Z) : Z := wrap (a - b).
Definition mul (a b : Z) : Z := wrap (a * b).
Definition neg (a : Z) : Z := wrap (- a).

(** C's [%]: the quotient truncates, and a zero divisor has no result. *)
Definition rem (a b : Z) : option Z :=
  if b =? 0 then None else Some (Z.rem a b).

(** Congruence modulo 2^32, to compute under nested wrap-arounds. *)
Definition cong (a b : Z) : Prop := exists k, a = b + k * 2 ^ 32.

End Gint.

(** ** Globals of the plug-in *)

Record LicValues : Type := mkLicValues {
  filtlen : R;
  noisemag : R;
  intsteps : R;
  lv_minv : R;
  lv_maxv : R;
  effect_channel : Z;
  effect_operator : Z;
  effect_convolve : Z;
  effect_image_id : Z
}.

Record Globals : Type := mkGlobals {
  G : Z -> Z -> Z -> R;
  licvals : LicValues;
  l : R;
  dx : R;
  dy : R;
  minv : R;
  maxv : R;
  isteps : R;
  source_drw_has_alpha : bool;
  effect_width : Z;
  effect_height : Z;
  border_x : Z;
  border_y : Z;
  border_w : Z;
  border_h : Z
}.

Definition numx : Z := 40.
Definition numy : Z := 40.

(** ** Convenience routines *)

Section Peekmap.

Local Open Scope Z_scope.

(** [while (x < 0) x += w;]  The loop ends only when [w >= 1], after at most
    [-x] rounds, and then no addition leaves the 32-bit range. *)
Fixpoint while_negative (fuel : nat) (x w : Z) : option Z :=
  if x <? 0 then
    match fuel with
    | O => None
    | S fuel' => while_negative fuel' (Gint.add x w) w
    end
  else Some x.

Definition wrap_coord (x w : Z) : option Z :=
  x' <- while_negative (Z.to_nat (- x)) x w ;;
  Gint.rem x' w.

Definition peekmap (g : Globals) (image : list Z) (x y : Z) : option Z :=
  x' <- wrap_coord x (effect_width g) ;;
  y' <- wrap_coord y (effect_height g) ;;
  nth_error image (Z.to_nat (Gint.add x' (Gint.mul (effect_width g) y'))).

(** ** Derivatives in the x and y direction *)

Definition gradx (g : Globals) (image : list Z) (x y : Z) : option Z :=
  let val := 0 in
  p <- peekmap g image (Gint.sub x 1) (Gint.sub y 1) ;;
  let val := Gint.add val p in
  p <- peekmap g image (Gint.add x 1) (Gint.sub y 1) ;;
  let val := Gint.sub val p in
  p <- peekmap g image (Gint.sub x 1) y ;;
  let val := Gint.add val (Gint.mul 2 p) in
  p <- peekmap g image (Gint.add x 1) y ;;
  let val := Gint.sub val (Gint.mul 2 p) in
  p <- peekmap g image (Gint.sub x 1) (Gint.add y 1) ;;
  let val := Gint.add val p in
  p <- peekmap g image (Gint.add x 1) (Gint.add y 1) ;;
  let val := Gint.sub val p in
  Some val.

Definition grady (g : Globals) (image : list Z) (x y : Z) : option Z :=
  let val := 0 in
  p <- peekmap g image (Gint.sub x 1) (Gint.sub y 1) ;;
  let val := Gint.add val p in
  p <- peekmap g image x (Gint.sub y 1) ;;
  let val := Gint.add val (Gint.mul 2 p) in
  p <- peekmap g image (Gint.add x 1) (Gint.sub y 1) ;;
  let val := Gint.add val p in
  p <- peekmap g image (Gint.sub x 1) (Gint.add y 1) ;;
  let val := Gint.sub val p in
  p <- peekmap g image x (Gint.add y 1) ;;
  let val := Gint.sub val (Gint.mul 2 p) in
  p <- peekmap g image (Gint.add x 1) (Gint.add y 1) ;;
  let val := Gint.sub val p in
  Some val.

End Peekmap.

(** ** Colors (libgimpcolor) *)

Module RGB.

Local Open Scope R_scope.

Record t : Type := mk { r : R; g : R; b : R; a : R }.

(** Modelled from the spec: [gimp_rgb_multiply] and [gimp_rgba_multiply] of
    libgimpcolor are not part of the plug-in's file; the first scales the
    three color channels, the second scales alpha identically to color. *)
Definition gimp_rgb_multiply (c : t) (factor : R) : t :=
  mk (r c * factor) (g c * factor) (b c * factor) (a c).

Definition gimp_rgba_multiply (c : t) (factor : R) : t :=
  mk (r c * factor) (g c * factor) (b c * factor) (a c * factor).

(** Modelled from the spec: [gimp_rgb_add] and [gimp_rgba_add] accumulate
    colors (and alpha, if present) channel by channel. *)
Definition gimp_rgb_add (c1 c2 : t) : t :=
  mk (r c1 + r c2) (g c1 + g c2) (b c1 + b c2) (a c1).

Definition gimp_rgba_add (c1 c2 : t) : t :=
  mk (r c1 + r c2) (g c1 + g c2) (b c1 + b c2) (a c1 + a c2).

(** glib's [CLAMP (x, low, high)]. *)
Definition CLAMP (x low high : R) : R :=
  if Rgt_dec x high then high else if Rlt_dec x low then low else x.

(** Modelled from the spec: [gimp_rgb_clamp] brings every channel into the
    valid color range [0, 1]. *)
Definition gimp_rgb_clamp (c : t) : t :=
  mk (CLAMP (r c) 0 1) (CLAMP (g c) 0 1) (CLAMP (b c) 0 1) (CLAMP (a c) 0 1).

End RGB.

Record GimpHSL : Type := mkHSL { hsl_h : R; hsl_s : R; hsl_l : R; hsl_a : R }.

(** A buffer seen through [gegl_buffer_sample] with the nearest sampler. *)
Definition GeglBuffer : Type := Z -> Z -> RGB.t.

Definition peek (buffer : GeglBuffer) (x y : Z) : RGB.t := buffer x y.

Definition poke (buffer : GeglBuffer) (x y : Z) (color : RGB.t) : GeglBuffer :=
  fun x' y' => if ((x' =? x) && (y' =? y))%Z then color else buffer x' y'.

(** ** Services of the host that the plug-in calls

    None of these is defined in the plug-in's file; they are the parameters of
    the model. *)
Record Host : Type := mkHost {
  (** the k-th draw of a generator made by [g_rand_new], in [[lo, hi)] *)
  g_rand_double_range : R -> R -> nat -> R;
  gimp_rgb_to_hsl : RGB.t -> GimpHSL;
  gimp_bilinear_rgb : R -> R -> list RGB.t -> RGB.t;
  gimp_bilinear_rgba : R -> R -> list RGB.t -> RGB.t;
  (** one channel of a pixel in babl's "R'G'B'A u8" format *)
  babl_u8 : R -> Z;
  (** the byte found at each offset of storage handed out by [g_new] *)
  g_new_contents : nat -> Z;
  (** the dialog: whether OK was pressed, and the values it left *)
  create_main_dialog : LicValues -> bool * LicValues
}.

(** ** The noise function *)

Section Numeric.

Local Open Scope R_scope.

Variable gl : Globals.

(** A 2nd order cubic spline. *)
Definition cubic (t : R) : R :=
  let at_ := Rabs t in
  if Rlt_dec at_ 1 then at_ * at_ * (2 * at_ - 3) + 1 else 0.

Definition omega (u v : R) (i j : Z) : option R :=
  i <- while_negative (Z.to_nat (- i)) i numx ;;
  j <- while_negative (Z.to_nat (- j)) j numy ;;
  i <- Gint.rem i numx ;;
  j <- Gint.rem j numy ;;
  Some (cubic u * cubic v * (G gl i j 0 * u + G gl i j 1 * v)).

(** C's [floor]. *)
Definition floor (x : R) : R := IZR (Int_part x).

(** The cast [(gint) x]: the fraction is dropped; a value outside the 32-bit
    range has no result. *)
Definition gint_of_gdouble (x : R) : option Z :=
  let z := if Rlt_dec x 0 then (- Int_part (- x))%Z else Int_part x in
  if ((Gint.INT_MIN <=? z) && (z <=? Gint.INT_MAX))%Z then Some z else None.

(** The values taken by [i] in [for (i = lo; i <= hi; i++)]; the loop ends
    only if [hi + 1] is still a [gint]. *)
Definition for_le (lo hi : Z) : option (list Z) :=
  if (hi <? Gint.INT_MAX)%Z
  then Some (map (fun k => (lo + Z.of_nat k)%Z) (seq 0 (Z.to_nat (hi - lo + 1))))
  else None.

(** Running a loop body over the values of its counter. *)
Fixpoint foldM {A S : Type} (body : S -> A -> option S) (xs : list A) (s : S)
  : option S :=
  match xs with
  | [] => Some s
  | x :: xs' => s' <- body s x ;; foldM body xs' s'
  end.

Definition noise (x y : R) : option R :=
  sti <- gint_of_gdouble (floor (x / dx gl)) ;;
  stj <- gint_of_gdouble (floor (y / dy gl)) ;;
  let sum := 0 in
  ivals <- for_le sti (Gint.add sti 1) ;;
  jvals <- for_le stj (Gint.add stj 1) ;;
  foldM (fun sum i =>
    foldM (fun sum j =>
      o <- omega ((x - IZR i * dx gl) / dx gl) ((y - IZR j * dy gl) / dy gl) i j ;;
      Some (sum + o)) jvals sum) ivals sum.

(** The value [omega] returns for indices that are [gint] values: the loops
    and remainders leave the indices modulo the grid size. *)
Definition omega_value (u v : R) (i j : Z) : R :=
  cubic u * cubic v *
  (G gl (i mod numx) (j mod numy) 0 * u + G gl (i mod numx) (j mod numy) 1 * v).

(** Grid indices for which the loops of [noise] stay inside the 32-bit
    range. *)
Definition cell_in_range (s : Z) : Prop :=
  (Gint.INT_MIN <= s <= Gint.INT_MAX - 2)%Z.

(** The sum [noise] returns, over the four cells around (x, y). *)
Definition noise_value (x y : R) : R :=
  let sti := Int_part (x / dx gl) in
  let stj := Int_part (y / dy gl) in
  let o i j :=
    omega_value ((x - IZR i * dx gl) / dx gl) ((y - IZR j * dy gl) / dy gl) i j in
  0 + o sti stj + o sti (stj + 1)%Z + o (sti + 1)%Z stj
    + o (sti + 1)%Z (stj + 1)%Z.

(** Pseudo-random vectors of length 1: the draw for cell (i, j) is the
    [i * numy + j]-th of the generator. *)
Definition generatevectors (h : Host) : Z -> Z -> Z -> R :=
  fun i j k =>
    if ((0 <=? i) && (i <? numx) && (0 <=? j) && (j <? numy))%Z then
      let alpha := g_rand_double_range h 0 2 (Z.to_nat (i * numy + j)) * PI in
      if (k =? 0)%Z then cos alpha
      else if (k =? 1)%Z then sin alpha
      else G gl i j k
    else G gl i j k.

(** A simple triangle filter. *)
Definition filter (u : R) : R :=
  let f := 1 - Rabs u / l gl in
  if Rlt_dec f 0 then 0 else f.

(** ** The line integral convolution at (x, y) *)

(** [for (u = -l + step; u <= l; u += step)] of [lic_noise], from the state
    [(u, f1, i)]. *)
Fixpoint lic_noise_loop (fuel : nat) (xx yy c s step : R) (u f1 i : R)
  : option R :=
  if Rle_dec u (l gl) then
    match fuel with
    | O => None
    | S fuel' =>
        n <- noise (xx - u * c) (yy - u * s) ;;
        let f2 := filter u * n in
        let i := i + (f1 + f2) * 0.5 * step in
        let f1 := f2 in
        lic_noise_loop fuel' xx yy c s step (u + step) f1 i
    end
  else Some i.

(** The integral computed by [lic_noise] before it is normalized. *)
Definition lic_noise_integral (fuel : nat) (x y : Z) (vx vy : R) : option R :=
  let i := 0 in
  let step := 2 * l gl / isteps gl in
  let xx := IZR x in
  let yy := IZR y in
  let c := vx in
  let s := vy in
  n <- noise (xx + l gl * c) (yy + l gl * s) ;;
  let f1 := filter (- l gl) * n in
  lic_noise_loop fuel xx yy c s step (- l gl + step) f1 i.

Definition lic_noise (fuel : nat) (x y : Z) (vx vy : R) : option R :=
  i <- lic_noise_integral fuel x y vx vy ;;
  let i := (i - minv gl) / (maxv gl - minv gl) in
  let i := RGB.CLAMP i 0 1 in
  let i := i / 2 + 0.5 in
  Some i.

(** *** The integral as the specification words it

    The trapezoidal rule over [u] in [[-l, l]] in increments of [step]: the
    filtered sample at [u] is [f u = filter u * noise (x - u vx, y - u vy)],
    the k-th node is [-l + k step], and each trapezoid lies between two
    consecutive nodes. *)

Definition sample (x y : Z) (vx vy : R) (u : R) : option R :=
  n <- noise (IZR x - u * vx) (IZR y - u * vy) ;;
  Some (filter u * n).

Definition node (k : nat) : R := - l gl + INR k * (2 * l gl / isteps gl).

Fixpoint trapezoid_sum (x y : Z) (vx vy : R) (n : nat) : option R :=
  match n with
  | O => _ <- sample x y vx vy (node 0) ;; Some 0
  | S k =>
      acc <- trapezoid_sum x y vx vy k ;;
      f1 <- sample x y vx vy (node k) ;;
      f2 <- sample x y vx vy (node (S k)) ;;
      Some (acc + (f1 + f2) * 0.5 * (2 * l gl / isteps gl))
  end.

(** The number of trapezoids between [-l] and [l]. *)
Definition trapezoids : nat := Z.to_nat (Int_part (isteps gl)).

(** ** Convolution with the source image *)

Variable h : Host.

Definition getpixel (buffer : GeglBuffer) (u v : R) : option RGB.t :=
  let width := border_w gl in
  let height := border_h gl in
  x1 <- gint_of_gdouble u ;;
  y1 <- gint_of_gdouble v ;;
  x1 <- (if (x1 <? 0)%Z
         then m <- Gint.rem (Gint.neg x1) width ;; Some (Gint.sub width m)
         else Gint.rem x1 width) ;;
  y1 <- (if (y1 <? 0)%Z
         then m <- Gint.rem (Gint.neg y1) height ;; Some (Gint.sub height m)
         else Gint.rem y1 height) ;;
  x2 <- Gint.rem (Gint.add x1 1) width ;;
  y2 <- Gint.rem (Gint.add y1 1) height ;;
  let pp := [peek buffer x1 y1; peek buffer x2 y1;
             peek buffer x1 y2; peek buffer x2 y2] in
  if source_drw_has_alpha gl
  then Some (gimp_bilinear_rgba h u v pp)
  else Some (gimp_bilinear_rgb h u v pp).

(** [for (u = -l + step; u <= l; u += step)] of [lic_image], from the state
    [(u, col1, col)]. *)
Fixpoint lic_image_loop (fuel : nat) (buffer : GeglBuffer)
    (xx yy c s step : R) (u : R) (col1 col : RGB.t) : option RGB.t :=
  if Rle_dec u (l gl) then
    match fuel with
    | O => None
    | S fuel' =>
        col2 <- getpixel buffer (xx - u * c) (yy - u * s) ;;
        if source_drw_has_alpha gl then
          let col2 := RGB.gimp_rgba_multiply col2 (filter u) in
          let col3 := col1 in
          let col3 := RGB.gimp_rgba_add col3 col2 in
          let col3 := RGB.gimp_rgba_multiply col3 (0.5 * step) in
          let col := RGB.gimp_rgba_add col col3 in
          lic_image_loop fuel' buffer xx yy c s step (u + step) col2 col
        else
          let col2 := RGB.gimp_rgb_multiply col2 (filter u) in
          let col3 := col1 in
          let col3 := RGB.gimp_rgb_add col3 col2 in
          let col3 := RGB.gimp_rgb_multiply col3 (0.5 * step) in
          let col := RGB.gimp_rgb_add col col3 in
          lic_image_loop fuel' buffer xx yy c s step (u + step) col2 col
    end
  else Some col.

Definition lic_image (fuel : nat) (buffer : GeglBuffer) (x y : Z) (vx vy : R)
  : option RGB.t :=
  let step := 2 * l gl / isteps gl in
  let xx := IZR x in
  let yy := IZR y in
  let c := vx in
  let s := vy in
  let col := RGB.mk 0 0 0 0 in
  col1 <- getpixel buffer (xx + l gl * c) (yy + l gl * s) ;;
  let col1 := if source_drw_has_alpha gl
              then RGB.gimp_rgba_multiply col1 (filter (- l gl))
              else RGB.gimp_rgb_multiply col1 (filter (- l gl)) in
  col <- lic_image_loop fuel buffer xx yy c s step (- l gl + step) col1 col ;;
  let col := if source_drw_has_alpha gl
             then RGB.gimp_rgba_multiply col (1 / l gl)
             else RGB.gimp_rgb_multiply col (1 / l gl) in
  Some (RGB.gimp_rgb_clamp col).

End Numeric.

(** ** Drawables and the state of the host *)

Record Drawable : Type := mkDrawable {
  drw_width : Z;
  drw_height : Z;
  drw_is_rgb : bool;
  drw_has_alpha : bool;
  (** [gimp_drawable_mask_intersect]: the rectangle (x, y, w, h) shared with
      the selection, if there is one *)
  drw_mask_intersect : option (Z * Z * Z * Z);
  drw_buffer : GeglBuffer;
  drw_shadow : GeglBuffer
}.

Record World : Type := mkWorld {
  (** the items known to the host, by identifier *)
  items : Z -> option Drawable;
  (** what [gimp_set_data] stored under the procedure's name *)
  plugin_data : option LicValues;
  (** the arguments of [gimp_progress_update], latest first *)
  progress : list R;
  (** the number of calls of [gimp_displays_flush] *)
  displays_flushed : nat
}.

(** Modelled from the spec: [gimp_item_id_is_valid] and
    [gimp_drawable_get_by_id] belong to libgimp; an identifier is valid when
    the host knows an item under it, and the lookup of any other identifier
    gives [NULL]. *)
Definition gimp_item_id_is_valid (w : World) (id : Z) : bool :=
  match items w id with Some _ => true | None => false end.

Definition gimp_drawable_get_by_id (w : World) (id : Z) : option Drawable :=
  items w id.

(** Modelled from the spec: [gimp_drawable_get_width] and
    [gimp_drawable_get_height] (getDrawableSize) belong to libgimp; for [NULL]
    the request fails and 0 comes back. *)
Definition gimp_drawable_get_width (d : option Drawable) : Z :=
  match d with Some d => drw_width d | None => 0%Z end.

Definition gimp_drawable_get_height (d : option Drawable) : Z :=
  match d with Some d => drw_height d | None => 0%Z end.

(** Modelled from the spec: [gimp_drawable_merge_shadow] (commitAndRefresh)
    belongs to libgimp; inside the rectangle shared with the selection the
    drawable takes the shadow buffer's pixels. *)
Definition gimp_drawable_merge_shadow (d : Drawable) (shadow : GeglBuffer)
  : Drawable :=
  let merged : GeglBuffer :=
    match drw_mask_intersect d with
    | Some (bx, by_, bw, bh) =>
        fun x y =>
          if ((bx <=? x) && (x <? bx + bw) && (by_ <=? y) && (y <? by_ + bh))%Z
          then shadow x y else drw_buffer d x y
    | None => drw_buffer d
    end in
  mkDrawable (drw_width d) (drw_height d) (drw_is_rgb d) (drw_has_alpha d)
             (drw_mask_intersect d) merged shadow.

Definition set_item (w : World) (id : Z) (d : Drawable) : World :=
  mkWorld (fun id' => if (id' =? id)%Z then Some d else items w id')
          (plugin_data w) (progress w) (displays_flushed w).

(** Modelled from the spec: [gimp_progress_update] (reportProgress),
    [gimp_displays_flush] and [gimp_set_data] belong to libgimp; the model
    records their calls. *)
Definition gimp_progress_update (w : World) (fraction : R) : World :=
  mkWorld (items w) (plugin_data w) (fraction :: progress w)
          (displays_flushed w).

Definition gimp_displays_flush (w : World) : World :=
  mkWorld (items w) (plugin_data w) (progress w) (S (displays_flushed w)).

Definition gimp_set_data (w : World) (vals : LicValues) : World :=
  mkWorld (items w) (Some vals) (progress w) (displays_flushed w).

(** ** The scalar field of the effect image *)

Inductive LICEffectChannel : Type :=
  | LIC_HUE
  | LIC_SATURATION
  | LIC_BRIGHTNESS.

Section Pipeline.

Local Open Scope R_scope.

Variable h : Host.

(** The values of [i] in [for (i = 0; i < n; i++)]. *)
Definition for_lt (n : Z) : list Z := map Z.of_nat (seq 0 (Z.to_nat n)).

(** Modelled from the spec: the macros [RINT] and [CLAMP0255] come from
    libgimpmath; [RINT] is [rint], the nearest integer (the even one of two
    equally near), and [CLAMP0255] clamps to [0, 255]. *)
Definition RINT (x : R) : R :=
  let f := Int_part x in
  let d := x - IZR f in
  if Rlt_dec d 0.5 then IZR f
  else if Rgt_dec d 0.5 then IZR (f + 1)
  else if Z.even f then IZR f else IZR (f + 1).

Definition CLAMP0255 (a : R) : R := RGB.CLAMP a 0 255.

(** The cast [(guchar) x] of a value that lies in [0, 255]. *)
Definition guchar_of_gdouble (x : R) : Z := (Int_part x mod 256)%Z.

(** [themap[index] = v]; a store outside the allocated bytes has no result. *)
Definition store (themap : list Z) (index : nat) (v : Z) : option (list Z) :=
  if (index <? length themap)%nat
  then Some (firstn index themap ++ v :: skipn (S index) themap)
  else None.

(** The byte [rgb_to_hsl] computes for a pixel [p], with the [index]-th draw
    of the generator: the body of its inner loop up to the store. *)
Definition scalar_value (effect_channel : LICEffectChannel) (p : RGB.t)
    (index : nat) : Z :=
  let data0 := babl_u8 h (RGB.r p) in
  let data1 := babl_u8 h (RGB.g p) in
  let data2 := babl_u8 h (RGB.b p) in
  let data3 := babl_u8 h (RGB.a p) in
  let color := RGB.mk (IZR data0 / 255) (IZR data1 / 255)
                      (IZR data2 / 255) (IZR data3 / 255) in
  let color_hsl := gimp_rgb_to_hsl h color in
  let val :=
    match effect_channel with
    | LIC_HUE => hsl_h color_hsl * 255
    | LIC_SATURATION => hsl_s color_hsl * 255
    | LIC_BRIGHTNESS => hsl_l color_hsl * 255
    end in
  (* add some random to avoid unstructured areas *)
  let val := val + g_rand_double_range h (-1) 1 index in
  guchar_of_gdouble (CLAMP0255 (RINT val)).

Definition rgb_to_hsl (gl : Globals) (drawable : option Drawable)
    (effect_channel : LICEffectChannel) : option (list Z) :=
  let index := 0%nat in
  let maxc := Gint.mul (gimp_drawable_get_width drawable)
                       (gimp_drawable_get_height drawable) in
  let themap := map (g_new_contents h) (seq 0 (Z.to_nat maxc)) in
  st <- foldM (fun st y =>
    foldM (fun (st : list Z * nat) x =>
      let '(themap, index) := st in
      d <- drawable ;;
      let v := scalar_value effect_channel (drw_buffer d x y) index in
      themap <- store themap index v ;;
      Some (themap, S index))
      (for_lt (border_w gl)) st)
    (for_lt (border_h gl)) (themap, index) ;;
  Some (fst st).

(** ** The flow vector of a pixel (inside [compute_lic]) *)

(** "Rotate if needed": [tmp = vy; vy = -vx; vx = tmp]. *)
Definition rotate90 (v : R * R) : R * R :=
  let '(vx, vy) := v in
  let tmp := vy in
  let vy := - vx in
  let vx := tmp in
  (vx, vy).

(** The normalization of the flow vector. *)
Definition normalize (v : R * R) : R * R :=
  let '(vx, vy) := v in
  let tmp := sqrt (vx * vx + vy * vy) in
  if Rge_dec tmp 0.000001 then
    let tmp := 1 / tmp in
    (vx * tmp, vy * tmp)
  else (vx, vy).

(** The vector handed to the convolver at (xcount, ycount): the derivative,
    rotated if [rotate] is set, then normalized. *)
Definition flow_vector (gl : Globals) (scalarfield : list Z) (rotate : Z)
    (xcount ycount : Z) : option (R * R) :=
  vx <- gradx gl scalarfield xcount ycount ;;
  vy <- grady gl scalarfield xcount ycount ;;
  let v := (IZR vx, IZR vy) in
  let v := if (rotate =? 0)%Z then v else rotate90 v in
  Some (normalize v).

(** The color written for a pixel. *)
Definition lic_pixel (gl : Globals) (fuel : nat) (src_buffer : GeglBuffer)
    (xcount ycount : Z) (v : R * R) : option RGB.t :=
  let '(vx, vy) := v in
  if (effect_convolve (licvals gl) =? 0)%Z then
    let color := peek src_buffer xcount ycount in
    tmp <- lic_noise gl fuel xcount ycount vx vy ;;
    if source_drw_has_alpha gl
    then Some (RGB.gimp_rgba_multiply color tmp)
    else Some (RGB.gimp_rgb_multiply color tmp)
  else
    lic_image gl h fuel src_buffer xcount ycount vx vy.

Definition compute_lic (gl : Globals) (fuel : nat) (w : World)
    (drawable : Drawable) (scalarfield : list Z) (rotate : Z)
  : option (World * GeglBuffer) :=
  let src_buffer := drw_buffer drawable in
  let dest_buffer := drw_shadow drawable in
  st <- foldM (fun (st : World * GeglBuffer) ycount =>
    let '(w, dest_buffer) := st in
    dest_buffer <- foldM (fun dest_buffer xcount =>
        v <- flow_vector gl scalarfield rotate xcount ycount ;;
        color <- lic_pixel gl fuel src_buffer xcount ycount v ;;
        Some (poke dest_buffer xcount ycount color))
      (for_lt (border_w gl)) dest_buffer ;;
    Some (gimp_progress_update w (IZR ycount / IZR (border_h gl)),
          dest_buffer))
    (for_lt (border_h gl)) (w, dest_buffer) ;;
  let '(w, dest_buffer) := st in
  Some (gimp_progress_update w 1, dest_buffer).

End Pipeline.

(** ** Assignments to the globals *)

Section Setters.

Variable gl : Globals.

Definition set_G (G' : Z -> Z -> Z -> R) : Globals :=
  mkGlobals G' (licvals gl) (l gl) (dx gl) (dy gl) (minv gl) (maxv gl)
    (isteps gl) (source_drw_has_alpha gl) (effect_width gl) (effect_height gl)
    (border_x gl) (border_y gl) (border_w gl) (border_h gl).

Definition set_licvals (v : LicValues) : Globals :=
  mkGlobals (G gl) v (l gl) (dx gl) (dy gl) (minv gl) (maxv gl)
    (isteps gl) (source_drw_has_alpha gl) (effect_width gl) (effect_height gl)
    (border_x gl) (border_y gl) (border_w gl) (border_h gl).

Definition set_parameters (l' dx' dy' minv' maxv' isteps' : R) : Globals :=
  mkGlobals (G gl) (licvals gl) l' dx' dy' minv' maxv' isteps'
    (source_drw_has_alpha gl) (effect_width gl) (effect_height gl)
    (border_x gl) (border_y gl) (border_w gl) (border_h gl).

Definition set_source_drw_has_alpha (alpha : bool) : Globals :=
  mkGlobals (G gl) (licvals gl) (l gl) (dx gl) (dy gl) (minv gl) (maxv gl)
    (isteps gl) alpha (effect_width gl) (effect_height gl)
    (border_x gl) (border_y gl) (border_w gl) (border_h gl).

Definition set_effect_size (width height : Z) : Globals :=
  mkGlobals (G gl) (licvals gl) (l gl) (dx gl) (dy gl) (minv gl) (maxv gl)
    (isteps gl) (source_drw_has_alpha gl) width height
    (border_x gl) (border_y gl) (border_w gl) (border_h gl).

Definition set_border (x y w h : Z) : Globals :=
  mkGlobals (G gl) (licvals gl) (l gl) (dx gl) (dy gl) (minv gl) (maxv gl)
    (isteps gl) (source_drw_has_alpha gl) (effect_width gl) (effect_height gl)
    x y w h.

End Setters.

Definition set_filtlen (v : LicValues) (filtlen' : R) : LicValues :=
  mkLicValues filtlen' (noisemag v) (intsteps v) (lv_minv v) (lv_maxv v)
    (effect_channel v) (effect_operator v) (effect_convolve v)
    (effect_image_id v).

Definition set_effect_image_id (v : LicValues) (id : Z) : LicValues :=
  mkLicValues (filtlen v) (noisemag v) (intsteps v) (lv_minv v) (lv_maxv v)
    (effect_channel v) (effect_operator v) (effect_convolve v) id.

(** ** The driver *)

Section Driver.

Local Open Scope R_scope.

Variable h : Host.

(** The drawable [compute_image] takes as the effect image. *)
Definition effect_image_of (w : World) (gl : Globals) : option Drawable :=
  gimp_drawable_get_by_id w (effect_image_id (licvals gl)).

Definition compute_image (fuel : nat) (w : World) (gl : Globals)
    (drawable_id : Z) : option (World * Globals) :=
  drawable <- items w drawable_id ;;
  match drw_mask_intersect drawable with
  | None => Some (w, gl)
  | Some (bx, by_, bw, bh) =>
      let gl := set_border gl bx by_ bw bh in
      let gl := if (effect_convolve (licvals gl) =? 0)%Z
                then set_G gl (generatevectors gl h) else gl in
      let gl := if Rlt_dec (filtlen (licvals gl)) 0.1
                then set_licvals gl (set_filtlen (licvals gl) 0.1) else gl in
      let gl := set_parameters gl
                  (filtlen (licvals gl))
                  (noisemag (licvals gl)) (noisemag (licvals gl))
                  (lv_minv (licvals gl) / 10) (lv_maxv (licvals gl) / 10)
                  (intsteps (licvals gl)) in
      let gl := set_source_drw_has_alpha gl (drw_has_alpha drawable) in
      let effect_image := effect_image_of w gl in
      let gl := set_effect_size gl (gimp_drawable_get_width effect_image)
                                   (gimp_drawable_get_height effect_image) in
      scalarfield <-
        (if (effect_channel (licvals gl) =? 0)%Z
         then rgb_to_hsl h gl effect_image LIC_HUE
         else if (effect_channel (licvals gl) =? 1)%Z
         then rgb_to_hsl h gl effect_image LIC_SATURATION
         else if (effect_channel (licvals gl) =? 2)%Z
         then rgb_to_hsl h gl effect_image LIC_BRIGHTNESS
         else Some []) ;;
      st <- compute_lic h gl fuel w drawable scalarfield
              (effect_operator (licvals gl)) ;;
      let '(w, dest_buffer) := st in
      let w := set_item w drawable_id
                 (gimp_drawable_merge_shadow drawable dest_buffer) in
      Some (gimp_displays_flush w, gl)
  end.

(** The entries of the "Effect Operator" radio group of the dialog and the
    value each stores in [licvals.effect_operator]. *)
Inductive EffectOperator : Type :=
  | Derivative
  | Gradient.

Definition effect_operator_value (op : EffectOperator) : Z :=
  match op with
  | Derivative => 0%Z
  | Gradient => 1%Z
  end.

Definition set_default_settings (gl : Globals) : Globals :=
  set_licvals gl (mkLicValues 5 2 25 (-25) 25 2 1 1 (-1)).

Inductive GimpPDBStatusType : Type :=
  | GIMP_PDB_EXECUTION_ERROR
  | GIMP_PDB_CALLING_ERROR
  | GIMP_PDB_PASS_THROUGH
  | GIMP_PDB_SUCCESS
  | GIMP_PDB_CANCEL.

Inductive GimpRunMode : Type :=
  | GIMP_RUN_INTERACTIVE
  | GIMP_RUN_NONINTERACTIVE
  | GIMP_RUN_WITH_LAST_VALS.

(** [set_default_settings (); gimp_get_data (...);] and the check of the
    effect image's identifier, as [lic_run] does them before it looks at the
    drawable. *)
Definition retrieve_data (w : World) (gl : Globals) : Globals :=
  let gl := set_default_settings gl in
  let gl := match plugin_data w with
            | Some vals => set_licvals gl vals
            | None => gl
            end in
  if negb (gimp_item_id_is_valid w (effect_image_id (licvals gl)))
  then set_licvals gl (set_effect_image_id (licvals gl) (-1))
  else gl.


Definition lic_run (fuel : nat) (run_mode : GimpRunMode) (n_drawables : Z)
    (drawables : list Z) (w : World) (gl : Globals)
  : option (GimpPDBStatusType * World * Globals) :=
  if negb (n_drawables =? 1)%Z then
    Some (GIMP_PDB_CALLING_ERROR, w, gl)
  else
    drawable_id <- nth_error drawables 0 ;;
    let gl := retrieve_data w gl in
    drawable <- items w drawable_id ;;
    if drw_is_rgb drawable then
      match run_mode with
      | GIMP_RUN_INTERACTIVE =>
          let '(run, vals) := create_main_dialog h (licvals gl) in
          let gl := set_licvals gl vals in
          if negb run then Some (GIMP_PDB_CANCEL, w, gl)
          else
            st <- compute_image fuel w gl drawable_id ;;
            let '(w, gl) := st in
            Some (GIMP_PDB_SUCCESS, gimp_set_data w (licvals gl), gl)
      | GIMP_RUN_WITH_LAST_VALS =>
          st <- compute_image fuel w gl drawable_id ;;
          let '(w, gl) := st in
          Some (GIMP_PDB_SUCCESS, w, gl)
      | GIMP_RUN_NONINTERACTIVE => Some (GIMP_PDB_SUCCESS, w, gl)
      end
    else Some (GIMP_PDB_EXECUTION_ERROR, w, gl).

End Driver.

(** ** The divisions of the per-pixel computation in noise mode

    The same code once more, each function returning, next to its value, the
    divisors of the divisions it performs, in the order of evaluation. *)

Module Divisors.

Section Logged.

Local Open Scope R_scope.

Variable gl : Globals.

Definition Logged (A : Type) : Type := (A * list R)%type.

Definition ret {A : Type} (a : A) : Logged A := (a, []).

Definition div (a b : R) : Logged R := (a / b, [b]).

Definition seq_log {A B : Type} (m : Logged A) (k : A -> Logged B) : Logged B :=
  let '(a, log1) := m in
  let '(b, log2) := k a in
  (b, log1 ++ log2).

Definition seq_opt {A B : Type} (m : option (Logged A))
    (k : A -> option (Logged B)) : option (Logged B) :=
  match m with
  | None => None
  | Some (a, log1) =>
      match k a with
      | None => None
      | Some (b, log2) => Some (b, log1 ++ log2)
      end
  end.

Definition normalize (v : R * R) : Logged (R * R) :=
  let '(vx, vy) := v in
  let tmp := sqrt (vx * vx + vy * vy) in
  if Rge_dec tmp 0.000001 then
    seq_log (div 1 tmp) (fun tmp => ret (vx * tmp, vy * tmp))
  else ret (vx, vy).

Definition filter (u : R) : Logged R :=
  seq_log (div (Rabs u) (l gl)) (fun q =>
  let f := 1 - q in
  ret (if Rlt_dec f 0 then 0 else f)).

Definition noise (x y : R) : option (Logged R) :=
  seq_opt (Some (div x (dx gl))) (fun qx =>
  seq_opt (Some (div y (dy gl))) (fun qy =>
  seq_opt (option_map ret (gint_of_gdouble (floor qx))) (fun sti =>
  seq_opt (option_map ret (gint_of_gdouble (floor qy))) (fun stj =>
  let sum := 0 in
  seq_opt (option_map ret (for_le sti (Gint.add sti 1))) (fun ivals =>
  seq_opt (option_map ret (for_le stj (Gint.add stj 1))) (fun jvals =>
  foldM (fun (st : Logged R) i =>
    foldM (fun (st : Logged R) j =>
      seq_opt (Some st) (fun sum =>
      seq_opt (Some (div (x - IZR i * dx gl) (dx gl))) (fun u =>
      seq_opt (Some (div (y - IZR j * dy gl) (dy gl))) (fun v =>
      seq_opt (option_map ret (omega gl u v i j)) (fun o =>
      Some (ret (sum + o))))))) jvals st) ivals (ret sum))))))).

Fixpoint lic_noise_loop (fuel : nat) (xx yy c s step : R) (u f1 i : R)
  : option (Logged R) :=
  if Rle_dec u (l gl) then
    match fuel with
    | O => None
    | S fuel' =>
        seq_opt (Some (filter u)) (fun fu =>
        seq_opt (noise (xx - u * c) (yy - u * s)) (fun n =>
        let f2 := fu * n in
        let i := i + (f1 + f2) * 0.5 * step in
        let f1 := f2 in
        lic_noise_loop fuel' xx yy c s step (u + step) f1 i))
    end
  else Some (ret i).

Definition lic_noise (fuel : nat) (x y : Z) (vx vy : R) : option (Logged R) :=
  let i := 0 in
  seq_opt (Some (div (2 * l gl) (isteps gl))) (fun step =>
  let xx := IZR x in
  let yy := IZR y in
  let c := vx in
  let s := vy in
  seq_opt (Some (filter (- l gl))) (fun fl =>
  seq_opt (noise (xx + l gl * c) (yy + l gl * s)) (fun n =>
  let f1 := fl * n in
  seq_opt (lic_noise_loop fuel xx yy c s step (- l gl + step) f1 i) (fun i =>
  seq_opt (Some (div (i - minv gl) (maxv gl - minv gl))) (fun i =>
  let i := RGB.CLAMP i 0 1 in
  seq_opt (Some (div i 2)) (fun i =>
  Some (ret (i + 0.5)))))))).

(** The divisors met for one pixel in noise mode: those of the
    normalization of the flow vector, then those of [lic_noise]. *)
Definition pixel_divisors (fuel : nat) (x y : Z) (v : R * R)
  : option (list R) :=
  let '(v', log1) := normalize v in
  match lic_noise fuel x y (fst v') (snd v') with
  | Some (_, log2) => Some (log1 ++ log2)
  | None => None
  end.

End Logged.

(** The value of a logged computation, and the property that every logged
    divisor satisfies [P]. *)
Definition value {A : Type} (m : option (Logged A)) : option A :=
  option_map fst m.

Definition logs {A : Type} (P : R -> Prop) (m : option (Logged A)) : Prop :=
  match m with
  | Some (_, log) => Forall P log
  | None => True
  end.

End Divisors.

(** ** Inputs used in the examples *)

Module Examples.

Local Open Scope R_scope.

(** The globals as the C file initializes them. *)
Definition initial_globals : Globals :=
  mkGlobals (fun _ _ _ => 0) (mkLicValues 0 0 0 0 0 0 0 0 0)
    10 2 2 (-2.5) 2.5 20 false 0 0 0 0 0 0.

(** A 2 x 2 effect image and the default parameters. *)
Definition flat_globals : Globals :=
  mkGlobals (fun _ _ _ => 0) (mkLicValues 5 2 25 (-25) 25 2 1 1 (-1))
    5 2 2 (-2.5) 2.5 25 false 2 2 0 0 2 2.

(** Noise mode with one integration step and filter length 1. *)
Definition unit_step_globals : Globals :=
  mkGlobals (fun _ _ _ => 0) (mkLicValues 1 2 1 (-25) 25 2 1 0 (-1))
    1 2 2 (-2.5) 2.5 1 false 2 2 0 0 2 2.

(** The same with "Minimum value" and "Maximum value" both at 0. *)
Definition zero_range_globals : Globals :=
  mkGlobals (fun _ _ _ => 0) (mkLicValues 1 2 1 0 0 2 1 0 (-1))
    1 2 2 (0 / 10) (0 / 10) 1 false 2 2 0 0 2 2.

(** A 3 x 1 effect image; its scalar field is [ramp]. *)
Definition ramp_globals : Globals :=
  mkGlobals (fun _ _ _ => 0) (mkLicValues 5 2 25 (-25) 25 2 0 1 (-1))
    5 2 2 (-2.5) 2.5 25 false 3 1 0 0 3 1.

Definition ramp : list Z := [0; 1; 2]%Z.

Definition gray : RGB.t := RGB.mk 0.5 0.5 0.5 1.

Definition null_host : Host :=
  mkHost (fun lo _ _ => lo) (fun _ => mkHSL 0 0 0 1)
         (fun _ _ _ => gray) (fun _ _ _ => gray)
         (fun _ => 0%Z) (fun _ => 0%Z) (fun vals => (true, vals)).

(** A 1 x 1 RGB drawable, wholly selected. *)
Definition dot : Drawable :=
  mkDrawable 1 1 true false (Some (0, 0, 1, 1)%Z)
             (fun _ _ => gray) (fun _ _ => gray).

(** A 1 x 1 grayscale drawable. *)
Definition gray_dot : Drawable :=
  mkDrawable 1 1 false false (Some (0, 0, 1, 1)%Z)
             (fun _ _ => gray) (fun _ _ => gray).

(** A host that knows [dot] as item 1 and [gray_dot] as item 2, with no
    stored plug-in data. *)
Definition lone_world : World :=
  mkWorld (fun id => if (id =? 1)%Z then Some dot
                     else if (id =? 2)%Z then Some gray_dot else None)
          None [] 0.

End Examples.

(** ** Closed forms and inputs for the further properties *)

(** The column [getpixel] reads for the truncated coordinate [z] in a
    rectangle [n] wide: [z] modulo [n], except that a negative multiple of
    [n] gives [n] itself. *)
Definition getpixel_column (z n : Z) : Z :=
  if ((z <? 0) && (z mod n =? 0))%Z then n else (z mod n)%Z.

Module Samples.

Local Open Scope R_scope.

(** Noise mode with a negative number of integration steps. *)
Definition backward_globals : Globals :=
  mkGlobals (fun _ _ _ => 0) (mkLicValues 1 2 (-1) (-25) 25 2 1 0 (-1))
    1 2 2 (-2.5) 2.5 (-1) false 2 2 0 0 2 2.

(** Image mode with one integration step, on a 2 x 2 rectangle. *)
Definition image_step_globals : Globals :=
  mkGlobals (fun _ _ _ => 0) (mkLicValues 1 2 1 (-25) 25 2 1 1 (-1))
    1 2 2 (-2.5) 2.5 1 false 2 2 0 0 2 2.

(** A 1 x 1 RGB drawable outside the selection. *)
Definition unselected_dot : Drawable :=
  mkDrawable 1 1 true false None
             (fun _ _ => Examples.gray) (fun _ _ => Examples.gray).

(** A host that knows [unselected_dot] as item 3 and [Examples.dot] as
    item 1. *)
Definition idle_world : World :=
  mkWorld (fun id => if (id =? 3)%Z then Some unselected_dot
                     else if (id =? 1)%Z then Some Examples.dot else None)
          None [] 0.

(** A host whose dialog is cancelled. *)
Definition cancelling_host : Host :=
  mkHost (fun lo _ _ => lo) (fun _ => mkHSL 0 0 0 1)
         (fun _ _ _ => Examples.gray) (fun _ _ _ => Examples.gray)
         (fun _ => 0%Z) (fun _ => 0%Z) (fun vals => (false, vals)).

(** Image mode with one integration step, on a 1 x 1 rectangle with a
    1 x 1 effect image. *)
Definition image_dot_globals : Globals :=
  mkGlobals (fun _ _ _ => 0) (mkLicValues 1 2 1 (-25) 25 2 1 1 1)
    1 2 2 (-2.5) 2.5 1 false 1 1 0 0 1 1.

(** Values as an earlier interactive run may have stored them: image mode,
    one integration step, item 1 as the effect image. *)
Definition stored_values : LicValues :=
  mkLicValues 1 2 1 (-25) 25 2 1 1 1.

(** A host that knows [Examples.dot] as item 1 and holds [stored_values]. *)
Definition studio_world : World :=
  mkWorld (fun id => if (id =? 1)%Z then Some Examples.dot else None)
          (Some stored_values) [] 0.

End Samples.

(** ** Registration of the procedure *)

Module Registration.
Import String.
Local Open Scope string_scope.

Definition PLUG_IN_PROC : string := "plug-in-lic".

(** What [lic_create_procedure] sets on the procedure it makes. *)
Record GimpProcedure : Type := mkProcedure {
  proc_name : string;
  proc_image_types : string;
  proc_menu_label : string;
  proc_menu_path : string
}.

(** [g_list_append (NULL, g_strdup (PLUG_IN_PROC))]. *)
Definition lic_query_procedures : list string := [PLUG_IN_PROC].

(** [NULL] unless [strcmp (name, PLUG_IN_PROC)] is 0. *)
Definition lic_create_procedure (name : string) : option GimpProcedure :=
  if String.eqb name PLUG_IN_PROC
  then Some (mkProcedure name "RGB*" "_Van Gogh (LIC)..."
                         "<Image>/Filters/Artistic")
  else None.

End Registration.

(** ** The divisions of a whole run

    [compute_image] and what it calls, in both convolution modes, each
    function returning next to its value the divisors of the [gdouble]
    divisions the file's code performs, in the order of evaluation.  The
    functions without such a division ([gradx], [grady], [getpixel],
    [rgb_to_hsl], [generatevectors]) are the ones of the model. *)

Module RunDivisors.

(** A divisor of magnitude at least 1e-6. *)
Definition safe (d : R) : Prop := (0.000001 <= Rabs d)%R.

Section Logged.

Local Open Scope R_scope.

Variable h : Host.
Variable gl : Globals.

Definition lift {A : Type} (m : option A) : option (Divisors.Logged A) :=
  option_map Divisors.ret m.

Fixpoint lic_image_loop (fuel : nat) (buffer : GeglBuffer)
    (xx yy c s step : R) (u : R) (col1 col : RGB.t)
  : option (Divisors.Logged RGB.t) :=
  if Rle_dec u (l gl) then
    match fuel with
    | O => None
    | S fuel' =>
        Divisors.seq_opt (lift (getpixel gl h buffer (xx - u * c) (yy - u * s)))
          (fun col2 =>
        Divisors.seq_opt (Some (Divisors.filter gl u)) (fun fu =>
        if source_drw_has_alpha gl then
          let col2 := RGB.gimp_rgba_multiply col2 fu in
          let col3 := col1 in
          let col3 := RGB.gimp_rgba_add col3 col2 in
          let col3 := RGB.gimp_rgba_multiply col3 (0.5 * step) in
          let col := RGB.gimp_rgba_add col col3 in
          lic_image_loop fuel' buffer xx yy c s step (u + step) col2 col
        else
          let col2 := RGB.gimp_rgb_multiply col2 fu in
          let col3 := col1 in
          let col3 := RGB.gimp_rgb_add col3 col2 in
          let col3 := RGB.gimp_rgb_multiply col3 (0.5 * step) in
          let col := RGB.gimp_rgb_add col col3 in
          lic_image_loop fuel' buffer xx yy c s step (u + step) col2 col))
    end
  else Some (Divisors.ret col).

Definition lic_image (fuel : nat) (buffer : GeglBuffer) (x y : Z) (vx vy : R)
  : option (Divisors.Logged RGB.t) :=
  Divisors.seq_opt (Some (Divisors.div (2 * l gl) (isteps gl))) (fun step =>
  let xx := IZR x in
  let yy := IZR y in
  let c := vx in
  let s := vy in
  let col := RGB.mk 0 0 0 0 in
  Divisors.seq_opt (lift (getpixel gl h buffer (xx + l gl * c) (yy + l gl * s)))
    (fun col1 =>
  Divisors.seq_opt (Some (Divisors.filter gl (- l gl))) (fun fl =>
  let col1 := if source_drw_has_alpha gl
              then RGB.gimp_rgba_multiply col1 fl
              else RGB.gimp_rgb_multiply col1 fl in
  Divisors.seq_opt
    (lic_image_loop fuel buffer xx yy c s step (- l gl + step) col1 col)
    (fun col =>
  Divisors.seq_opt (Some (Divisors.div 1 (l gl))) (fun q =>
  let col := if source_drw_has_alpha gl
             then RGB.gimp_rgba_multiply col q
             else RGB.gimp_rgb_multiply col q in
  Some (Divisors.ret (RGB.gimp_rgb_clamp col))))))).

Definition flow_vector (scalarfield : list Z) (rotate : Z) (xcount ycount : Z)
  : option (Divisors.Logged (R * R)) :=
  Divisors.seq_opt (lift (gradx gl scalarfield xcount ycount)) (fun vx =>
  Divisors.seq_opt (lift (grady gl scalarfield xcount ycount)) (fun vy =>
  let v := (IZR vx, IZR vy) in
  let v := if (rotate =? 0)%Z then v else rotate90 v in
  Some (Divisors.normalize v))).

Definition lic_pixel (fuel : nat) (src_buffer : GeglBuffer)
    (xcount ycount : Z) (v : R * R) : option (Divisors.Logged RGB.t) :=
  let '(vx, vy) := v in
  if (effect_convolve (licvals gl) =? 0)%Z then
    let color := peek src_buffer xcount ycount in
    Divisors.seq_opt (Divisors.lic_noise gl fuel xcount ycount vx vy) (fun tmp =>
    if source_drw_has_alpha gl
    then Some (Divisors.ret (RGB.gimp_rgba_multiply color tmp))
    else Some (Divisors.ret (RGB.gimp_rgb_multiply color tmp)))
  else
    lic_image fuel src_buffer xcount ycount vx vy.

Definition compute_lic (fuel : nat) (w : World) (drawable : Drawable)
    (scalarfield : list Z) (rotate : Z)
  : option (Divisors.Logged (World * GeglBuffer)) :=
  let src_buffer := drw_buffer drawable in
  let dest_buffer := drw_shadow drawable in
  Divisors.seq_opt
    (foldM (fun (st : Divisors.Logged (World * GeglBuffer)) ycount =>
      Divisors.seq_opt (Some st) (fun st =>
      let '(w, dest_buffer) := st in
      Divisors.seq_opt
        (foldM (fun (st : Divisors.Logged GeglBuffer) xcount =>
          Divisors.seq_opt (Some st) (fun dest_buffer =>
          Divisors.seq_opt (flow_vector scalarfield rotate xcount ycount)
            (fun v =>
          Divisors.seq_opt (lic_pixel fuel src_buffer xcount ycount v)
            (fun color =>
          Some (Divisors.ret (poke dest_buffer xcount ycount color))))))
          (for_lt (border_w gl)) (Divisors.ret dest_buffer))
        (fun dest_buffer =>
      Divisors.seq_opt
        (Some (Divisors.div (IZR ycount) (IZR (border_h gl)))) (fun fraction =>
      Some (Divisors.ret (gimp_progress_update w fraction, dest_buffer))))))
      (for_lt (border_h gl)) (Divisors.ret (w, dest_buffer)))
    (fun st =>
  let '(w, dest_buffer) := st in
  Some (Divisors.ret (gimp_progress_update w 1, dest_buffer))).

End Logged.

Section Run.

Local Open Scope R_scope.

Variable h : Host.

Definition compute_image (fuel : nat) (w : World) (gl : Globals)
    (drawable_id : Z) : option (Divisors.Logged (World * Globals)) :=
  Divisors.seq_opt (lift (items w drawable_id)) (fun drawable =>
  match drw_mask_intersect drawable with
  | None => Some (Divisors.ret (w, gl))
  | Some (bx, by_, bw, bh) =>
      let gl := set_border gl bx by_ bw bh in
      let gl := if (effect_convolve (licvals gl) =? 0)%Z
                then set_G gl (generatevectors gl h) else gl in
      let gl := if Rlt_dec (filtlen (licvals gl)) 0.1
                then set_licvals gl (set_filtlen (licvals gl) 0.1) else gl in
      Divisors.seq_opt (Some (Divisors.div (lv_minv (licvals gl)) 10))
        (fun minv' =>
      Divisors.seq_opt (Some (Divisors.div (lv_maxv (licvals gl)) 10))
        (fun maxv' =>
      let gl := set_parameters gl
                  (filtlen (licvals gl))
                  (noisemag (licvals gl)) (noisemag (licvals gl))
                  minv' maxv'
                  (intsteps (licvals gl)) in
      let gl := set_source_drw_has_alpha gl (drw_has_alpha drawable) in
      let effect_image := effect_image_of w gl in
      let gl := set_effect_size gl (gimp_drawable_get_width effect_image)
                                   (gimp_drawable_get_height effect_image) in
      Divisors.seq_opt
        (lift (if (effect_channel (licvals gl) =? 0)%Z
               then rgb_to_hsl h gl effect_image LIC_HUE
               else if (effect_channel (licvals gl) =? 1)%Z
               then rgb_to_hsl h gl effect_image LIC_SATURATION
               else if (effect_channel (licvals gl) =? 2)%Z
               then rgb_to_hsl h gl effect_image LIC_BRIGHTNESS
               else Some [])) (fun scalarfield =>
      Divisors.seq_opt
        (compute_lic h gl fuel w drawable scalarfield
           (effect_operator (licvals gl))) (fun st =>
      let '(w, dest_buffer) := st in
      let w := set_item w drawable_id
                 (gimp_drawable_merge_shadow drawable dest_buffer) in
      Some (Divisors.ret (gimp_displays_flush w, gl))))))
  end).

End Run.

End RunDivisors.



(** The stored values of [Samples.studio_world] with "Noise" chosen in place
    of "Source image". *)
Definition noise_values : LicValues :=
  mkLicValues 1 2 1 (-25) 25 2 1 0 1.

Definition noise_world : World :=
  mkWorld (fun id => if (id =? 1)%Z then Some Examples.dot else None)
          (Some noise_values) [] 0.

(** ** The noise-mode convolver on binary64

    [cubic], [omega], [noise], [filter] and [lic_noise] once more, with
    [gdouble] as the IEEE 754 binary64 numbers of the kernel and every
    operation rounded as the C code rounds it, to evaluate the code where
    rounding, infinities or NaN decide the result. *)

Module Binary64.

Import Floats.
Local Open Scope float_scope.

(** The [gdouble] globals the convolver reads. *)
Record Globals : Type := mkGlobals {
  G : Z -> Z -> Z -> float;
  l : float;
  dx : float;
  dy : float;
  minv : float;
  maxv : float;
  isteps : float
}.

(** The cast [(gint) floor (x)]: no result for NaN, an infinity or a value
    outside the 32-bit range. *)
Definition gint_of_floor (x : float) : option Z :=
  match Prim2SF x with
  | S754_zero _ => Some 0%Z
  | S754_finite s m e =>
      let n := if s then Z.neg m else Z.pos m in
      let z := if (0 <=? e)%Z then (n * 2 ^ e)%Z else (n / 2 ^ (- e))%Z in
      if ((Gint.INT_MIN <=? z) && (z <=? Gint.INT_MAX))%Z then Some z else None
  | _ => None
  end.

(** The cast [(gdouble) i] of a [gint], which is exact. *)
Definition gdouble_of_gint (z : Z) : float :=
  if (z <? 0)%Z then - of_uint63 (Uint63.of_Z (- z))
  else of_uint63 (Uint63.of_Z z).

(** glib's [CLAMP (x, low, high)]. *)
Definition CLAMP (x low high : float) : float :=
  if high <? x then high else if x <? low then low else x.

Section Convolver.

Variable gl : Globals.

Definition cubic (t : float) : float :=
  let at_ := abs t in
  if at_ <? 1 then at_ * at_ * (2 * at_ - 3) + 1 else 0.

Definition omega (u v : float) (i j : Z) : option float :=
  i <- while_negative (Z.to_nat (- i)) i numx ;;
  j <- while_negative (Z.to_nat (- j)) j numy ;;
  i <- Gint.rem i numx ;;
  j <- Gint.rem j numy ;;
  Some (cubic u * cubic v * (G gl i j 0 * u + G gl i j 1 * v)).

Definition noise (x y : float) : option float :=
  sti <- gint_of_floor (x / dx gl) ;;
  stj <- gint_of_floor (y / dy gl) ;;
  let sum := 0 in
  ivals <- for_le sti (Gint.add sti 1) ;;
  jvals <- for_le stj (Gint.add stj 1) ;;
  foldM (fun sum i =>
    foldM (fun sum j =>
      o <- omega ((x - gdouble_of_gint i * dx gl) / dx gl)
                 ((y - gdouble_of_gint j * dy gl) / dy gl) i j ;;
      Some (sum + o)) jvals sum) ivals sum.

Definition filter (u : float) : float :=
  let f := 1 - abs u / l gl in
  if f <? 0 then 0 else f.

(** The values [u] takes in [for (u = -l + step; u <= l; u += step)], whose
    body does not assign [u], [step] or [l]. *)
Fixpoint for_u (fuel : nat) (u step : float) : option (list float) :=
  if u <=? l gl then
    match fuel with
    | O => None
    | S fuel' => option_map (cons u) (for_u fuel' (u + step) step)
    end
  else Some [].

Definition lic_noise (fuel : nat) (x y : Z) (vx vy : float) : option float :=
  let i := 0 in
  let step := 2 * l gl / isteps gl in
  let xx := gdouble_of_gint x in
  let yy := gdouble_of_gint y in
  let c := vx in
  let s := vy in
  n <- noise (xx + l gl * c) (yy + l gl * s) ;;
  let f1 := filter (- l gl) * n in
  us <- for_u fuel (- l gl + step) step ;;
  st <- foldM (fun (st : float * float) u =>
          let '(f1, i) := st in
          n <- noise (xx - u * c) (yy - u * s) ;;
          let f2 := filter u * n in
          let i := i + (f1 + f2) * 0.5 * step in
          let f1 := f2 in
          Some (f1, i)) us (f1, i) ;;
  let i := snd st in
  let i := (i - minv gl) / (maxv gl - minv gl) in
  let i := CLAMP i 0 1 in
  let i := i / 2 + 0.5 in
  Some i.

End Convolver.

(** The vectors [generatevectors] stores when every draw of the generator is
    0: [cos 0 = 1] and [sin 0 = 0]. *)
Definition unit_vectors : Z -> Z -> Z -> float :=
  fun _ _ k => if (k =? 0)%Z then 1 else 0.

(** The globals [compute_image] sets from the default values of the
    dialog. *)
Definition default_globals : Globals :=
  mkGlobals unit_vectors 5 2 2 (-25 / 10) (25 / 10) 25.

(** The same with "Minimum value" and "Maximum value" both at 0. *)
Definition zero_range_globals : Globals :=
  mkGlobals unit_vectors 5 2 2 (0 / 10) (0 / 10) 25.

End Binary64.

(** * Properties *)

(** ** 32-bit arithmetic *)

Section GintFacts.
Local Open Scope Z_scope.

Lemma wrap_small z : Gint.in_range z -> Gint.wrap z = z.
Proof.
  unfold Gint.in_range, Gint.INT_MIN, Gint.INT_MAX, Gint.wrap. intros H.
  rewrite Z.mod_small by lia. lia.
Qed.

Lemma wrap_in_range z : Gint.in_range (Gint.wrap z).
Proof.
  unfold Gint.in_range, Gint.INT_MIN, Gint.INT_MAX, Gint.wrap.
  pose proof (Z.mod_pos_bound (z + 2 ^ 31) (2 ^ 32) ltac:(lia)). lia.
Qed.

Lemma wrap_wrap_add a b : Gint.wrap (Gint.wrap a + b) = Gint.wrap (a + b).
Proof.
  unfold Gint.wrap. f_equal.
  replace ((a + 2 ^ 31) mod 2 ^ 32 - 2 ^ 31 + b + 2 ^ 31)
    with ((a + 2 ^ 31) mod 2 ^ 32 + b) by lia.
  rewrite Z.add_mod_idemp_l by lia. f_equal. lia.
Qed.

Lemma wrap_eq_mod a b : (a - b) mod 2 ^ 32 = 0 -> Gint.wrap a = Gint.wrap b.
Proof.
  intros H. unfold Gint.wrap. f_equal.
  apply Z.mod_divide in H; [| lia]. destruct H as [k Hk].
  replace (a + 2 ^ 31) with (b + 2 ^ 31 + k * 2 ^ 32) by lia.
  apply Z.mod_add. lia.
Qed.

Lemma wrap_congr z : (Gint.wrap z - z) mod 2 ^ 32 = 0.
Proof.
  unfold Gint.wrap.
  pose proof (Z.div_mod (z + 2 ^ 31) (2 ^ 32) ltac:(lia)) as H.
  replace ((z + 2 ^ 31) mod 2 ^ 32 - 2 ^ 31 - z)
    with (- ((z + 2 ^ 31) / 2 ^ 32) * 2 ^ 32) by lia.
  apply Z.mod_mul. lia.
Qed.

Lemma mod_add_self a n : n <> 0 -> (a + n) mod n = a mod n.
Proof.
  intros Hn. replace (a + n) with (a + 1 * n) by lia. now apply Z.mod_add.
Qed.

End GintFacts.

(** ** The scalar field is read modulo its size *)

Section PeekmapFacts.
Local Open Scope Z_scope.

Lemma while_negative_spec w :
  1 <= w <= Gint.INT_MAX ->
  forall fuel x,
    Gint.in_range x -> (Z.to_nat (- x) <= fuel)%nat ->
    exists r, while_negative fuel x w = Some r /\
              0 <= r /\ r mod w = x mod w /\
              (x < 0 -> r < w) /\ (0 <= x -> r = x).
Proof.
  intros Hw fuel. induction fuel as [| fuel IH]; intros x Hx Hfuel; simpl.
  - destruct (Z.ltb_spec x 0) as [Hneg | Hpos]; [lia |].
    exists x. repeat split; auto; lia.
  - destruct (Z.ltb_spec x 0) as [Hneg | Hpos].
    + assert (Hadd : Gint.add x w = x + w).
      { apply wrap_small. unfold Gint.in_range, Gint.INT_MIN, Gint.INT_MAX in *. lia. }
      rewrite Hadd.
      destruct (IH (x + w)) as (r & Hr & H0 & Hmod & Hlt & Heq).
      * unfold Gint.in_range, Gint.INT_MIN, Gint.INT_MAX in *. lia.
      * lia.
      * exists r. split; [exact Hr |]. split; [exact H0 |]. split.
        -- rewrite Hmod. apply mod_add_self. lia.
        -- split; intros; [| lia].
           destruct (Z.lt_ge_cases (x + w) 0); [auto | rewrite Heq; lia].
    + exists x. repeat split; auto; lia.
Qed.

Lemma wrap_coord_mod x w :
  1 <= w <= Gint.INT_MAX -> Gint.in_range x ->
  wrap_coord x w = Some (x mod w).
Proof.
  intros Hw Hx. unfold wrap_coord.
  destruct (while_negative_spec w Hw (Z.to_nat (- x)) x Hx (le_n _))
    as (r & Hr & H0 & Hmod & Hlt & Heq).
  rewrite Hr. simpl. unfold Gint.rem.
  destruct (Z.eqb_spec w 0) as [-> | _]; [lia |].
  rewrite Z.rem_mod_nonneg by lia. now rewrite Hmod.
Qed.

Lemma peekmap_eq gl image x y :
  1 <= effect_width gl <= Gint.INT_MAX ->
  1 <= effect_height gl <= Gint.INT_MAX ->
  Gint.in_range x -> Gint.in_range y ->
  peekmap gl image x y =
  nth_error image
    (Z.to_nat (Gint.add (x mod effect_width gl)
                 (Gint.mul (effect_width gl) (y mod effect_height gl)))).
Proof.
  intros Hw Hh Hx Hy. unfold peekmap.
  rewrite (wrap_coord_mod _ _ Hw Hx), (wrap_coord_mod _ _ Hh Hy). reflexivity.
Qed.

Lemma peekmap_index_bound gl x y :
  1 <= effect_width gl -> 1 <= effect_height gl ->
  effect_width gl * effect_height gl <= Gint.INT_MAX ->
  0 <= Gint.add (x mod effect_width gl)
         (Gint.mul (effect_width gl) (y mod effect_height gl))
    < effect_width gl * effect_height gl.
Proof.
  intros Hw Hh Hwh.
  pose proof (Z.mod_pos_bound x (effect_width gl) ltac:(lia)) as Hx.
  pose proof (Z.mod_pos_bound y (effect_height gl) ltac:(lia)) as Hy.
  set (a := x mod effect_width gl) in *. set (b := y mod effect_height gl) in *.
  assert (Hb : 0 <= effect_width gl * b <= effect_width gl * (effect_height gl - 1)) by nia.
  assert (Hmul : Gint.mul (effect_width gl) b = effect_width gl * b).
  { apply wrap_small. unfold Gint.in_range, Gint.INT_MIN, Gint.INT_MAX in *. nia. }
  rewrite Hmul.
  assert (Hadd : Gint.add a (effect_width gl * b) = a + effect_width gl * b).
  { apply wrap_small. unfold Gint.in_range, Gint.INT_MIN, Gint.INT_MAX in *. nia. }
  rewrite Hadd. nia.
Qed.

Lemma peekmap_defined gl image x y :
  1 <= effect_width gl -> 1 <= effect_height gl ->
  effect_width gl * effect_height gl <= Gint.INT_MAX ->
  Z.of_nat (length image) = effect_width gl * effect_height gl ->
  Gint.in_range x -> Gint.in_range y ->
  exists v, peekmap gl image x y = Some v /\ In v image.
Proof.
  intros Hw Hh Hwh Hlen Hx Hy.
  rewrite peekmap_eq by (auto; unfold Gint.INT_MAX in *; nia).
  pose proof (peekmap_index_bound gl x y Hw Hh Hwh) as Hb.
  destruct (nth_error image (Z.to_nat (Gint.add (x mod effect_width gl)
             (Gint.mul (effect_width gl) (y mod effect_height gl))))) as [v |] eqn:E.
  - exists v. split; [reflexivity | eapply nth_error_In; eauto].
  - apply nth_error_None in E. lia.
Qed.

Lemma peekmap_constant gl image c x y :
  1 <= effect_width gl -> 1 <= effect_height gl ->
  effect_width gl * effect_height gl <= Gint.INT_MAX ->
  Z.of_nat (length image) = effect_width gl * effect_height gl ->
  Forall (fun v => v = c) image ->
  Gint.in_range x -> Gint.in_range y ->
  peekmap gl image x y = Some c.
Proof.
  intros Hw Hh Hwh Hlen Hc Hx Hy.
  destruct (peekmap_defined gl image x y Hw Hh Hwh Hlen Hx Hy) as (v & Hv & Hin).
  rewrite Hv. f_equal. rewrite Forall_forall in Hc. auto.
Qed.

End PeekmapFacts.

(** ** Gradients *)

Section GradFacts.
Local Open Scope Z_scope.

Lemma cong_refl a : Gint.cong a a.
Proof. exists 0. lia. Qed.

Lemma cong_wrap a b : Gint.cong a b -> Gint.cong (Gint.wrap a) b.
Proof.
  intros [k Hk]. pose proof (wrap_congr a) as H.
  apply Z.mod_divide in H; [| lia]. destruct H as [q Hq].
  exists (q + k). lia.
Qed.

Lemma cong_add a a' b b' : Gint.cong a a' -> Gint.cong b b' -> Gint.cong (a + b) (a' + b').
Proof. intros [k Hk] [q Hq]. exists (k + q). lia. Qed.

Lemma cong_sub a a' b b' : Gint.cong a a' -> Gint.cong b b' -> Gint.cong (a - b) (a' - b').
Proof. intros [k Hk] [q Hq]. exists (k - q). lia. Qed.

Lemma cong_mul a a' b b' : Gint.cong a a' -> Gint.cong b b' -> Gint.cong (a * b) (a' * b').
Proof.
  intros [k Hk] [q Hq]. exists (a' * q + k * b' + k * q * 2 ^ 32). subst. ring.
Qed.

Lemma wrap_cong_zero a a' : Gint.cong a a' -> a' = 0 -> Gint.wrap a = 0.
Proof.
  intros [k Hk] ->. subst a. rewrite (wrap_eq_mod (0 + k * 2 ^ 32) 0).
  - reflexivity.
  - replace (0 + k * 2 ^ 32 - 0) with (k * 2 ^ 32) by lia. apply Z.mod_mul. lia.
Qed.

Ltac erase_wraps :=
  repeat first [ apply cong_wrap | apply cong_sub | apply cong_add
               | apply cong_mul | apply cong_refl ].

Lemma gradx_sum_cancels c :
  Gint.sub (Gint.add (Gint.sub (Gint.add (Gint.sub (Gint.add 0 c) c)
    (Gint.mul 2 c)) (Gint.mul 2 c)) c) c = 0.
Proof.
  unfold Gint.add, Gint.sub, Gint.mul.
  eapply wrap_cong_zero; [erase_wraps | ring].
Qed.

Lemma grady_sum_cancels c :
  Gint.sub (Gint.sub (Gint.sub (Gint.add (Gint.add (Gint.add 0 c)
    (Gint.mul 2 c)) c) c) (Gint.mul 2 c)) c = 0.
Proof.
  unfold Gint.add, Gint.sub, Gint.mul.
  eapply wrap_cong_zero; [erase_wraps | ring].
Qed.

Lemma sub_in_range a b : Gint.in_range (Gint.sub a b).
Proof. apply wrap_in_range. Qed.

Lemma add_in_range a b : Gint.in_range (Gint.add a b).
Proof. apply wrap_in_range. Qed.

End GradFacts.

Section GradientClaims.

Local Open Scope Z_scope.

(** Claim C9.  For a constant scalar field (every entry equal to [c]) that
    fills the effect image, [gradx] and [grady] both return 0 at every [gint]
    coordinate: the kernel taps all read [c] through the toroidal wrap-around
    and their weights cancel. *)
Theorem gradient_of_constant_field gl image c x y :
  1 <= effect_width gl -> 1 <= effect_height gl ->
  effect_width gl * effect_height gl <= Gint.INT_MAX ->
  Z.of_nat (length image) = effect_width gl * effect_height gl ->
  Forall (fun v => v = c) image ->
  Gint.in_range x -> Gint.in_range y ->
  gradx gl image x y = Some 0 /\ grady gl image x y = Some 0.
Proof.
  intros Hw Hh Hwh Hlen Hc Hx Hy.
  assert (P : forall x' y', Gint.in_range x' -> Gint.in_range y' ->
                            peekmap gl image x' y' = Some c).
  { intros. now apply peekmap_constant. }
  split.
  - unfold gradx.
    rewrite !P by (auto using sub_in_range, add_in_range).
    simpl. f_equal. apply gradx_sum_cancels.
  - unfold grady.
    rewrite !P by (auto using sub_in_range, add_in_range).
    simpl. f_equal. apply grady_sum_cancels.
Qed.

Lemma gradient_of_constant_field_witness :
  gradx Examples.flat_globals [7; 7; 7; 7] 0 (-1) = Some 0 /\
  grady Examples.flat_globals [7; 7; 7; 7] 0 (-1) = Some 0.
Proof.
  apply (gradient_of_constant_field Examples.flat_globals [7; 7; 7; 7] 7 0 (-1)).
  - simpl; lia.
  - simpl; lia.
  - vm_compute; discriminate.
  - reflexivity.
  - repeat constructor.
  - vm_compute; split; discriminate.
  - vm_compute; split; discriminate.
Defined.

(** The scalar field repeats after [effect_width] columns and
    [effect_height] rows. *)
Lemma peekmap_periodic gl image x y :
  1 <= effect_width gl <= Gint.INT_MAX ->
  1 <= effect_height gl <= Gint.INT_MAX ->
  Gint.in_range x -> Gint.in_range (x + effect_width gl) ->
  Gint.in_range y -> Gint.in_range (y + effect_height gl) ->
  peekmap gl image (x + effect_width gl) y = peekmap gl image x y /\
  peekmap gl image x (y + effect_height gl) = peekmap gl image x y.
Proof.
  intros Hw Hh Hx Hxw Hy Hyh.
  rewrite !peekmap_eq by assumption.
  rewrite !mod_add_self by lia. split; reflexivity.
Qed.

End GradientClaims.

(** ** The noise function *)

Section FloorFacts.
Local Open Scope R_scope.

Lemma Int_part_IZR z : Int_part (IZR z) = z.
Proof. symmetry. apply Int_part_spec. lra. Qed.

Lemma Int_part_plus_IZR r k : Int_part (r + IZR k) = (Int_part r + k)%Z.
Proof.
  symmetry. apply Int_part_spec. rewrite plus_IZR.
  destruct (base_Int_part r). lra.
Qed.

Lemma gint_of_gdouble_IZR z :
  Gint.in_range z -> gint_of_gdouble (IZR z) = Some z.
Proof.
  intros [Hlo Hhi]. unfold gint_of_gdouble.
  assert (E : (if Rlt_dec (IZR z) 0 then (- Int_part (- IZR z))%Z
               else Int_part (IZR z)) = z).
  { destruct (Rlt_dec (IZR z) 0).
    - rewrite <- opp_IZR, Int_part_IZR. lia.
    - apply Int_part_IZR. }
  rewrite E.
  destruct (Z.leb_spec Gint.INT_MIN z); [| lia].
  destruct (Z.leb_spec z Gint.INT_MAX); [| lia]. reflexivity.
Qed.

Lemma gint_of_gdouble_floor r :
  Gint.in_range (Int_part r) -> gint_of_gdouble (floor r) = Some (Int_part r).
Proof. intros H. unfold floor. now apply gint_of_gdouble_IZR. Qed.

End FloorFacts.

Lemma foldM_ext {A S : Type} (body body' : S -> A -> option S) xs :
  (forall s x, body s x = body' s x) ->
  forall s, foldM body xs s = foldM body' xs s.
Proof.
  intros Hext. induction xs as [| x xs IH]; intros s; simpl; [reflexivity |].
  rewrite Hext. destruct (body' s x); simpl; auto.
Qed.

Section NoiseFacts.
Local Open Scope Z_scope.

Lemma numx_bounds : 1 <= numx <= Gint.INT_MAX.
Proof. vm_compute. split; discriminate. Qed.

Lemma omega_eq gl u v i j :
  Gint.in_range i -> Gint.in_range j ->
  omega gl u v i j = Some (omega_value gl u v i j).
Proof.
  intros Hi Hj. unfold omega, omega_value.
  destruct (while_negative_spec numx numx_bounds (Z.to_nat (- i)) i Hi (le_n _))
    as (ri & Hri & Hi0 & Himod & _).
  destruct (while_negative_spec numy numx_bounds (Z.to_nat (- j)) j Hj (le_n _))
    as (rj & Hrj & Hj0 & Hjmod & _).
  rewrite Hri, Hrj. simpl. unfold Gint.rem.
  change (numx =? 0) with false. change (numy =? 0) with false. simpl.
  rewrite !Z.rem_mod_nonneg by (try assumption; reflexivity).
  now rewrite Himod, Hjmod.
Qed.

Lemma for_le_pair s :
  cell_in_range s -> for_le s (Gint.add s 1) = Some [s; s + 1].
Proof.
  unfold cell_in_range, Gint.INT_MIN, Gint.INT_MAX. intros Hs.
  assert (E : Gint.add s 1 = s + 1).
  { apply wrap_small. unfold Gint.in_range, Gint.INT_MIN, Gint.INT_MAX. lia. }
  unfold for_le. rewrite E.
  destruct (Z.ltb_spec (s + 1) Gint.INT_MAX) as [_ | H];
    [| unfold Gint.INT_MAX in H; lia].
  replace (s + 1 - s + 1) with 2 by lia. simpl. repeat f_equal; lia.
Qed.

Lemma cell_in_range_gint s : cell_in_range s -> Gint.in_range s.
Proof. unfold cell_in_range, Gint.in_range. lia. Qed.

Lemma cell_in_range_succ s : cell_in_range s -> Gint.in_range (s + 1).
Proof. unfold cell_in_range, Gint.in_range, Gint.INT_MIN. lia. Qed.

Lemma noise_eq gl x y :
  cell_in_range (Int_part (x / dx gl)) ->
  cell_in_range (Int_part (y / dy gl)) ->
  noise gl x y = Some (noise_value gl x y).
Proof.
  intros Hs Ht. unfold noise, noise_value.
  rewrite !gint_of_gdouble_floor by now apply cell_in_range_gint.
  simpl. rewrite !for_le_pair by assumption. simpl.
  rewrite !omega_eq by auto using cell_in_range_gint, cell_in_range_succ.
  reflexivity.
Qed.

End NoiseFacts.

(** ** Periodicity *)

Section Periodic.
Local Open Scope R_scope.

Lemma omega_value_shift gl u v i j :
  omega_value gl u v (i + numx) j = omega_value gl u v i j.
Proof.
  unfold omega_value.
  rewrite mod_add_self by discriminate. reflexivity.
Qed.

Lemma Int_part_shift gl x :
  dx gl <> 0 ->
  Int_part ((x + IZR numx * dx gl) / dx gl) = (Int_part (x / dx gl) + numx)%Z.
Proof.
  intros Hdx. rewrite <- Int_part_plus_IZR. f_equal. field. exact Hdx.
Qed.

Lemma noise_value_periodic gl x y :
  dx gl <> 0 ->
  noise_value gl (x + IZR numx * dx gl) y = noise_value gl x y.
Proof.
  intros Hdx. unfold noise_value. rewrite (Int_part_shift gl x Hdx).
  set (s := Int_part (x / dx gl)). set (t := Int_part (y / dy gl)).
  replace (s + numx + 1)%Z with (s + 1 + numx)%Z by lia.
  assert (E : forall i, (x + IZR numx * dx gl - IZR (i + numx) * dx gl) / dx gl
                        = (x - IZR i * dx gl) / dx gl).
  { intros i. f_equal. rewrite plus_IZR. ring. }
  rewrite !E, !omega_value_shift. reflexivity.
Qed.

Lemma noise_periodic gl x y :
  dx gl <> 0 ->
  cell_in_range (Int_part (x / dx gl)) ->
  cell_in_range (Int_part (x / dx gl) + numx) ->
  noise gl (x + IZR numx * dx gl) y = noise gl x y.
Proof.
  intros Hdx Hs Hs'.
  destruct (gint_of_gdouble (floor (y / dy gl))) as [stj |] eqn:Ey.
  - destruct (for_le stj (Gint.add stj 1)) as [jvals |] eqn:Ej.
    + unfold noise. rewrite Ey.
      rewrite !gint_of_gdouble_floor
        by (rewrite ?Int_part_shift by assumption; now apply cell_in_range_gint).
      simpl. rewrite Ej. rewrite (Int_part_shift gl x Hdx).
      rewrite !for_le_pair by assumption. simpl.
      set (s := Int_part (x / dx gl)) in *.
      replace (s + numx + 1)%Z with (s + 1 + numx)%Z by lia.
      assert (E : forall i, (x + IZR numx * dx gl - IZR (i + numx) * dx gl) / dx gl
                            = (x - IZR i * dx gl) / dx gl).
      { intros i. f_equal. rewrite plus_IZR. ring. }
      assert (O : forall u v i j, Gint.in_range i -> Gint.in_range (i + numx) ->
                  omega gl u v (i + numx) j = omega gl u v i j).
      { intros u v i j Hi Hi'. unfold omega.
        destruct (while_negative_spec numx numx_bounds (Z.to_nat (- i)) i Hi (le_n _))
          as (ri & Hri & Hi0 & Himod & _).
        destruct (while_negative_spec numx numx_bounds (Z.to_nat (- (i + numx)))
                    (i + numx)%Z Hi' (le_n _)) as (ri' & Hri' & Hi0' & Himod' & _).
        rewrite Hri, Hri'. simpl.
        destruct (while_negative (Z.to_nat (- j)) j numy) as [rj |]; [| reflexivity].
        simpl. unfold Gint.rem. change (numx =? 0)%Z with false. simpl.
        rewrite (Z.rem_mod_nonneg ri numx), (Z.rem_mod_nonneg ri' numx)
          by (try assumption; reflexivity).
        rewrite Himod, Himod'.
        rewrite mod_add_self by discriminate. reflexivity. }
      assert (F : forall (i : Z) (acc : R),
                 Gint.in_range i -> Gint.in_range (i + numx) ->
                 foldM (fun sum j =>
                   o <- omega gl ((x + IZR numx * dx gl - IZR (i + numx) * dx gl) / dx gl)
                          ((y - IZR j * dy gl) / dy gl) (i + numx) j ;;
                   Some (sum + o)) jvals acc
                 = foldM (fun sum j =>
                   o <- omega gl ((x - IZR i * dx gl) / dx gl)
                          ((y - IZR j * dy gl) / dy gl) i j ;;
                   Some (sum + o)) jvals acc).
      { intros i acc Hi Hi'. apply foldM_ext. intros sum j.
        rewrite E, O by assumption. reflexivity. }
      assert (R1 : Gint.in_range s) by now apply cell_in_range_gint.
      assert (R2 : Gint.in_range (s + numx)) by now apply cell_in_range_gint.
      assert (R3 : Gint.in_range (s + 1)) by now apply cell_in_range_succ.
      assert (R4 : Gint.in_range (s + 1 + numx)).
      { replace (s + 1 + numx)%Z with (s + numx + 1)%Z by lia.
        now apply cell_in_range_succ. }
      rewrite F by assumption.
      destruct (foldM _ jvals 0) as [acc |]; simpl; [| reflexivity].
      rewrite F by assumption. reflexivity.
    + unfold noise. rewrite Ey.
      rewrite !gint_of_gdouble_floor
        by (rewrite ?Int_part_shift by assumption; now apply cell_in_range_gint).
      simpl. rewrite Ej. rewrite (Int_part_shift gl x Hdx).
      rewrite !for_le_pair by assumption. reflexivity.
  - unfold noise. rewrite Ey.
    rewrite !gint_of_gdouble_floor
      by (rewrite ?Int_part_shift by assumption; now apply cell_in_range_gint).
    reflexivity.
Qed.

End Periodic.

Section PeriodicClaim.

Local Open Scope R_scope.

(** Claim C6.  Sampling is periodic.  For integer coordinates, negative ones
    included, [peekmap] at (x + effect_width, y) and at (x, y + effect_height)
    equals [peekmap] at (x, y); for real coordinates the noise value at
    (x + numx * dx, y) equals the noise value at (x, y).  Coordinates and grid
    indices are taken among the values a [gint] can hold, and the cell size
    [dx] is not zero. *)
Theorem sampling_is_periodic gl image (x y : Z) (xr yr : R) :
  (1 <= effect_width gl)%Z -> (1 <= effect_height gl)%Z ->
  (effect_width gl * effect_height gl <= Gint.INT_MAX)%Z ->
  Z.of_nat (length image) = (effect_width gl * effect_height gl)%Z ->
  Gint.in_range x -> Gint.in_range (x + effect_width gl) ->
  Gint.in_range y -> Gint.in_range (y + effect_height gl) ->
  dx gl <> 0%R ->
  cell_in_range (Int_part (xr / dx gl)) ->
  cell_in_range (Int_part (xr / dx gl) + numx) ->
  cell_in_range (Int_part (yr / dy gl)) ->
  peekmap gl image (x + effect_width gl) y = peekmap gl image x y /\
  peekmap gl image x (y + effect_height gl) = peekmap gl image x y /\
  peekmap gl image x y <> None /\
  noise gl (xr + IZR numx * dx gl) yr = noise gl xr yr /\
  noise gl xr yr = Some (noise_value gl xr yr).
Proof.
  intros Hw Hh Hwh Hlen Hx Hxw Hy Hyh Hdx Hs Hs' Ht.
  assert (Hw' : (1 <= effect_width gl <= Gint.INT_MAX)%Z) by nia.
  assert (Hh' : (1 <= effect_height gl <= Gint.INT_MAX)%Z) by nia.
  destruct (peekmap_periodic gl image x y Hw' Hh' Hx Hxw Hy Hyh) as [P1 P2].
  destruct (peekmap_defined gl image x y Hw Hh Hwh Hlen Hx Hy) as (v & Hv & _).
  split; [exact P1 |]. split; [exact P2 |].
  split; [rewrite Hv; discriminate |].
  split; [now apply noise_periodic | now apply noise_eq].
Qed.

End PeriodicClaim.

(** ** The loop of [lic_noise] computes the trapezoidal sum *)

Section Integral.
Local Open Scope R_scope.

Variable gl : Globals.
Variables (x y : Z) (vx vy : R).

Local Abbreviation step := (2 * l gl / isteps gl).

Lemma lic_noise_loop_step fuel xx yy c s st u f1 i :
  u <= l gl ->
  lic_noise_loop gl (S fuel) xx yy c s st u f1 i =
  (n <- noise gl (xx - u * c) (yy - u * s) ;;
   lic_noise_loop gl fuel xx yy c s st (u + st) (filter gl u * n)
     (i + (f1 + filter gl u * n) * 0.5 * st)).
Proof.
  intros Hu. simpl. destruct (Rle_dec u (l gl)); [reflexivity | contradiction].
Qed.

Lemma lic_noise_loop_exit fuel xx yy c s st u f1 i :
  l gl < u ->
  lic_noise_loop gl fuel xx yy c s st u f1 i = Some i.
Proof.
  intros Hu. destruct fuel; simpl; destruct (Rle_dec u (l gl)); try reflexivity; lra.
Qed.

Lemma node_succ k : node gl (S k) = node gl k + step.
Proof. unfold node, step. rewrite S_INR. ring. Qed.

Lemma node_0 : node gl 0 = - l gl.
Proof. unfold node. simpl. ring. Qed.

Lemma trapezoid_sum_succ k :
  trapezoid_sum gl x y vx vy (S k) =
  (acc <- trapezoid_sum gl x y vx vy k ;;
   f1 <- sample gl x y vx vy (node gl k) ;;
   f2 <- sample gl x y vx vy (node gl (S k)) ;;
   Some (acc + (f1 + f2) * 0.5 * step)).
Proof. reflexivity. Qed.

Lemma trapezoid_sum_none n m :
  trapezoid_sum gl x y vx vy n = None ->
  trapezoid_sum gl x y vx vy (n + m) = None.
Proof.
  intros Hn. induction m as [| m IH].
  - now rewrite Nat.add_0_r.
  - rewrite Nat.add_succ_r, trapezoid_sum_succ. now rewrite IH.
Qed.

(** The loop, entered at node [k + 1] with the sample of node [k] in [f1] and
    the sum of the first [k] trapezoids in [i], adds the trapezoids up to
    node [k + m]. *)
Lemma lic_noise_loop_trapezoid m :
  forall k fuel u f1 acc,
    u = node gl (S k) ->
    (forall j, (k < j <= k + m)%nat -> node gl j <= l gl) ->
    l gl < node gl (S (k + m)) ->
    sample gl x y vx vy (node gl k) = Some f1 ->
    trapezoid_sum gl x y vx vy k = Some acc ->
    (m <= fuel)%nat ->
    lic_noise_loop gl fuel (IZR x) (IZR y) vx vy step u f1 acc
    = trapezoid_sum gl x y vx vy (k + m).
Proof.
  induction m as [| m IH]; intros k fuel u f1 acc Hu Hle Hgt Hf1 Hacc Hfuel.
  - rewrite Nat.add_0_r in *. rewrite lic_noise_loop_exit by (subst u; exact Hgt).
    now rewrite Hacc.
  - destruct fuel as [| fuel]; [lia |].
    assert (Hul : u <= l gl) by (subst u; apply Hle; lia).
    rewrite lic_noise_loop_step by exact Hul.
    replace (k + S m)%nat with (S k + m)%nat by lia.
    assert (Es : sample gl x y vx vy (node gl (S k)) =
                 (n <- noise gl (IZR x - u * vx) (IZR y - u * vy) ;;
                  Some (filter gl u * n))).
    { unfold sample. now rewrite <- Hu. }
    destruct (noise gl (IZR x - u * vx) (IZR y - u * vy)) as [n |].
    + cbn [bind] in *. apply IH.
      * rewrite node_succ, <- Hu. reflexivity.
      * intros j Hj. apply Hle. lia.
      * replace (S (S k + m)) with (S (k + S m)) by lia. exact Hgt.
      * exact Es.
      * rewrite trapezoid_sum_succ, Hacc, Hf1, Es. reflexivity.
      * lia.
    + cbn [bind] in *. symmetry. apply trapezoid_sum_none.
      rewrite trapezoid_sum_succ, Hacc, Hf1, Es. reflexivity.
Qed.

Hypothesis Hl : 0 < l gl.
Hypothesis Histeps : 0 < isteps gl.


Lemma node_le_iff k : node gl k <= l gl <-> INR k <= isteps gl.
Proof.
  unfold node.
  replace (INR k * (2 * l gl / isteps gl)) with (2 * l gl * (INR k / isteps gl))
    by (field; lra).
  assert (H2l : 0 < 2 * l gl) by lra.
  split; intros H.
  - assert (INR k / isteps gl <= 1) by nra.
    apply (Rmult_le_reg_r (/ isteps gl)); [now apply Rinv_0_lt_compat |].
    rewrite Rinv_r by lra. exact H0.
  - assert (INR k / isteps gl <= 1).
    { apply (Rmult_le_reg_r (isteps gl)); [exact Histeps |].
      unfold Rdiv. rewrite Rmult_assoc, Rinv_l by lra. lra. }
    nra.
Qed.

Lemma trapezoids_spec :
  (forall j, (j <= trapezoids gl)%nat -> node gl j <= l gl) /\
  l gl < node gl (S (trapezoids gl)).
Proof.
  unfold trapezoids.
  destruct (base_Int_part (isteps gl)) as [Hlo Hhi].
  assert (Hnn : (0 <= Int_part (isteps gl))%Z).
  { destruct (Z_lt_le_dec (Int_part (isteps gl)) 0) as [Hneg | ]; [| assumption].
    exfalso. assert (IZR (Int_part (isteps gl)) <= -1).
    { apply IZR_le. lia. } lra. }
  split.
  - intros j Hj. apply node_le_iff.
    apply Rle_trans with (IZR (Int_part (isteps gl))); [| exact Hlo].
    rewrite INR_IZR_INZ. apply IZR_le. lia.
  - apply Rnot_le_lt. intros H. apply node_le_iff in H.
    rewrite S_INR, INR_IZR_INZ, Z2Nat.id in H by assumption. lra.
Qed.

(** With [l > 0] and [isteps > 0] the loop of [lic_noise] ends and the
    integral is the trapezoidal sum over [floor isteps] trapezoids. *)
Lemma lic_noise_integral_trapezoid fuel :
  (trapezoids gl <= fuel)%nat ->
  lic_noise_integral gl fuel x y vx vy
  = trapezoid_sum gl x y vx vy (trapezoids gl).
Proof.
  intros Hfuel. destruct trapezoids_spec as [Hle Hgt].
  unfold lic_noise_integral.
  assert (Es : sample gl x y vx vy (node gl 0) =
               (n <- noise gl (IZR x + l gl * vx) (IZR y + l gl * vy) ;;
                Some (filter gl (- l gl) * n))).
  { unfold sample. rewrite node_0.
    replace (IZR x - - l gl * vx) with (IZR x + l gl * vx) by ring.
    replace (IZR y - - l gl * vy) with (IZR y + l gl * vy) by ring.
    reflexivity. }
  destruct (noise gl (IZR x + l gl * vx) (IZR y + l gl * vy)) as [n |].
  - cbn [bind] in *.
    change (2 * l gl / isteps gl) with step.
    rewrite (lic_noise_loop_trapezoid (trapezoids gl) 0 fuel
               (- l gl + step) (filter gl (- l gl) * n) 0).
    + reflexivity.
    + rewrite node_succ, node_0. reflexivity.
    + intros j Hj. apply Hle. lia.
    + exact Hgt.
    + exact Es.
    + simpl. rewrite Es. reflexivity.
    + exact Hfuel.
  - cbn [bind] in *. symmetry.
    apply (trapezoid_sum_none 0 (trapezoids gl)). simpl. now rewrite Es.
Qed.

End Integral.

(** ** The result of [lic_noise] and the normalization *)

Section ConvolverClaims.

Local Open Scope R_scope.


Lemma CLAMP_id v lo hi : lo <= v <= hi -> RGB.CLAMP v lo hi = v.
Proof.
  intros H. unfold RGB.CLAMP.
  destruct (Rgt_dec v hi); [lra |]. destruct (Rlt_dec v lo); lra.
Qed.

(** Claim C7.  When [isteps = 1] the integration of [lic_noise] is the single
    trapezoid between [u = -l] and [u = +l]: the integral is
    [(f (-l) + f l) * 0.5 * (2 l)] with
    [f u = filter u * noise (x - u vx, y - u vy)]. *)
Theorem single_step_is_one_trapezoid gl fuel x y vx vy a b :
  isteps gl = 1 -> 0 < l gl ->
  sample gl x y vx vy (- l gl) = Some a ->
  sample gl x y vx vy (l gl) = Some b ->
  (1 <= fuel)%nat ->
  lic_noise_integral gl fuel x y vx vy = Some ((a + b) * 0.5 * (2 * l gl)).
Proof.
  intros Hsteps Hl Ha Hb Hfuel.
  assert (Ht : trapezoids gl = 1%nat).
  { unfold trapezoids. rewrite Hsteps, Int_part_IZR. reflexivity. }
  rewrite lic_noise_integral_trapezoid by (rewrite ?Ht, ?Hsteps; auto; lra).
  rewrite Ht, trapezoid_sum_succ. cbn [trapezoid_sum].
  assert (N0 : node gl 0 = - l gl) by apply node_0.
  assert (N1 : node gl 1 = l gl).
  { unfold node. rewrite Hsteps. simpl. field. }
  rewrite N0, N1, Ha, Hb. cbn [bind]. f_equal. rewrite Hsteps. field.
Qed.

(** Claim C8.  The normalization of a gradient (gx, gy): when
    [sqrt (gx^2 + gy^2) >= 1e-6] the vector is divided by its length and the
    result has length 1; otherwise it is passed through unchanged.  In
    particular (0, 0) stays (0, 0), and no division is performed for it. *)
Theorem normalize_spec gx gy :
  (sqrt (gx * gx + gy * gy) >= 0.000001 ->
   normalize (gx, gy) =
     (gx * (1 / sqrt (gx * gx + gy * gy)), gy * (1 / sqrt (gx * gx + gy * gy))) /\
   fst (normalize (gx, gy)) * fst (normalize (gx, gy)) +
   snd (normalize (gx, gy)) * snd (normalize (gx, gy)) = 1) /\
  (sqrt (gx * gx + gy * gy) < 0.000001 -> normalize (gx, gy) = (gx, gy)) /\
  normalize (0, 0) = (0, 0) /\
  snd (Divisors.normalize (0, 0)) = [].
Proof.
  assert (Hz : sqrt (0 * 0 + 0 * 0) = 0).
  { replace (0 * 0 + 0 * 0) with 0 by ring. apply sqrt_0. }
  repeat split.
  - unfold normalize. destruct (Rge_dec _ _); [reflexivity | contradiction].
  - unfold normalize. destruct (Rge_dec _ _) as [_ | Hn]; [| contradiction].
    cbn [fst snd].
    set (m := sqrt (gx * gx + gy * gy)) in *.
    assert (Hm : 0 < m) by lra.
    assert (Hsq : m * m = gx * gx + gy * gy).
    { unfold m. apply sqrt_sqrt. nra. }
    replace (gx * (1 / m) * (gx * (1 / m)) + gy * (1 / m) * (gy * (1 / m)))
      with ((gx * gx + gy * gy) / (m * m)) by (field; lra).
    rewrite <- Hsq. field. lra.
  - intros Hlt. unfold normalize. destruct (Rge_dec _ _); [lra | reflexivity].
  - unfold normalize. rewrite Hz. destruct (Rge_dec 0 0.000001); [lra | reflexivity].
  - unfold Divisors.normalize. rewrite Hz.
    destruct (Rge_dec 0 0.000001); [lra | reflexivity].
Qed.

Lemma normalize_spec_witness :
  normalize (3, 4) = (3 * (1 / sqrt (3 * 3 + 4 * 4)), 4 * (1 / sqrt (3 * 3 + 4 * 4))) /\
  fst (normalize (3, 4)) * fst (normalize (3, 4)) +
  snd (normalize (3, 4)) * snd (normalize (3, 4)) = 1.
Proof.
  apply (proj1 (normalize_spec 3 4)).
  replace (3 * 3 + 4 * 4) with (5 * 5) by ring.
  rewrite sqrt_square by lra. lra.
Defined.


End ConvolverClaims.

(** ** The logged functions agree with the plain ones *)

Section DivisorFacts.
Local Open Scope R_scope.

Variable gl : Globals.

Lemma value_seq_opt {A B : Type} (m : option (Divisors.Logged A))
    (k : A -> option (Divisors.Logged B)) :
  Divisors.value (Divisors.seq_opt m k) = (a <- Divisors.value m ;; Divisors.value (k a)).
Proof.
  destruct m as [[a log1] |]; simpl; [| reflexivity].
  destruct (k a) as [[b log2] |]; reflexivity.
Qed.

Lemma logs_seq_opt {A B : Type} (P : R -> Prop)
    (m : option (Divisors.Logged A)) (k : A -> option (Divisors.Logged B)) :
  Divisors.logs P m -> (forall a, Divisors.logs P (k a)) -> Divisors.logs P (Divisors.seq_opt m k).
Proof.
  destruct m as [[a log1] |]; simpl; [| auto].
  intros H1 H2. specialize (H2 a).
  destruct (k a) as [[b log2] |]; simpl in *; [| auto].
  apply Forall_app. split; assumption.
Qed.

Lemma value_ret {A : Type} (m : option A) :
  Divisors.value (option_map Divisors.ret m) = m.
Proof. destruct m; reflexivity. Qed.

Lemma logs_ret {A : Type} (P : R -> Prop) (m : option A) :
  Divisors.logs P (option_map Divisors.ret m).
Proof. destruct m; simpl; constructor. Qed.

Lemma value_foldM {A S : Type}
    (bodyL : Divisors.Logged S -> A -> option (Divisors.Logged S))
    (body : S -> A -> option S) xs :
  (forall st a, Divisors.value (bodyL st a) = body (fst st) a) ->
  forall st, Divisors.value (foldM bodyL xs st) = foldM body xs (fst st).
Proof.
  intros Hb. induction xs as [| a xs IH]; intros st; simpl; [reflexivity |].
  specialize (Hb st a). unfold Divisors.value in Hb.
  destruct (bodyL st a) as [st' |]; simpl in Hb; rewrite <- Hb; simpl;
    [apply IH | reflexivity].
Qed.

Lemma logs_foldM {A S : Type} (P : R -> Prop)
    (bodyL : Divisors.Logged S -> A -> option (Divisors.Logged S)) xs :
  (forall st a, Forall P (snd st) -> Divisors.logs P (bodyL st a)) ->
  forall st, Forall P (snd st) -> Divisors.logs P (foldM bodyL xs st).
Proof.
  intros Hb. induction xs as [| a xs IH]; intros st Hst; simpl.
  - destruct st. exact Hst.
  - specialize (Hb st a Hst).
    destruct (bodyL st a) as [st' |]; simpl; [| exact I].
    apply IH. destruct st'. exact Hb.
Qed.

Lemma filter_value u : fst (Divisors.filter gl u) = filter gl u.
Proof. reflexivity. Qed.

Lemma filter_log u : snd (Divisors.filter gl u) = [l gl].
Proof. reflexivity. Qed.

Lemma normalize_value v : fst (Divisors.normalize v) = normalize v.
Proof.
  destruct v as [vx vy]. unfold Divisors.normalize, normalize.
  destruct (Rge_dec _ _); reflexivity.
Qed.

Lemma normalize_log v :
  Forall (fun d => 0.000001 <= d) (snd (Divisors.normalize v)).
Proof.
  destruct v as [vx vy]. unfold Divisors.normalize.
  destruct (Rge_dec _ _) as [H | H]; cbn.
  - apply Forall_cons; [lra | apply Forall_nil].
  - apply Forall_nil.
Qed.

Lemma value_div a b k :
  Divisors.value (Divisors.seq_opt (Some (Divisors.div a b)) k) = Divisors.value (k (a / b)) :> option R.
Proof.
  unfold Divisors.seq_opt, Divisors.div. destruct (k (a / b)) as [[v log] |]; reflexivity.
Qed.

Lemma value_lift {A B : Type} (m : option A) (k : A -> option (Divisors.Logged B)) :
  Divisors.value (Divisors.seq_opt (option_map Divisors.ret m) k) = (a <- m ;; Divisors.value (k a)).
Proof. rewrite value_seq_opt, value_ret. reflexivity. Qed.

Lemma value_state {A B : Type} (st : Divisors.Logged A)
    (k : A -> option (Divisors.Logged B)) :
  Divisors.value (Divisors.seq_opt (Some st) k) = Divisors.value (k (fst st)).
Proof.
  destruct st as [a log]. simpl. destruct (k a) as [[b log2] |]; reflexivity.
Qed.

Lemma noise_value_logged x y : Divisors.value (Divisors.noise gl x y) = noise gl x y.
Proof.
  unfold Divisors.noise, noise.
  rewrite !value_div, value_lift.
  destruct (gint_of_gdouble (floor (x / dx gl))) as [sti |]; [| reflexivity].
  cbn [bind]. rewrite value_lift.
  destruct (gint_of_gdouble (floor (y / dy gl))) as [stj |]; [| reflexivity].
  cbn [bind]. rewrite value_lift.
  destruct (for_le sti (Gint.add sti 1)) as [ivals |]; [| reflexivity].
  cbn [bind]. rewrite value_lift.
  destruct (for_le stj (Gint.add stj 1)) as [jvals |]; [| reflexivity].
  cbn [bind].
  change 0 with (fst (Divisors.ret 0)) at 2.
  apply value_foldM. intros st i.
  apply value_foldM. intros st' j.
  rewrite value_state, !value_div, value_lift.
  destruct (omega gl _ _ i j); reflexivity.
Qed.

Lemma logs_div (P : R -> Prop) a b : P b -> Divisors.logs P (Some (Divisors.div a b)).
Proof. intros H. simpl. apply Forall_cons; [exact H | apply Forall_nil]. Qed.

Lemma logs_state {A : Type} (P : R -> Prop) (st : Divisors.Logged A) :
  Forall P (snd st) -> Divisors.logs P (Some st).
Proof. destruct st. auto. Qed.

Lemma logs_some_ret {A : Type} (P : R -> Prop) (a : A) :
  Divisors.logs P (Some (Divisors.ret a)).
Proof. simpl. apply Forall_nil. Qed.

Lemma logged_loop_unfold fuel xx yy c s step u f1 i :
  Divisors.lic_noise_loop gl fuel xx yy c s step u f1 i =
  if Rle_dec u (l gl) then
    match fuel with
    | O => None
    | S fuel' =>
        Divisors.seq_opt (Some (Divisors.filter gl u)) (fun fu =>
        Divisors.seq_opt (Divisors.noise gl (xx - u * c) (yy - u * s)) (fun n =>
        Divisors.lic_noise_loop gl fuel' xx yy c s step (u + step) (fu * n)
          (i + (f1 + fu * n) * 0.5 * step)))
    end
  else Some (Divisors.ret i).
Proof. destruct fuel; reflexivity. Qed.

Lemma loop_unfold fuel xx yy c s step u f1 i :
  lic_noise_loop gl fuel xx yy c s step u f1 i =
  if Rle_dec u (l gl) then
    match fuel with
    | O => None
    | S fuel' =>
        n <- noise gl (xx - u * c) (yy - u * s) ;;
        lic_noise_loop gl fuel' xx yy c s step (u + step) (filter gl u * n)
          (i + (f1 + filter gl u * n) * 0.5 * step)
    end
  else Some i.
Proof. destruct fuel; reflexivity. Qed.

Section Logs.

Variable P : R -> Prop.
Hypothesis Pdx : P (dx gl).
Hypothesis Pdy : P (dy gl).

Lemma noise_logs x y : Divisors.logs P (Divisors.noise gl x y).
Proof.
  unfold Divisors.noise.
  apply logs_seq_opt; [now apply logs_div | intros qx].
  apply logs_seq_opt; [now apply logs_div | intros qy].
  apply logs_seq_opt; [apply logs_ret | intros sti].
  apply logs_seq_opt; [apply logs_ret | intros stj].
  apply logs_seq_opt; [apply logs_ret | intros ivals].
  apply logs_seq_opt; [apply logs_ret | intros jvals].
  apply logs_foldM; [| apply Forall_nil]. intros st i Hst.
  apply logs_foldM; [| exact Hst]. intros st' j Hst'.
  apply logs_seq_opt; [now apply logs_state | intros sum].
  apply logs_seq_opt; [now apply logs_div | intros u].
  apply logs_seq_opt; [now apply logs_div | intros v].
  apply logs_seq_opt; [apply logs_ret | intros o].
  apply logs_some_ret.
Qed.

Hypothesis Pl : P (l gl).

Lemma filter_logs u : Divisors.logs P (Some (Divisors.filter gl u)).
Proof. simpl. apply Forall_cons; [exact Pl | apply Forall_nil]. Qed.

Lemma lic_noise_loop_logs fuel xx yy c s step :
  forall u f1 i, Divisors.logs P (Divisors.lic_noise_loop gl fuel xx yy c s step u f1 i).
Proof.
  induction fuel as [| fuel IH]; intros u f1 i; rewrite logged_loop_unfold;
    destruct (Rle_dec u (l gl)); try exact I; try apply logs_some_ret.
  apply logs_seq_opt; [apply filter_logs | intros fu].
  apply logs_seq_opt; [apply noise_logs | intros n].
  apply IH.
Qed.

Hypothesis Pisteps : P (isteps gl).
Hypothesis Prange : P (maxv gl - minv gl).
Hypothesis P2 : P 2.

Lemma lic_noise_logs fuel x y vx vy :
  Divisors.logs P (Divisors.lic_noise gl fuel x y vx vy).
Proof.
  unfold Divisors.lic_noise.
  apply logs_seq_opt; [now apply logs_div | intros step].
  apply logs_seq_opt; [apply filter_logs | intros fl].
  apply logs_seq_opt; [apply noise_logs | intros n].
  apply logs_seq_opt; [apply lic_noise_loop_logs | intros i].
  apply logs_seq_opt; [now apply logs_div | intros i'].
  apply logs_seq_opt; [now apply logs_div | intros i''].
  apply logs_some_ret.
Qed.

End Logs.

Lemma value_filter {B : Type} u (k : R -> option (Divisors.Logged B)) :
  Divisors.value (Divisors.seq_opt (Some (Divisors.filter gl u)) k)
  = Divisors.value (k (filter gl u)).
Proof. apply value_state. Qed.

Lemma lic_noise_loop_value fuel xx yy c s step :
  forall u f1 i,
    Divisors.value (Divisors.lic_noise_loop gl fuel xx yy c s step u f1 i)
    = lic_noise_loop gl fuel xx yy c s step u f1 i.
Proof.
  induction fuel as [| fuel IH]; intros u f1 i;
    rewrite logged_loop_unfold, loop_unfold;
    destruct (Rle_dec u (l gl)); try reflexivity.
  rewrite value_filter, value_seq_opt, noise_value_logged.
  destruct (noise gl (xx - u * c) (yy - u * s)) as [n |]; [| reflexivity].
  cbn [bind]. apply IH.
Qed.

Lemma lic_noise_value fuel x y vx vy :
  Divisors.value (Divisors.lic_noise gl fuel x y vx vy) = lic_noise gl fuel x y vx vy.
Proof.
  unfold Divisors.lic_noise, lic_noise, lic_noise_integral.
  rewrite value_div, value_filter, value_seq_opt, noise_value_logged.
  destruct (noise gl (IZR x + l gl * vx) (IZR y + l gl * vy)) as [n |];
    [| reflexivity].
  cbn [bind]. rewrite value_seq_opt, lic_noise_loop_value.
  destruct (lic_noise_loop gl fuel _ _ _ _ _ _ _ _) as [i |]; [| reflexivity].
  cbn [bind]. rewrite !value_div. reflexivity.
Qed.

(** Whenever [lic_noise] returns, it has divided by [maxv - minv]. *)
Lemma lic_noise_divides_by_range fuel x y vx vy v log :
  Divisors.lic_noise gl fuel x y vx vy = Some (v, log) ->
  In (maxv gl - minv gl) log.
Proof.
  unfold Divisors.lic_noise. unfold Divisors.seq_opt at 1. cbn [Divisors.div].
  unfold Divisors.seq_opt at 1.
  destruct (Divisors.filter gl (- l gl)) as [fl logf].
  unfold Divisors.seq_opt at 1.
  destruct (Divisors.noise gl _ _) as [[n logn] |]; [| discriminate].
  unfold Divisors.seq_opt at 1.
  destruct (Divisors.lic_noise_loop gl fuel _ _ _ _ _ _ _ _) as [[i logi] |];
    [| discriminate].
  cbn. intros H. injection H as _ <-.
  apply in_cons. rewrite !in_app_iff. right. right. right. left. reflexivity.
Qed.

End DivisorFacts.

(** ** A pixel with a zero flow vector *)

Section RestFacts.

Local Open Scope R_scope.

Section AtRest.

Variable gl : Globals.
Variables x y : Z.
Hypothesis Hx : cell_in_range (Int_part (IZR x / dx gl)).
Hypothesis Hy : cell_in_range (Int_part (IZR y / dy gl)).

(** With a zero flow vector every sample is taken at the pixel itself. *)
Lemma sample_at_rest u :
  sample gl x y 0 0 u = Some (filter gl u * noise_value gl (IZR x) (IZR y)).
Proof.
  unfold sample.
  replace (IZR x - u * 0) with (IZR x) by ring.
  replace (IZR y - u * 0) with (IZR y) by ring.
  rewrite noise_eq by assumption. reflexivity.
Qed.

Lemma trapezoid_sum_at_rest n :
  exists I, trapezoid_sum gl x y 0 0 n = Some I.
Proof.
  induction n as [| n [I IH]].
  - simpl. rewrite sample_at_rest. simpl. eauto.
  - rewrite trapezoid_sum_succ, IH, !sample_at_rest. simpl. eauto.
Qed.

Lemma lic_noise_at_rest fuel :
  0 < l gl -> 0 < isteps gl -> (trapezoids gl <= fuel)%nat ->
  exists r, lic_noise gl fuel x y 0 0 = Some r.
Proof.
  intros Hl Hs Hfuel. destruct (trapezoid_sum_at_rest (trapezoids gl)) as [I HI].
  unfold lic_noise. rewrite lic_noise_integral_trapezoid by assumption.
  rewrite HI. simpl. eauto.
Qed.

End AtRest.

Lemma cell_in_range_0 : cell_in_range 0.
Proof. unfold cell_in_range, Gint.INT_MIN, Gint.INT_MAX. lia. Qed.

Lemma Int_part_0_div d : Int_part (0 / d) = 0%Z.
Proof.
  replace (0 / d) with (IZR 0) by (unfold Rdiv; ring). apply Int_part_IZR.
Qed.

Lemma cell_origin d : cell_in_range (Int_part (IZR 0 / d)).
Proof. change (IZR 0) with 0. rewrite Int_part_0_div. apply cell_in_range_0. Qed.

Lemma trapezoids_unit gl : isteps gl = 1 -> trapezoids gl = 1%nat.
Proof. intros H. unfold trapezoids. rewrite H, Int_part_IZR. reflexivity. Qed.

Lemma noise_value_zero_grid gl x y :
  (forall i j k, G gl i j k = 0) -> noise_value gl x y = 0.
Proof.
  intros HG. unfold noise_value, omega_value. rewrite !HG. ring.
Qed.

End RestFacts.

(** ** Witnesses of the convolver; the effect operator *)

Section FlowClaims.

Local Open Scope R_scope.

Lemma single_step_is_one_trapezoid_witness :
  lic_noise_integral Examples.unit_step_globals 1 0 0 0 0
  = Some ((0 + 0) * 0.5 * (2 * l Examples.unit_step_globals)).
Proof.
  apply (single_step_is_one_trapezoid Examples.unit_step_globals 1 0 0 0 0 0 0).
  - reflexivity.
  - simpl; lra.
  - rewrite sample_at_rest by apply cell_origin.
    rewrite noise_value_zero_grid by reflexivity. f_equal. ring.
  - rewrite sample_at_rest by apply cell_origin.
    rewrite noise_value_zero_grid by reflexivity. f_equal. ring.
  - apply le_n.
Defined.

Lemma sampling_is_periodic_witness :
  peekmap Examples.flat_globals [7; 7; 7; 7]%Z
    (-3 + effect_width Examples.flat_globals) 5
  = peekmap Examples.flat_globals [7; 7; 7; 7]%Z (-3) 5 /\
  peekmap Examples.flat_globals [7; 7; 7; 7]%Z
    (-3) (5 + effect_height Examples.flat_globals)
  = peekmap Examples.flat_globals [7; 7; 7; 7]%Z (-3) 5 /\
  peekmap Examples.flat_globals [7; 7; 7; 7]%Z (-3) 5 <> None /\
  noise Examples.flat_globals (0 + IZR numx * dx Examples.flat_globals) 0
  = noise Examples.flat_globals 0 0 /\
  noise Examples.flat_globals 0 0
  = Some (noise_value Examples.flat_globals 0 0).
Proof.
  apply (sampling_is_periodic Examples.flat_globals [7; 7; 7; 7]%Z (-3) 5 0 0).
  - simpl; lia.
  - simpl; lia.
  - simpl; unfold Gint.INT_MAX; lia.
  - reflexivity.
  - unfold Gint.in_range, Gint.INT_MIN, Gint.INT_MAX; lia.
  - simpl; unfold Gint.in_range, Gint.INT_MIN, Gint.INT_MAX; lia.
  - unfold Gint.in_range, Gint.INT_MIN, Gint.INT_MAX; lia.
  - simpl; unfold Gint.in_range, Gint.INT_MIN, Gint.INT_MAX; lia.
  - simpl; lra.
  - rewrite Int_part_0_div. apply cell_in_range_0.
  - rewrite Int_part_0_div.
    unfold cell_in_range, numx, Gint.INT_MIN, Gint.INT_MAX; lia.
  - rewrite Int_part_0_div. apply cell_in_range_0.
Defined.

(** Claim C1, as the code has it.  The flow vector handed to the convolver
    is the normalized 90-degree rotation (gy, -gx) of the derivative (gx, gy)
    when the effect operator is "Gradient" (value 1), and the normalized
    derivative itself, not rotated, when it is "Derivative" (value 0). *)
Theorem flow_vector_by_operator gl scalarfield xcount ycount gx gy :
  gradx gl scalarfield xcount ycount = Some gx ->
  grady gl scalarfield xcount ycount = Some gy ->
  flow_vector gl scalarfield (effect_operator_value Gradient) xcount ycount
  = Some (normalize (IZR gy, - IZR gx)) /\
  flow_vector gl scalarfield (effect_operator_value Derivative) xcount ycount
  = Some (normalize (IZR gx, IZR gy)).
Proof.
  intros Hx Hy. unfold flow_vector. rewrite Hx, Hy. split; reflexivity.
Qed.

Lemma flow_vector_by_operator_witness :
  flow_vector Examples.ramp_globals Examples.ramp
    (effect_operator_value Gradient) 1 0
  = Some (normalize (IZR 0, - IZR (-8))) /\
  flow_vector Examples.ramp_globals Examples.ramp
    (effect_operator_value Derivative) 1 0
  = Some (normalize (IZR (-8), IZR 0)).
Proof.
  apply (flow_vector_by_operator Examples.ramp_globals Examples.ramp 1 0 (-8) 0);
    reflexivity.
Defined.

Lemma sqrt_axis a : 0 <= a -> sqrt (a * a + 0 * 0) = a.
Proof.
  intros Ha. replace (a * a + 0 * 0) with (a * a) by ring. now apply sqrt_square.
Qed.

Lemma ramp_gradient :
  gradx Examples.ramp_globals Examples.ramp 1 0 = Some (-8)%Z /\
  grady Examples.ramp_globals Examples.ramp 1 0 = Some 0%Z.
Proof. split; reflexivity. Qed.

(** On the scalar field [ramp] the derivative at (1, 0) is (-8, 0).  With the
    operator "Derivative" the flow vector is (-1, 0), which is neither the
    rotation (0, 8) of the derivative nor its normalization (0, 1). *)
Lemma derivative_mode_is_not_rotated :
  gradx Examples.ramp_globals Examples.ramp 1 0 = Some (-8)%Z /\
  grady Examples.ramp_globals Examples.ramp 1 0 = Some 0%Z /\
  flow_vector Examples.ramp_globals Examples.ramp
    (effect_operator_value Derivative) 1 0 = Some (-1, 0) /\
  rotate90 (IZR (-8), IZR 0) = (0, 8) /\
  normalize (rotate90 (IZR (-8), IZR 0)) = (0, 1) /\
  (-1, 0) <> (0, 8) /\
  (-1, 0) <> (0, 1).
Proof.
  destruct ramp_gradient as [Hx Hy].
  assert (Hrot : normalize (rotate90 (IZR (-8), IZR 0)) = (0, 1)).
  { unfold rotate90, normalize.
    replace (IZR 0 * IZR 0 + - IZR (-8) * - IZR (-8)) with (8 * 8 + 0 * 0)
      by (simpl; ring).
    rewrite sqrt_axis by lra.
    destruct (Rge_dec 8 0.000001); [| lra]. f_equal; simpl; field. }
  split; [exact Hx |]. split; [exact Hy |]. split; [| split; [| split; [exact Hrot |]]].
  - unfold flow_vector. rewrite Hx, Hy. cbn [bind effect_operator_value Z.eqb].
    f_equal. unfold normalize.
    replace (IZR (-8) * IZR (-8) + IZR 0 * IZR 0) with (8 * 8 + 0 * 0)
      by (simpl; ring).
    rewrite sqrt_axis by lra.
    destruct (Rge_dec 8 0.000001); [| lra]. f_equal; simpl; field.
  - unfold rotate90. f_equal. simpl. ring.
  - split; intros H; injection H as H1; lra.
Qed.

End FlowClaims.

(** ** The driver *)

Section DriverClaims.

Local Open Scope R_scope.

(** Claim C10.  [lic_run] called with [n_drawables <> 1] returns
    [GIMP_PDB_CALLING_ERROR], and called with a single drawable that is not
    RGB returns [GIMP_PDB_EXECUTION_ERROR]; in both cases the state of the
    host comes back as it was: no drawable has changed, no progress was
    reported and nothing was flushed, whatever the fuel. *)
Theorem lic_run_rejects h fuel run_mode n_drawables drawables w gl :
  (n_drawables <> 1%Z ->
   lic_run h fuel run_mode n_drawables drawables w gl
   = Some (GIMP_PDB_CALLING_ERROR, w, gl)) /\
  (forall id d,
     drawables = [id] -> items w id = Some d -> drw_is_rgb d = false ->
     lic_run h fuel run_mode 1 drawables w gl
     = Some (GIMP_PDB_EXECUTION_ERROR, w, retrieve_data w gl)).
Proof.
  split.
  - intros Hn. unfold lic_run.
    destruct (Z.eqb_spec n_drawables 1) as [E | _]; [contradiction | reflexivity].
  - intros id d -> Hd Hrgb. unfold lic_run. cbn [Z.eqb negb nth_error bind].
    rewrite Hd. cbn [bind]. rewrite Hrgb. reflexivity.
Qed.

Lemma lic_run_rejects_witness :
  lic_run Examples.null_host 0 GIMP_RUN_WITH_LAST_VALS 2 [1; 2]%Z
    Examples.lone_world Examples.initial_globals
  = Some (GIMP_PDB_CALLING_ERROR, Examples.lone_world, Examples.initial_globals)
  /\
  lic_run Examples.null_host 0 GIMP_RUN_WITH_LAST_VALS 1 [2]%Z
    Examples.lone_world Examples.initial_globals
  = Some (GIMP_PDB_EXECUTION_ERROR, Examples.lone_world,
          retrieve_data Examples.lone_world Examples.initial_globals).
Proof.
  split.
  - apply (proj1 (lic_run_rejects Examples.null_host 0 GIMP_RUN_WITH_LAST_VALS 2
             [1; 2]%Z Examples.lone_world Examples.initial_globals)).
    discriminate.
  - apply (proj2 (lic_run_rejects Examples.null_host 0 GIMP_RUN_WITH_LAST_VALS 1
             [2]%Z Examples.lone_world Examples.initial_globals)
             2%Z Examples.gray_dot); reflexivity.
Defined.




End DriverClaims.

(** ** The scalar field; guarded divisions *)

Section FieldClaims.

Local Open Scope R_scope.

(** Claim C3, at an input where the code departs from it.  For a 2 x 2
    effect image and a 1 x 2 rectangle of the filtered drawable, the map has
    4 entries of which [rgb_to_hsl] writes the first two, from the pixels
    (0, 0) and (0, 1); entry 1, which [peekmap] reads as pixel (1, 0), holds
    the value of pixel (0, 1), and entries 2 and 3 keep what the allocation
    contained.  For a 1 x 1 effect image and a 2 x 1 rectangle the second
    store lies outside the map. *)
Theorem rgb_to_hsl_fills_by_border h channel (buf : GeglBuffer) :
  rgb_to_hsl h (set_border Examples.initial_globals 0 0 1 2)
    (Some (mkDrawable 2 2 true false None buf buf)) channel
  = Some [scalar_value h channel (buf 0 0)%Z 0;
          scalar_value h channel (buf 0 1)%Z 1;
          g_new_contents h 2; g_new_contents h 3] /\
  rgb_to_hsl h (set_border Examples.initial_globals 0 0 2 1)
    (Some (mkDrawable 1 1 true false None buf buf)) channel
  = None.
Proof. split; reflexivity. Qed.

Lemma compute_image_clamps_filtlen h fuel w gl id d w' gl' :
  items w id = Some d -> drw_mask_intersect d <> None ->
  compute_image h fuel w gl id = Some (w', gl') ->
  0.1 <= l gl'.
Proof.
  intros Hd Hmask. unfold compute_image. rewrite Hd. cbn [bind].
  destruct (drw_mask_intersect d) as [[[[bx by_] bw] bh] |]; [| contradiction].
  set (gl1 := set_border gl bx by_ bw bh).
  set (gl2 := if (effect_convolve (licvals gl1) =? 0)%Z
              then set_G gl1 (generatevectors gl1 h) else gl1).
  set (gl3 := if Rlt_dec (filtlen (licvals gl2)) 0.1
              then set_licvals gl2 (set_filtlen (licvals gl2) 0.1) else gl2).
  set (gl4 := set_parameters gl3 _ _ _ _ _ _).
  set (gl5 := set_source_drw_has_alpha gl4 _).
  set (gl6 := set_effect_size gl5 _ _).
  assert (E : 0.1 <= l gl6).
  { unfold gl6, gl5, gl4. cbn. unfold gl3.
    destruct (Rlt_dec (filtlen (licvals gl2)) 0.1); cbn; lra. }
  destruct (if (effect_channel (licvals gl6) =? 0)%Z then _ else _)
    as [scalarfield |]; [| discriminate].
  cbn [bind].
  destruct (compute_lic h gl6 fuel w d scalarfield _) as [[w1 dest] |];
    [| discriminate].
  cbn [bind]. intros H. injection H as _ <-. exact E.
Qed.

Lemma pixel_divisors_at_rest gl fuel x y :
  cell_in_range (Int_part (IZR x / dx gl)) ->
  cell_in_range (Int_part (IZR y / dy gl)) ->
  0 < l gl -> 0 < isteps gl -> (trapezoids gl <= fuel)%nat ->
  exists log,
    Divisors.pixel_divisors gl fuel x y (0, 0) = Some log /\
    In (maxv gl - minv gl) log.
Proof.
  intros Hx Hy Hl Hs Hfuel.
  destruct (lic_noise_at_rest gl x y Hx Hy fuel Hl Hs Hfuel) as [r Hr].
  rewrite <- lic_noise_value in Hr.
  destruct (Divisors.lic_noise gl fuel x y 0 0) as [[r' log] |] eqn:E;
    [| discriminate].
  pose proof (lic_noise_divides_by_range gl fuel x y 0 0 r' log E) as Hin.
  exists log. split; [| exact Hin].
  unfold Divisors.pixel_divisors, Divisors.normalize.
  replace (0 * 0 + 0 * 0) with 0 by ring. rewrite sqrt_0.
  destruct (Rge_dec 0 0.000001); [lra |]. cbn [Divisors.ret fst snd].
  rewrite E. reflexivity.
Qed.

(** With "Minimum value" and "Maximum value" both 0 the normalization of
    [lic_noise] divides by 0. *)
Lemma division_by_zero_range :
  exists log,
    Divisors.pixel_divisors Examples.zero_range_globals 1 0 0 (0, 0) = Some log /\
    In (maxv Examples.zero_range_globals - minv Examples.zero_range_globals) log /\
    Rabs (maxv Examples.zero_range_globals - minv Examples.zero_range_globals)
      < 0.000001.
Proof.
  destruct (pixel_divisors_at_rest Examples.zero_range_globals 1 0 0
              (cell_origin _) (cell_origin _)) as [log [Hlog Hin]].
  - simpl; lra.
  - simpl; lra.
  - rewrite trapezoids_unit by reflexivity. apply le_n.
  - exists log. split; [exact Hlog |]. split; [exact Hin |].
    simpl. replace (0 / 10 - 0 / 10) with 0 by field.
    rewrite Rabs_R0. lra.
Qed.

End FieldClaims.

(** ** The spline and the filter *)

Section SplineFacts.
Local Open Scope R_scope.

Lemma cubic_nonneg_arg t : 0 <= t -> t < 1 -> cubic t = t * t * (2 * t - 3) + 1.
Proof.
  intros H0 H1. unfold cubic. rewrite Rabs_pos_eq by assumption.
  destruct (Rlt_dec t 1); [reflexivity | lra].
Qed.

Lemma cubic_even t : cubic (- t) = cubic t.
Proof. unfold cubic. now rewrite Rabs_Ropp. Qed.

Lemma cubic_outside t : 1 <= Rabs t -> cubic t = 0.
Proof. intros H. unfold cubic. destruct (Rlt_dec (Rabs t) 1); [lra | reflexivity]. Qed.

Lemma cubic_range t : 0 <= cubic t <= 1.
Proof.
  unfold cubic. pose proof (Rabs_pos t) as Ha.
  cbv zeta. destruct (Rlt_dec (Rabs t) 1) as [H | H]; [| split; lra].
  set (a := Rabs t) in *. split.
  - replace (a * a * (2 * a - 3) + 1) with ((1 - a) * (1 - a) * (1 + 2 * a)) by ring.
    apply Rmult_le_pos; [apply Rle_0_sqr | lra].
  - assert (0 <= a * a * (3 - 2 * a)).
    { apply Rmult_le_pos; [apply Rle_0_sqr | lra]. }
    lra.
Qed.

(** Property X1.  The spline [cubic] is 1 at 0, even, 0 wherever [|t| >= 1],
    takes its values in [[0, 1]] and decreases on [[0, 1]]. *)
Theorem cubic_shape :
  cubic 0 = 1 /\
  (forall t, cubic (- t) = cubic t) /\
  (forall t, 1 <= Rabs t -> cubic t = 0) /\
  (forall t, 0 <= cubic t <= 1) /\
  (forall s t, 0 <= s -> s <= t -> t <= 1 -> cubic t <= cubic s).
Proof.
  split.
  { unfold cubic. rewrite Rabs_R0. destruct (Rlt_dec 0 1); lra. }
  split; [exact cubic_even |]. split; [exact cubic_outside |].
  split; [exact cubic_range |].
  intros s t Hs Hst Ht.
  destruct (Req_dec t 1) as [-> | Hne].
  - rewrite (cubic_outside 1) by (rewrite Rabs_pos_eq; lra). apply cubic_range.
  - rewrite !cubic_nonneg_arg by lra.
    assert (0 <= (t - s) * (3 * (s + t) - 2 * (s * s + s * t + t * t))).
    { apply Rmult_le_pos; [lra |]. nra. }
    nra.
Qed.

End SplineFacts.

Section FilterFacts.
Local Open Scope R_scope.

Lemma filter_outside gl u :
  0 < l gl -> l gl <= Rabs u -> filter gl u = 0.
Proof.
  intros Hl Hu. unfold filter. cbv zeta.
  assert (1 <= Rabs u / l gl).
  { apply (Rmult_le_reg_r (l gl)); [exact Hl |].
    unfold Rdiv. rewrite Rmult_assoc, Rinv_l by lra. lra. }
  destruct (Rlt_dec (1 - Rabs u / l gl) 0) as [_ | Hn]; lra.
Qed.

(** Property X2.  For a positive filter length [l], the triangle [filter] is
    1 at 0, even, 0 wherever [|u| >= l], equal to [1 - |u| / l] wherever
    [|u| <= l], and takes its values in [[0, 1]]. *)
Theorem filter_shape gl :
  0 < l gl ->
  filter gl 0 = 1 /\
  (forall u, filter gl (- u) = filter gl u) /\
  (forall u, l gl <= Rabs u -> filter gl u = 0) /\
  (forall u, Rabs u <= l gl -> filter gl u = 1 - Rabs u / l gl) /\
  (forall u, 0 <= filter gl u <= 1).
Proof.
  intros Hl.
  assert (Hq : forall u, 0 <= Rabs u / l gl).
  { intros u. apply Rmult_le_pos; [apply Rabs_pos |].
    apply Rlt_le. now apply Rinv_0_lt_compat. }
  split.
  { unfold filter. rewrite Rabs_R0. unfold Rdiv. rewrite Rmult_0_l.
    destruct (Rlt_dec (1 - 0) 0); lra. }
  split.
  { intros u. unfold filter. now rewrite Rabs_Ropp. }
  split.
  { intros u Hu. now apply filter_outside. }
  split.
  { intros u Hu. unfold filter. cbv zeta.
    assert (Rabs u / l gl <= 1).
    { apply (Rmult_le_reg_r (l gl)); [exact Hl |].
      unfold Rdiv. rewrite Rmult_assoc, Rinv_l by lra. lra. }
    destruct (Rlt_dec (1 - Rabs u / l gl) 0); lra. }
  intros u. unfold filter. cbv zeta. specialize (Hq u).
  destruct (Rlt_dec (1 - Rabs u / l gl) 0); lra.
Qed.

Lemma filter_shape_witness :
  filter Examples.flat_globals 0 = 1 /\
  (forall u, filter Examples.flat_globals (- u) = filter Examples.flat_globals u) /\
  (forall u, l Examples.flat_globals <= Rabs u -> filter Examples.flat_globals u = 0) /\
  (forall u, Rabs u <= l Examples.flat_globals ->
     filter Examples.flat_globals u = 1 - Rabs u / l Examples.flat_globals) /\
  (forall u, 0 <= filter Examples.flat_globals u <= 1).
Proof. apply (filter_shape Examples.flat_globals). simpl. lra. Defined.

End FilterFacts.

Section VectorFacts.
Local Open Scope R_scope.

Lemma generatevectors_cell gl h i j :
  (0 <= i < numx)%Z -> (0 <= j < numy)%Z ->
  exists alpha,
    generatevectors gl h i j 0 = cos alpha /\
    generatevectors gl h i j 1 = sin alpha.
Proof.
  intros Hi Hj. unfold generatevectors.
  destruct (Z.leb_spec 0 i); [| lia]. destruct (Z.ltb_spec i numx); [| lia].
  destruct (Z.leb_spec 0 j); [| lia]. destruct (Z.ltb_spec j numy); [| lia].
  cbn [andb Z.eqb Pos.eqb]. eexists. split; reflexivity.
Qed.

(** Property X3.  Whatever the generator draws, [generatevectors] leaves in
    every cell (i, j) of the [numx] x [numy] grid a vector of length 1:
    [G[i][j][0]^2 + G[i][j][1]^2 = 1]. *)
Theorem generatevectors_unit gl h i j :
  (0 <= i < numx)%Z -> (0 <= j < numy)%Z ->
  generatevectors gl h i j 0 * generatevectors gl h i j 0 +
  generatevectors gl h i j 1 * generatevectors gl h i j 1 = 1.
Proof.
  intros Hi Hj. destruct (generatevectors_cell gl h i j Hi Hj) as (alpha & -> & ->).
  pose proof (sin2_cos2 alpha) as Hsc. unfold Rsqr in Hsc. lra.
Qed.

Lemma generatevectors_unit_witness :
  generatevectors Examples.initial_globals Examples.null_host 3 39 0 *
  generatevectors Examples.initial_globals Examples.null_host 3 39 0 +
  generatevectors Examples.initial_globals Examples.null_host 3 39 1 *
  generatevectors Examples.initial_globals Examples.null_host 3 39 1 = 1.
Proof.
  apply (generatevectors_unit Examples.initial_globals Examples.null_host 3 39);
    unfold numx, numy; lia.
Defined.

End VectorFacts.

(** ** The noise at the nodes; its range *)

Section NodeFacts.
Local Open Scope R_scope.

Lemma cubic_at_minus_one : cubic (-1) = 0.
Proof.
  apply cubic_outside. rewrite <- Rabs_Ropp.
  replace (- -1) with 1 by lra. rewrite Rabs_R1. lra.
Qed.

(** Property X4.  The noise is 0 at every node [(i dx, j dy)] of the grid,
    whatever vectors [G] holds: the node's own vector is multiplied by a zero
    offset and the three neighbours by [cubic] at distance 1.  The cell sizes
    are not zero and the indices are values the loops of [noise] can count
    from. *)
Theorem noise_vanishes_at_nodes gl (i j : Z) :
  dx gl <> 0 -> dy gl <> 0 ->
  cell_in_range i -> cell_in_range j ->
  noise gl (IZR i * dx gl) (IZR j * dy gl) = Some 0.
Proof.
  intros Hdx Hdy Hi Hj.
  assert (Ex : IZR i * dx gl / dx gl = IZR i) by (field; exact Hdx).
  assert (Ey : IZR j * dy gl / dy gl = IZR j) by (field; exact Hdy).
  rewrite noise_eq by (rewrite ?Ex, ?Ey, Int_part_IZR; assumption).
  f_equal. unfold noise_value. rewrite Ex, Ey, !Int_part_IZR. cbv zeta.
  replace ((IZR i * dx gl - IZR i * dx gl) / dx gl) with 0 by (field; exact Hdx).
  replace ((IZR j * dy gl - IZR j * dy gl) / dy gl) with 0 by (field; exact Hdy).
  replace ((IZR i * dx gl - IZR (i + 1) * dx gl) / dx gl) with (-1)
    by (rewrite plus_IZR; field; exact Hdx).
  replace ((IZR j * dy gl - IZR (j + 1) * dy gl) / dy gl) with (-1)
    by (rewrite plus_IZR; field; exact Hdy).
  unfold omega_value. rewrite cubic_at_minus_one. ring.
Qed.

Lemma noise_vanishes_at_nodes_witness :
  noise Examples.flat_globals (IZR 3 * dx Examples.flat_globals)
    (IZR (-7) * dy Examples.flat_globals) = Some 0.
Proof.
  apply (noise_vanishes_at_nodes Examples.flat_globals 3 (-7)).
  - simpl; lra.
  - simpl; lra.
  - unfold cell_in_range, Gint.INT_MIN, Gint.INT_MAX; lia.
  - unfold cell_in_range, Gint.INT_MIN, Gint.INT_MAX; lia.
Defined.

(** The offsets handed to [omega] lie in [0, 1) for the lower cell and in
    [-1, 0) for the upper one. *)
Lemma offset_bounds x d :
  d <> 0 ->
  0 <= (x - IZR (Int_part (x / d)) * d) / d < 1 /\
  -1 <= (x - IZR (Int_part (x / d) + 1) * d) / d < 0.
Proof.
  intros Hd. destruct (base_Int_part (x / d)) as [Hlo Hhi].
  replace ((x - IZR (Int_part (x / d)) * d) / d)
    with (x / d - IZR (Int_part (x / d))) by (field; exact Hd).
  replace ((x - IZR (Int_part (x / d) + 1) * d) / d)
    with (x / d - IZR (Int_part (x / d)) - 1) by (rewrite plus_IZR; field; exact Hd).
  lra.
Qed.

(** The weights of the two cells along one axis add up to 1. *)
Lemma cubic_partition u : 0 <= u < 1 -> cubic u + cubic (u - 1) = 1.
Proof.
  intros [H0 H1]. rewrite cubic_nonneg_arg by assumption.
  destruct (Req_dec u 0) as [-> | Hne].
  - replace (0 - 1) with (-1) by lra. rewrite cubic_at_minus_one. ring.
  - rewrite <- cubic_even. replace (- (u - 1)) with (1 - u) by ring.
    rewrite cubic_nonneg_arg by lra. ring.
Qed.

Lemma weighted_sum_bound a a1 b b1 d00 d01 d10 d11 :
  0 <= a -> 0 <= a1 -> 0 <= b -> 0 <= b1 -> a + a1 = 1 -> b + b1 = 1 ->
  -2 <= d00 <= 2 -> -2 <= d01 <= 2 -> -2 <= d10 <= 2 -> -2 <= d11 <= 2 ->
  -2 <= 0 + a * b * d00 + a * b1 * d01 + a1 * b * d10 + a1 * b1 * d11 <= 2.
Proof.
  intros Ha Ha1 Hb Hb1 Ea Eb H00 H01 H10 H11.
  assert (W : a * b + a * b1 + a1 * b + a1 * b1 = 1).
  { replace (a * b + a * b1 + a1 * b + a1 * b1) with ((a + a1) * (b + b1)) by ring.
    rewrite Ea, Eb. ring. }
  assert (P00 : 0 <= a * b) by now apply Rmult_le_pos.
  assert (P01 : 0 <= a * b1) by now apply Rmult_le_pos.
  assert (P10 : 0 <= a1 * b) by now apply Rmult_le_pos.
  assert (P11 : 0 <= a1 * b1) by now apply Rmult_le_pos.
  assert (0 <= a * b * (2 - d00)) by (apply Rmult_le_pos; lra).
  assert (0 <= a * b * (2 + d00)) by (apply Rmult_le_pos; lra).
  assert (0 <= a * b1 * (2 - d01)) by (apply Rmult_le_pos; lra).
  assert (0 <= a * b1 * (2 + d01)) by (apply Rmult_le_pos; lra).
  assert (0 <= a1 * b * (2 - d10)) by (apply Rmult_le_pos; lra).
  assert (0 <= a1 * b * (2 + d10)) by (apply Rmult_le_pos; lra).
  assert (0 <= a1 * b1 * (2 - d11)) by (apply Rmult_le_pos; lra).
  assert (0 <= a1 * b1 * (2 + d11)) by (apply Rmult_le_pos; lra).
  lra.
Qed.

Lemma dot_bound gx gy u v :
  -1 <= gx <= 1 -> -1 <= gy <= 1 -> -1 <= u <= 1 -> -1 <= v <= 1 ->
  -2 <= gx * u + gy * v <= 2.
Proof. intros. nra. Qed.

Lemma noise_value_bound gl x y :
  (forall a b, (0 <= a < numx)%Z -> (0 <= b < numy)%Z ->
     -1 <= G gl a b 0 <= 1 /\ -1 <= G gl a b 1 <= 1) ->
  dx gl <> 0 -> dy gl <> 0 ->
  -2 <= noise_value gl x y <= 2.
Proof.
  intros HG Hdx Hdy. unfold noise_value. cbv zeta.
  destruct (offset_bounds x (dx gl) Hdx) as [U0 U1].
  destruct (offset_bounds y (dy gl) Hdy) as [V0 V1].
  set (s := Int_part (x / dx gl)) in *. set (t := Int_part (y / dy gl)) in *.
  set (u0 := (x - IZR s * dx gl) / dx gl) in *.
  set (v0 := (y - IZR t * dy gl) / dy gl) in *.
  replace ((x - IZR (s + 1) * dx gl) / dx gl) with (u0 - 1) in *
    by (unfold u0; rewrite plus_IZR; field; exact Hdx).
  replace ((y - IZR (t + 1) * dy gl) / dy gl) with (v0 - 1) in *
    by (unfold v0; rewrite plus_IZR; field; exact Hdy).
  unfold omega_value.
  assert (M : forall i, (0 <= i mod numx < numx)%Z)
    by (intros i; apply Z.mod_pos_bound; reflexivity).
  pose proof (cubic_range u0). pose proof (cubic_range (u0 - 1)).
  pose proof (cubic_range v0). pose proof (cubic_range (v0 - 1)).
  pose proof (cubic_partition u0 U0). pose proof (cubic_partition v0 V0).
  apply weighted_sum_bound; try lra;
    apply dot_bound; try lra; apply HG; apply M.
Qed.

(** Property X5.  With the vectors [generatevectors] stores, [noise] returns a
    value between -2 and 2 at every point whose cell indices are in range. *)
Theorem noise_bounded gl h x y :
  dx gl <> 0 -> dy gl <> 0 ->
  cell_in_range (Int_part (x / dx gl)) ->
  cell_in_range (Int_part (y / dy gl)) ->
  exists n,
    noise (set_G gl (generatevectors gl h)) x y = Some n /\ -2 <= n <= 2.
Proof.
  intros Hdx Hdy Hs Ht.
  set (gl' := set_G gl (generatevectors gl h)).
  exists (noise_value gl' x y). split.
  - apply noise_eq; assumption.
  - apply noise_value_bound; try assumption.
    intros a b Ha Hb.
    destruct (generatevectors_cell gl h a b Ha Hb) as (alpha & Hc & Hs').
    change (G gl' a b 0) with (generatevectors gl h a b 0).
    change (G gl' a b 1) with (generatevectors gl h a b 1).
    rewrite Hc, Hs'.
    pose proof (COS_bound alpha). pose proof (SIN_bound alpha).
    split; nra.
Qed.

Lemma noise_bounded_witness :
  exists n,
    noise (set_G Examples.flat_globals
             (generatevectors Examples.flat_globals Examples.null_host)) 0 0
    = Some n /\ -2 <= n <= 2.
Proof.
  apply (noise_bounded Examples.flat_globals Examples.null_host 0 0).
  - simpl; lra.
  - simpl; lra.
  - rewrite Int_part_0_div. apply cell_in_range_0.
  - rewrite Int_part_0_div. apply cell_in_range_0.
Defined.

End NodeFacts.

(** ** The convolvers at the ends of the filter *)

Section EdgeFacts.
Local Open Scope R_scope.

Lemma filter_at_ends gl : 0 < l gl -> filter gl (- l gl) = 0 /\ filter gl (l gl) = 0.
Proof.
  intros Hl. split; apply filter_outside; try exact Hl.
  - rewrite Rabs_Ropp, Rabs_pos_eq; lra.
  - rewrite Rabs_pos_eq; lra.
Qed.

(** Property X7.  With [isteps = 1] and [l > 0] the integral of [lic_noise] is
    0 whatever the noise is, because [filter] is 0 at both nodes [-l] and
    [l]; the value [lic_noise] returns is then
    [CLAMP ((0 - minv) / (maxv - minv), 0, 1) / 2 + 0.5], the same for every
    pixel and every flow vector. *)
Theorem single_step_integral_vanishes gl fuel x y vx vy n1 n2 :
  isteps gl = 1 -> 0 < l gl ->
  noise gl (IZR x + l gl * vx) (IZR y + l gl * vy) = Some n1 ->
  noise gl (IZR x - l gl * vx) (IZR y - l gl * vy) = Some n2 ->
  (1 <= fuel)%nat ->
  lic_noise_integral gl fuel x y vx vy = Some 0 /\
  lic_noise gl fuel x y vx vy
  = Some (RGB.CLAMP ((0 - minv gl) / (maxv gl - minv gl)) 0 1 / 2 + 0.5).
Proof.
  intros Hs Hl H1 H2 Hfuel.
  destruct (filter_at_ends gl Hl) as [Fm Fp].
  assert (E : lic_noise_integral gl fuel x y vx vy = Some 0).
  { unfold lic_noise_integral. rewrite H1. cbn [bind].
    destruct fuel as [| fuel]; [lia |].
    assert (Eu : - l gl + 2 * l gl / isteps gl = l gl) by (rewrite Hs; field).
    rewrite Eu, lic_noise_loop_step by lra.
    rewrite H2. cbn [bind]. rewrite lic_noise_loop_exit by (rewrite Hs; lra).
    f_equal. rewrite Fm, Fp. ring. }
  split; [exact E |]. unfold lic_noise. rewrite E. reflexivity.
Qed.

Lemma lic_noise_loop_stuck gl xx yy c s step :
  step <= 0 ->
  forall fuel u f1 i, u <= l gl ->
    lic_noise_loop gl fuel xx yy c s step u f1 i = None.
Proof.
  intros Hstep fuel. induction fuel as [| fuel IH]; intros u f1 i Hu.
  - simpl. destruct (Rle_dec u (l gl)); [reflexivity | contradiction].
  - rewrite lic_noise_loop_step by exact Hu.
    destruct (noise gl _ _); [| reflexivity]. cbn [bind]. apply IH. lra.
Qed.

Lemma lic_image_loop_unfold gl h fuel buffer xx yy c s step u col1 col :
  lic_image_loop gl h fuel buffer xx yy c s step u col1 col =
  if Rle_dec u (l gl) then
    match fuel with
    | O => None
    | S fuel' =>
        col2 <- getpixel gl h buffer (xx - u * c) (yy - u * s) ;;
        if source_drw_has_alpha gl then
          lic_image_loop gl h fuel' buffer xx yy c s step (u + step)
            (RGB.gimp_rgba_multiply col2 (filter gl u))
            (RGB.gimp_rgba_add col
               (RGB.gimp_rgba_multiply
                  (RGB.gimp_rgba_add col1 (RGB.gimp_rgba_multiply col2 (filter gl u)))
                  (0.5 * step)))
        else
          lic_image_loop gl h fuel' buffer xx yy c s step (u + step)
            (RGB.gimp_rgb_multiply col2 (filter gl u))
            (RGB.gimp_rgb_add col
               (RGB.gimp_rgb_multiply
                  (RGB.gimp_rgb_add col1 (RGB.gimp_rgb_multiply col2 (filter gl u)))
                  (0.5 * step)))
    end
  else Some col.
Proof. destruct fuel; reflexivity. Qed.

Lemma lic_image_loop_stuck gl h buffer xx yy c s step :
  step <= 0 ->
  forall fuel u col1 col, u <= l gl ->
    lic_image_loop gl h fuel buffer xx yy c s step u col1 col = None.
Proof.
  intros Hstep fuel. induction fuel as [| fuel IH]; intros u col1 col Hu;
    rewrite lic_image_loop_unfold;
    (destruct (Rle_dec u (l gl)); [| contradiction]); [reflexivity |].
  destruct (getpixel gl h buffer _ _); [| reflexivity]. cbn [bind].
  destruct (source_drw_has_alpha gl); apply IH; lra.
Qed.

(** Property X8.  With [l > 0] and a negative [isteps] neither convolver
    returns, however many iterations are allowed: the step [2 l / isteps] is
    negative, so [u <= l] holds at every turn of the loop. *)
Theorem negative_steps_never_return gl h fuel buffer x y vx vy :
  0 < l gl -> isteps gl < 0 ->
  lic_noise gl fuel x y vx vy = None /\
  lic_image gl h fuel buffer x y vx vy = None.
Proof.
  intros Hl Hs.
  assert (Hstep : 2 * l gl / isteps gl <= 0).
  { assert (/ isteps gl < 0) by now apply Rinv_lt_0_compat.
    unfold Rdiv. nra. }
  split.
  - unfold lic_noise, lic_noise_integral.
    destruct (noise gl _ _); [| reflexivity]. cbn [bind].
    rewrite lic_noise_loop_stuck by (try exact Hstep; lra). reflexivity.
  - unfold lic_image.
    destruct (getpixel gl h buffer _ _); [| reflexivity]. cbn [bind].
    rewrite lic_image_loop_stuck by (try exact Hstep; lra). reflexivity.
Qed.

End EdgeFacts.

Section ImageFacts.
Local Open Scope R_scope.

Lemma lic_image_loop_alpha gl h buffer xx yy c s step :
  source_drw_has_alpha gl = false ->
  forall fuel u col1 col res,
    lic_image_loop gl h fuel buffer xx yy c s step u col1 col = Some res ->
    RGB.a res = RGB.a col.
Proof.
  intros Ha fuel. induction fuel as [| fuel IH]; intros u col1 col res;
    rewrite lic_image_loop_unfold; destruct (Rle_dec u (l gl));
    try discriminate; try (intros H; injection H as <-; reflexivity).
  destruct (getpixel gl h buffer _ _) as [col2 |]; [| discriminate].
  cbn [bind]. rewrite Ha. intros H. apply IH in H. exact H.
Qed.

Lemma CLAMP_unit v : 0 <= RGB.CLAMP v 0 1 <= 1.
Proof.
  unfold RGB.CLAMP. destruct (Rgt_dec v 1); [lra |]. destruct (Rlt_dec v 0); lra.
Qed.

Lemma CLAMP_zero : RGB.CLAMP 0 0 1 = 0.
Proof.
  unfold RGB.CLAMP. destruct (Rgt_dec 0 1); [lra |]. destruct (Rlt_dec 0 0); lra.
Qed.

(** Property X9.  Every color [lic_image] returns has its four channels in
    [[0, 1]]; when the source drawable has no alpha channel its alpha is 0. *)
Theorem lic_image_is_a_color gl h fuel buffer x y vx vy c :
  lic_image gl h fuel buffer x y vx vy = Some c ->
  0 <= RGB.r c <= 1 /\ 0 <= RGB.g c <= 1 /\ 0 <= RGB.b c <= 1 /\
  0 <= RGB.a c <= 1 /\
  (source_drw_has_alpha gl = false -> RGB.a c = 0).
Proof.
  unfold lic_image.
  destruct (getpixel gl h buffer _ _) as [col1 |]; [| discriminate]. cbn [bind].
  destruct (lic_image_loop gl h fuel buffer _ _ _ _ _ _ _ _) as [col |] eqn:E;
    [| discriminate].
  cbn [bind]. intros H. injection H as <-.
  unfold RGB.gimp_rgb_clamp. cbn [RGB.r RGB.g RGB.b RGB.a].
  repeat (split; [apply CLAMP_unit |]).
  intros Ha. rewrite Ha in *.
  apply (lic_image_loop_alpha gl h buffer _ _ _ _ _ Ha) in E.
  cbn [RGB.gimp_rgb_multiply RGB.a] in *. rewrite E. apply CLAMP_zero.
Qed.

Lemma getpixel_defined gl h buffer u v a b :
  gint_of_gdouble u = Some a -> gint_of_gdouble v = Some b ->
  border_w gl <> 0%Z -> border_h gl <> 0%Z ->
  exists c, getpixel gl h buffer u v = Some c.
Proof.
  intros Hu Hv Hw Hh. unfold getpixel. rewrite Hu, Hv. cbn [bind].
  assert (Rw : forall z, exists r, Gint.rem z (border_w gl) = Some r).
  { intros z. unfold Gint.rem. destruct (Z.eqb_spec (border_w gl) 0); [contradiction | eauto]. }
  assert (Rh : forall z, exists r, Gint.rem z (border_h gl) = Some r).
  { intros z. unfold Gint.rem. destruct (Z.eqb_spec (border_h gl) 0); [contradiction | eauto]. }
  assert (Wx : exists x1,
    (if (a <? 0)%Z
     then m <- Gint.rem (Gint.neg a) (border_w gl) ;; Some (Gint.sub (border_w gl) m)
     else Gint.rem a (border_w gl)) = Some x1).
  { destruct (a <? 0)%Z; [| apply Rw].
    destruct (Rw (Gint.neg a)) as [m ->]. cbn [bind]. eauto. }
  assert (Wy : exists y1,
    (if (b <? 0)%Z
     then m <- Gint.rem (Gint.neg b) (border_h gl) ;; Some (Gint.sub (border_h gl) m)
     else Gint.rem b (border_h gl)) = Some y1).
  { destruct (b <? 0)%Z; [| apply Rh].
    destruct (Rh (Gint.neg b)) as [m ->]. cbn [bind]. eauto. }
  destruct Wx as [x1 ->]. destruct Wy as [y1 ->]. cbn [bind].
  destruct (Rw (Gint.add x1 1)) as [x2 ->].
  destruct (Rh (Gint.add y1 1)) as [y2 ->]. cbn [bind].
  destruct (source_drw_has_alpha gl); eauto.
Qed.

Lemma lic_image_witness_run :
  exists c,
    lic_image Samples.image_step_globals Examples.null_host 1
      (fun _ _ => Examples.gray) 0 0 0 0 = Some c.
Proof.
  unfold lic_image.
  assert (E0 : forall t, IZR 0 + t * 0 = IZR 0) by (intros; simpl; ring).
  assert (E1 : forall t, IZR 0 - t * 0 = IZR 0) by (intros; simpl; ring).
  rewrite !E0.
  destruct (getpixel_defined Samples.image_step_globals Examples.null_host
              (fun _ _ => Examples.gray) (IZR 0) (IZR 0) 0 0) as [c1 H1];
    try (apply gint_of_gdouble_IZR; unfold Gint.in_range, Gint.INT_MIN, Gint.INT_MAX; lia);
    try discriminate.
  rewrite H1. cbn [bind].
  rewrite lic_image_loop_unfold.
  destruct (Rle_dec _ _) as [_ | Hn]; [| exfalso; apply Hn; simpl; lra].
  rewrite !E1, H1. cbn [bind].
  change (source_drw_has_alpha Samples.image_step_globals) with false. cbv iota.
  rewrite lic_image_loop_unfold.
  destruct (Rle_dec _ _) as [Hle | _]; [exfalso; simpl in Hle; lra |].
  cbn [bind]. eauto.
Qed.

Lemma lic_image_is_a_color_witness :
  exists c,
    lic_image Samples.image_step_globals Examples.null_host 1
      (fun _ _ => Examples.gray) 0 0 0 0 = Some c /\ RGB.a c = 0.
Proof.
  destruct lic_image_witness_run as [c Hc]. exists c. split; [exact Hc |].
  apply (lic_image_is_a_color Samples.image_step_globals Examples.null_host 1
           (fun _ _ => Examples.gray) 0 0 0 0 c Hc).
  reflexivity.
Defined.

End ImageFacts.

Section SingleStep.
Local Open Scope R_scope.

Lemma rgb_eq c1 c2 :
  RGB.r c1 = RGB.r c2 -> RGB.g c1 = RGB.g c2 -> RGB.b c1 = RGB.b c2 ->
  RGB.a c1 = RGB.a c2 -> c1 = c2.
Proof. destruct c1, c2. simpl. intros -> -> -> ->. reflexivity. Qed.

Lemma lic_image_single_step gl h fuel buffer x y vx vy c1 c2 :
  isteps gl = 1 -> 0 < l gl ->
  getpixel gl h buffer (IZR x + l gl * vx) (IZR y + l gl * vy) = Some c1 ->
  getpixel gl h buffer (IZR x - l gl * vx) (IZR y - l gl * vy) = Some c2 ->
  (1 <= fuel)%nat ->
  lic_image gl h fuel buffer x y vx vy = Some (RGB.mk 0 0 0 0).
Proof.
  intros Hs Hl H1 H2 Hfuel.
  destruct (filter_at_ends gl Hl) as [Fm Fp].
  unfold lic_image. rewrite H1. cbn [bind].
  destruct fuel as [| fuel]; [lia |].
  assert (Eu : - l gl + 2 * l gl / isteps gl = l gl) by (rewrite Hs; field).
  rewrite Eu, lic_image_loop_unfold.
  destruct (Rle_dec (l gl) (l gl)) as [_ | Hn]; [| lra].
  rewrite H2. cbn [bind]. rewrite Fm, Fp.
  destruct (source_drw_has_alpha gl);
    rewrite lic_image_loop_unfold;
    (destruct (Rle_dec (l gl + 2 * l gl / isteps gl) (l gl)) as [Hle | _];
      [rewrite Hs in Hle; lra |]);
    cbn [bind]; f_equal; apply rgb_eq; cbn.
  all: try (replace (0 * (1 / l gl)) with 0 by ring; apply CLAMP_zero).
  all: match goal with
       | |- RGB.CLAMP ?e 0 1 = 0 =>
           replace e with 0 by (unfold Rdiv; ring); apply CLAMP_zero
       end.
Qed.

(** Property X10.  With [isteps = 1] and [l > 0], [lic_image] returns
    transparent black (0, 0, 0, 0) whatever the source image holds: both
    samples are weighted by [filter] at [-l] and [l], which is 0. *)
Theorem single_step_image_is_black gl h fuel buffer x y vx vy c1 c2 :
  isteps gl = 1 -> 0 < l gl ->
  getpixel gl h buffer (IZR x + l gl * vx) (IZR y + l gl * vy) = Some c1 ->
  getpixel gl h buffer (IZR x - l gl * vx) (IZR y - l gl * vy) = Some c2 ->
  (1 <= fuel)%nat ->
  lic_image gl h fuel buffer x y vx vy = Some (RGB.mk 0 0 0 0).
Proof. apply lic_image_single_step. Qed.

Lemma single_step_image_is_black_witness :
  lic_image Samples.image_step_globals Examples.null_host 1
    (fun _ _ => Examples.gray) 0 0 0 0 = Some (RGB.mk 0 0 0 0).
Proof.
  destruct (getpixel_defined Samples.image_step_globals Examples.null_host
              (fun _ _ => Examples.gray) (IZR 0) (IZR 0) 0 0) as [c1 H1];
    try (apply gint_of_gdouble_IZR; unfold Gint.in_range, Gint.INT_MIN, Gint.INT_MAX; lia);
    try discriminate.
  apply (single_step_image_is_black Samples.image_step_globals Examples.null_host 1
           (fun _ _ => Examples.gray) 0 0 0 0 c1 c1).
  - reflexivity.
  - simpl; lra.
  - replace (IZR 0 + l Samples.image_step_globals * 0) with (IZR 0) by (simpl; ring).
    exact H1.
  - replace (IZR 0 - l Samples.image_step_globals * 0) with (IZR 0) by (simpl; ring).
    exact H1.
  - apply le_n.
Defined.

Lemma noise_at_origin gl t :
  noise gl (IZR 0 + t * 0) (IZR 0 + t * 0) = Some (noise_value gl 0 0) /\
  noise gl (IZR 0 - t * 0) (IZR 0 - t * 0) = Some (noise_value gl 0 0).
Proof.
  replace (IZR 0 + t * 0) with 0 by (simpl; ring).
  replace (IZR 0 - t * 0) with 0 by (simpl; ring).
  split; apply noise_eq; rewrite Int_part_0_div; apply cell_in_range_0.
Qed.

Lemma single_step_integral_vanishes_witness :
  lic_noise_integral Examples.unit_step_globals 1 0 0 0 0 = Some 0 /\
  lic_noise Examples.unit_step_globals 1 0 0 0 0
  = Some (RGB.CLAMP ((0 - minv Examples.unit_step_globals) /
                     (maxv Examples.unit_step_globals -
                      minv Examples.unit_step_globals)) 0 1 / 2 + 0.5).
Proof.
  apply (single_step_integral_vanishes Examples.unit_step_globals 1 0 0 0 0
           (noise_value Examples.unit_step_globals 0 0)
           (noise_value Examples.unit_step_globals 0 0)).
  - reflexivity.
  - simpl; lra.
  - apply (proj1 (noise_at_origin Examples.unit_step_globals _)).
  - apply (proj2 (noise_at_origin Examples.unit_step_globals _)).
  - apply le_n.
Defined.

Lemma negative_steps_never_return_witness :
  lic_noise Samples.backward_globals 1000 0 0 0 0 = None /\
  lic_image Samples.backward_globals Examples.null_host 1000
    (fun _ _ => Examples.gray) 0 0 0 0 = None.
Proof.
  apply (negative_steps_never_return Samples.backward_globals Examples.null_host
           1000 (fun _ _ => Examples.gray) 0 0 0 0); simpl; lra.
Defined.

End SingleStep.

(** ** The pixels [getpixel] reads *)

Section GetpixelFacts.
Local Open Scope Z_scope.

Lemma getpixel_wrap_eq z n :
  1 <= n <= Gint.INT_MAX -> Gint.INT_MIN < z <= Gint.INT_MAX ->
  (if z <? 0
   then m <- Gint.rem (Gint.neg z) n ;; Some (Gint.sub n m)
   else Gint.rem z n) = Some (getpixel_column z n).
Proof.
  unfold Gint.INT_MIN, Gint.INT_MAX. intros Hn Hz. unfold getpixel_column, Gint.rem.
  destruct (Z.eqb_spec n 0); [lia |].
  destruct (Z.ltb_spec z 0) as [Hneg | Hpos]; cbn [andb bind].
  - assert (En : Gint.neg z = - z).
    { apply wrap_small. unfold Gint.in_range, Gint.INT_MIN, Gint.INT_MAX. lia. }
    rewrite En, Z.rem_mod_nonneg by lia.
    pose proof (Z.mod_pos_bound (- z) n ltac:(lia)) as Hm.
    assert (Es : Gint.sub n ((- z) mod n) = n - (- z) mod n).
    { apply wrap_small. unfold Gint.in_range, Gint.INT_MIN, Gint.INT_MAX. lia. }
    rewrite Es. f_equal.
    destruct (Z.eqb_spec (z mod n) 0) as [E0 | E0].
    + rewrite Z.mod_opp_l_z by lia. lia.
    + rewrite Z.mod_opp_l_nz by lia. lia.
  - rewrite Z.rem_mod_nonneg by lia. reflexivity.
Qed.

Lemma getpixel_column_bounds z n :
  1 <= n -> 0 <= getpixel_column z n <= n /\
            (getpixel_column z n = n <-> z < 0 /\ z mod n = 0).
Proof.
  intros Hn. unfold getpixel_column.
  pose proof (Z.mod_pos_bound z n ltac:(lia)) as Hm.
  destruct (Z.ltb_spec z 0); destruct (Z.eqb_spec (z mod n) 0); cbn [andb];
    split; try lia; split; intros; lia.
Qed.

End GetpixelFacts.

Section GetpixelCorners.
Local Open Scope R_scope.

(** Property X11.  The four pixels [getpixel] interpolates.  With [a] and [b]
    the integer parts of [u] and [v], the first corner is the column
    [getpixel_column a border_w] and the row [getpixel_column b border_h],
    the other corners are one further modulo the size.  The first column lies
    in [[0, border_w]], and it is [border_w] itself, one past the last
    column, exactly when [a] is a negative multiple of [border_w]; the same
    holds for the rows. *)
Theorem getpixel_corners gl h buffer u v a b :
  (1 <= border_w gl < Gint.INT_MAX)%Z -> (1 <= border_h gl < Gint.INT_MAX)%Z ->
  gint_of_gdouble u = Some a -> gint_of_gdouble v = Some b ->
  (Gint.INT_MIN < a)%Z -> (Gint.INT_MIN < b)%Z ->
  let x1 := getpixel_column a (border_w gl) in
  let y1 := getpixel_column b (border_h gl) in
  let x2 := ((x1 + 1) mod border_w gl)%Z in
  let y2 := ((y1 + 1) mod border_h gl)%Z in
  getpixel gl h buffer u v
  = Some ((if source_drw_has_alpha gl then gimp_bilinear_rgba h
           else gimp_bilinear_rgb h) u v
            [buffer x1 y1; buffer x2 y1; buffer x1 y2; buffer x2 y2]) /\
  (0 <= x1 <= border_w gl)%Z /\ (0 <= y1 <= border_h gl)%Z /\
  (x1 = border_w gl <-> (a < 0 /\ a mod border_w gl = 0)%Z) /\
  (y1 = border_h gl <-> (b < 0 /\ b mod border_h gl = 0)%Z).
Proof.
  intros Hw Hh Hu Hv Ha Hb x1 y1 x2 y2.
  assert (Ra : (Gint.INT_MIN < a <= Gint.INT_MAX)%Z).
  { unfold gint_of_gdouble in Hu.
    destruct (_ && _)%bool eqn:E in Hu; [| discriminate]. injection Hu as <-.
    apply andb_prop in E. destruct E as [_ E2]. apply Z.leb_le in E2. lia. }
  assert (Rb : (Gint.INT_MIN < b <= Gint.INT_MAX)%Z).
  { unfold gint_of_gdouble in Hv.
    destruct (_ && _)%bool eqn:E in Hv; [| discriminate]. injection Hv as <-.
    apply andb_prop in E. destruct E as [_ E2]. apply Z.leb_le in E2. lia. }
  destruct (getpixel_column_bounds a (border_w gl) ltac:(lia)) as [Bx Ex].
  destruct (getpixel_column_bounds b (border_h gl) ltac:(lia)) as [By Ey].
  fold x1 in Bx, Ex. fold y1 in By, Ey.
  split; [| repeat split; try lia; try apply Ex; try apply Ey; tauto].
  unfold getpixel. rewrite Hu, Hv. cbn [bind].
  rewrite (getpixel_wrap_eq a (border_w gl)) by lia.
  rewrite (getpixel_wrap_eq b (border_h gl)) by lia.
  cbn [bind]. fold x1 y1.
  assert (Nx : Gint.rem (Gint.add x1 1) (border_w gl) = Some x2).
  { unfold Gint.rem. destruct (Z.eqb_spec (border_w gl) 0); [lia |].
    unfold Gint.add. rewrite wrap_small
      by (unfold Gint.in_range, Gint.INT_MIN, Gint.INT_MAX in *; lia).
    rewrite Z.rem_mod_nonneg by lia. reflexivity. }
  assert (Ny : Gint.rem (Gint.add y1 1) (border_h gl) = Some y2).
  { unfold Gint.rem. destruct (Z.eqb_spec (border_h gl) 0); [lia |].
    unfold Gint.add. rewrite wrap_small
      by (unfold Gint.in_range, Gint.INT_MIN, Gint.INT_MAX in *; lia).
    rewrite Z.rem_mod_nonneg by lia. reflexivity. }
  rewrite Nx, Ny. cbn [bind]. unfold peek.
  destruct (source_drw_has_alpha gl); reflexivity.
Qed.

Lemma getpixel_corners_witness :
  getpixel Samples.image_step_globals Examples.null_host
    (fun x y => RGB.mk (IZR x) (IZR y) 0 1) (IZR (-2)) (IZR 1)
  = Some (gimp_bilinear_rgb Examples.null_host (IZR (-2)) (IZR 1)
            [RGB.mk (IZR 2) (IZR 1) 0 1; RGB.mk (IZR 1) (IZR 1) 0 1;
             RGB.mk (IZR 2) (IZR 0) 0 1; RGB.mk (IZR 1) (IZR 0) 0 1]).
Proof.
  apply (getpixel_corners Samples.image_step_globals Examples.null_host
           (fun x y => RGB.mk (IZR x) (IZR y) 0 1) (IZR (-2)) (IZR 1) (-2) 1).
  - simpl; unfold Gint.INT_MAX; lia.
  - simpl; unfold Gint.INT_MAX; lia.
  - apply gint_of_gdouble_IZR. unfold Gint.in_range, Gint.INT_MIN, Gint.INT_MAX; lia.
  - apply gint_of_gdouble_IZR. unfold Gint.in_range, Gint.INT_MIN, Gint.INT_MAX; lia.
  - unfold Gint.INT_MIN; lia.
  - unfold Gint.INT_MIN; lia.
Defined.

End GetpixelCorners.

(** ** The range of the gradients and of the flow vector *)

Section GradientBounds.
Local Open Scope Z_scope.

Ltac small := unfold Gint.in_range, Gint.INT_MIN, Gint.INT_MAX; lia.

Lemma gradx_sum_small p1 p2 p3 p4 p5 p6 :
  0 <= p1 <= 255 -> 0 <= p2 <= 255 -> 0 <= p3 <= 255 ->
  0 <= p4 <= 255 -> 0 <= p5 <= 255 -> 0 <= p6 <= 255 ->
  Gint.sub (Gint.add (Gint.sub (Gint.add (Gint.sub (Gint.add 0 p1) p2)
    (Gint.mul 2 p3)) (Gint.mul 2 p4)) p5) p6
  = p1 - p2 + 2 * p3 - 2 * p4 + p5 - p6.
Proof.
  intros. unfold Gint.add, Gint.sub, Gint.mul.
  rewrite (wrap_small (0 + p1)) by small.
  rewrite (wrap_small (0 + p1 - p2)) by small.
  rewrite (wrap_small (2 * p3)) by small.
  rewrite (wrap_small (0 + p1 - p2 + 2 * p3)) by small.
  rewrite (wrap_small (2 * p4)) by small.
  rewrite (wrap_small (0 + p1 - p2 + 2 * p3 - 2 * p4)) by small.
  rewrite (wrap_small (0 + p1 - p2 + 2 * p3 - 2 * p4 + p5)) by small.
  rewrite (wrap_small (0 + p1 - p2 + 2 * p3 - 2 * p4 + p5 - p6)) by small.
  lia.
Qed.

Lemma grady_sum_small p1 p2 p3 p4 p5 p6 :
  0 <= p1 <= 255 -> 0 <= p2 <= 255 -> 0 <= p3 <= 255 ->
  0 <= p4 <= 255 -> 0 <= p5 <= 255 -> 0 <= p6 <= 255 ->
  Gint.sub (Gint.sub (Gint.sub (Gint.add (Gint.add (Gint.add 0 p1)
    (Gint.mul 2 p2)) p3) p4) (Gint.mul 2 p5)) p6
  = p1 + 2 * p2 + p3 - p4 - 2 * p5 - p6.
Proof.
  intros. unfold Gint.add, Gint.sub, Gint.mul.
  rewrite (wrap_small (0 + p1)) by small.
  rewrite (wrap_small (2 * p2)) by small.
  rewrite (wrap_small (0 + p1 + 2 * p2)) by small.
  rewrite (wrap_small (0 + p1 + 2 * p2 + p3)) by small.
  rewrite (wrap_small (0 + p1 + 2 * p2 + p3 - p4)) by small.
  rewrite (wrap_small (2 * p5)) by small.
  rewrite (wrap_small (0 + p1 + 2 * p2 + p3 - p4 - 2 * p5)) by small.
  rewrite (wrap_small (0 + p1 + 2 * p2 + p3 - p4 - 2 * p5 - p6)) by small.
  lia.
Qed.

(** Property X12.  Over a scalar field of bytes, of the size of the effect
    image, [gradx] and [grady] return at every point a value between -1020
    and 1020. *)
Theorem gradient_bounds gl image x y :
  1 <= effect_width gl -> 1 <= effect_height gl ->
  effect_width gl * effect_height gl <= Gint.INT_MAX ->
  Z.of_nat (length image) = effect_width gl * effect_height gl ->
  Forall (fun v => 0 <= v <= 255) image ->
  Gint.in_range x -> Gint.in_range y ->
  exists gx gy,
    gradx gl image x y = Some gx /\ grady gl image x y = Some gy /\
    -1020 <= gx <= 1020 /\ -1020 <= gy <= 1020.
Proof.
  intros Hw Hh Hwh Hlen Hbytes Hx Hy.
  assert (P : forall x' y', Gint.in_range x' -> Gint.in_range y' ->
            exists v, peekmap gl image x' y' = Some v /\ 0 <= v <= 255).
  { intros x' y' Hx' Hy'.
    destruct (peekmap_defined gl image x' y' Hw Hh Hwh Hlen Hx' Hy') as (v & Hv & Hin).
    exists v. split; [exact Hv |]. rewrite Forall_forall in Hbytes. auto. }
  pose proof (sub_in_range x 1) as Xm. pose proof (add_in_range x 1) as Xp.
  pose proof (sub_in_range y 1) as Ym. pose proof (add_in_range y 1) as Yp.
  destruct (P _ _ Xm Ym) as (a & Ea & Ha). destruct (P _ _ Xp Ym) as (b & Eb & Hb).
  destruct (P _ _ Xm Hy) as (c & Ec & Hc). destruct (P _ _ Xp Hy) as (d & Ed & Hd).
  destruct (P _ _ Xm Yp) as (e & Ee & He). destruct (P _ _ Xp Yp) as (f & Ef & Hf).
  destruct (P _ _ Hx Ym) as (t & Et & Ht). destruct (P _ _ Hx Yp) as (u & Eu & Hu).
  exists (a - b + 2 * c - 2 * d + e - f), (a + 2 * t + b - e - 2 * u - f).
  split; [| split].
  - unfold gradx. rewrite Ea, Eb, Ec, Ed, Ee, Ef. cbn [bind]. f_equal.
    now apply gradx_sum_small.
  - unfold grady. rewrite Ea, Et, Eb, Ee, Eu, Ef. cbn [bind]. f_equal.
    now apply grady_sum_small.
  - lia.
Qed.

Lemma gradient_bounds_witness :
  exists gx gy,
    gradx Examples.ramp_globals Examples.ramp 1 0 = Some gx /\
    grady Examples.ramp_globals Examples.ramp 1 0 = Some gy /\
    -1020 <= gx <= 1020 /\ -1020 <= gy <= 1020.
Proof.
  apply (gradient_bounds Examples.ramp_globals Examples.ramp 1 0).
  - simpl; lia.
  - simpl; lia.
  - simpl; unfold Gint.INT_MAX; lia.
  - reflexivity.
  - unfold Examples.ramp. repeat (apply Forall_cons; [lia |]). apply Forall_nil.
  - unfold Gint.in_range, Gint.INT_MIN, Gint.INT_MAX; lia.
  - unfold Gint.in_range, Gint.INT_MIN, Gint.INT_MAX; lia.
Defined.

End GradientBounds.

Section FlowFacts.
Local Open Scope R_scope.

Lemma normalize_unit vx vy :
  0.000001 <= sqrt (vx * vx + vy * vy) ->
  fst (normalize (vx, vy)) * fst (normalize (vx, vy)) +
  snd (normalize (vx, vy)) * snd (normalize (vx, vy)) = 1.
Proof.
  intros H. unfold normalize.
  destruct (Rge_dec _ _) as [_ | Hn]; [| lra]. cbn [fst snd].
  set (m := sqrt (vx * vx + vy * vy)) in *.
  assert (Hsq : m * m = vx * vx + vy * vy) by (unfold m; apply sqrt_sqrt; nra).
  replace (vx * (1 / m) * (vx * (1 / m)) + vy * (1 / m) * (vy * (1 / m)))
    with ((vx * vx + vy * vy) / (m * m)) by (field; lra).
  rewrite <- Hsq. field. lra.
Qed.

Lemma normalize_integer a b :
  normalize (IZR a, IZR b) = (0, 0) \/
  fst (normalize (IZR a, IZR b)) * fst (normalize (IZR a, IZR b)) +
  snd (normalize (IZR a, IZR b)) * snd (normalize (IZR a, IZR b)) = 1.
Proof.
  destruct (Z.eq_dec a 0) as [-> | Ha]; [destruct (Z.eq_dec b 0) as [-> | Hb] |].
  - left. unfold normalize. replace (IZR 0 * IZR 0 + IZR 0 * IZR 0) with 0 by (simpl; ring).
    rewrite sqrt_0. destruct (Rge_dec 0 0.000001); [lra | reflexivity].
  - right. apply normalize_unit.
    assert (1 <= IZR b * IZR b).
    { rewrite <- mult_IZR. apply IZR_le. nia. }
    apply Rle_trans with 1; [lra |]. rewrite <- sqrt_1. apply sqrt_le_1_alt.
    simpl. nra.
  - right. apply normalize_unit.
    assert (1 <= IZR a * IZR a).
    { rewrite <- mult_IZR. apply IZR_le. nia. }
    apply Rle_trans with 1; [lra |]. rewrite <- sqrt_1. apply sqrt_le_1_alt.
    pose proof (Rle_0_sqr (IZR b)) as Hb. unfold Rsqr in Hb. lra.
Qed.

(** Property X13.  The vector handed to the convolver is (0, 0) or has
    length 1, with or without the rotation: a gradient of integers that is
    shorter than [1e-6] is zero. *)
Theorem flow_vector_unit_or_zero gl scalarfield rotate xcount ycount v :
  flow_vector gl scalarfield rotate xcount ycount = Some v ->
  v = (0, 0) \/ fst v * fst v + snd v * snd v = 1.
Proof.
  unfold flow_vector.
  destruct (gradx gl scalarfield xcount ycount) as [gx |]; [| discriminate].
  destruct (grady gl scalarfield xcount ycount) as [gy |]; [| discriminate].
  cbn [bind]. intros H. injection H as <-.
  destruct (rotate =? 0)%Z.
  - apply normalize_integer.
  - unfold rotate90. rewrite <- opp_IZR. apply normalize_integer.
Qed.

Lemma flow_vector_unit_or_zero_witness :
  normalize (IZR (-8), IZR 0) = (0, 0) \/
  fst (normalize (IZR (-8), IZR 0)) * fst (normalize (IZR (-8), IZR 0)) +
  snd (normalize (IZR (-8), IZR 0)) * snd (normalize (IZR (-8), IZR 0)) = 1.
Proof.
  apply (flow_vector_unit_or_zero Examples.ramp_globals Examples.ramp 0 1 0).
  unfold flow_vector. destruct ramp_gradient as [-> ->]. reflexivity.
Defined.

End FlowFacts.

(** ** What [compute_lic] writes *)

Section LoopFacts.

Lemma foldM_invariant {A S : Type} (P : S -> Prop) (body : S -> A -> option S) xs :
  (forall s x s', In x xs -> P s -> body s x = Some s' -> P s') ->
  forall s s', P s -> foldM body xs s = Some s' -> P s'.
Proof.
  induction xs as [| x xs IH]; intros Hb s s' Hs; simpl.
  - intros H. injection H as <-. exact Hs.
  - destruct (body s x) as [s1 |] eqn:E; [| discriminate]. cbn [bind].
    apply IH.
    + intros s0 x0 s0' Hin. apply Hb. now right.
    + eapply Hb; [now left | exact Hs | exact E].
Qed.

Lemma in_for_lt x n : In x (for_lt n) <-> (0 <= x < n)%Z.
Proof.
  unfold for_lt. rewrite in_map_iff. split.
  - intros (k & <- & Hk). apply in_seq in Hk. lia.
  - intros Hx. exists (Z.to_nat x). split; [lia |]. apply in_seq. lia.
Qed.

Lemma poke_other buffer x y color x' y' :
  (x' <> x \/ y' <> y)%Z -> poke buffer x y color x' y' = buffer x' y'.
Proof.
  intros H. unfold poke.
  destruct (Z.eqb_spec x' x); destruct (Z.eqb_spec y' y); cbn [andb];
    try reflexivity. lia.
Qed.

End LoopFacts.

Section ComputeLic.
Local Open Scope R_scope.

Variable h : Host.
Variable gl : Globals.
Variable fuel : nat.
Variable drawable : Drawable.
Variable scalarfield : list Z.
Variable rotate : Z.

Local Abbreviation row_body :=
  (fun (st : World * GeglBuffer) (ycount : Z) =>
    let '(w, dest_buffer) := st in
    dest_buffer <- foldM (fun dest_buffer xcount =>
        v <- flow_vector gl scalarfield rotate xcount ycount ;;
        color <- lic_pixel h gl fuel (drw_buffer drawable) xcount ycount v ;;
        Some (poke dest_buffer xcount ycount color))
      (for_lt (border_w gl)) dest_buffer ;;
    Some (gimp_progress_update w (IZR ycount / IZR (border_h gl)),
          dest_buffer)).

Lemma rows_progress ys :
  forall w dest w' dest',
    foldM row_body ys (w, dest) = Some (w', dest') ->
    progress w' = rev (map (fun y => IZR y / IZR (border_h gl)) ys) ++ progress w /\
    items w' = items w /\ plugin_data w' = plugin_data w /\
    displays_flushed w' = displays_flushed w.
Proof.
  induction ys as [| y ys IH]; intros w dest w' dest'; simpl.
  - intros H. injection H as <- <-. auto.
  - destruct (foldM _ (for_lt (border_w gl)) dest) as [d1 |]; [| discriminate].
    cbn [bind]. intros H. apply IH in H. destruct H as (Hp & Hi & Hd & Hf).
    cbn in Hp, Hi, Hd, Hf. rewrite Hp, <- app_assoc. auto.
Qed.

Lemma rows_footprint ys :
  forall w dest w' dest',
    foldM row_body ys (w, dest) = Some (w', dest') ->
    forall x y, ~ ((0 <= x < border_w gl)%Z /\ In y ys) -> dest' x y = dest x y.
Proof.
  induction ys as [| y0 ys IH]; intros w dest w' dest'; simpl.
  - intros H. injection H as <- <-. reflexivity.
  - destruct (foldM _ (for_lt (border_w gl)) dest) as [d1 |] eqn:E; [| discriminate].
    cbn [bind]. intros H x y Hout.
    rewrite (IH _ _ _ _ H x y) by (intros [Hx Hy]; apply Hout; auto).
    revert E. apply (foldM_invariant (fun d : GeglBuffer => d x y = dest x y));
      [| reflexivity].
    intros d xc d' Hin Hd.
    destruct (flow_vector gl scalarfield rotate xc y0); [| discriminate].
    cbn [bind]. destruct (lic_pixel _ _ _ _ _ _ _); [| discriminate].
    cbn [bind]. intros Hs. injection Hs as <-.
    rewrite poke_other; [exact Hd |].
    apply in_for_lt in Hin.
    destruct (Z.eq_dec x xc) as [-> | ]; [| auto].
    destruct (Z.eq_dec y y0) as [-> | ]; [| auto].
    exfalso. apply Hout. auto.
Qed.

Lemma compute_lic_keeps_world w w' dest :
  compute_lic h gl fuel w drawable scalarfield rotate = Some (w', dest) ->
  items w' = items w /\ plugin_data w' = plugin_data w /\
  displays_flushed w' = displays_flushed w.
Proof.
  unfold compute_lic.
  destruct (foldM _ (for_lt (border_h gl)) (w, drw_shadow drawable))
    as [[w1 d1] |] eqn:E; [| discriminate].
  cbn [bind]. intros H. injection H as <- <-.
  destruct (rows_progress _ _ _ _ _ E) as (_ & Hi & Hd & Hf). cbn. auto.
Qed.

Lemma compute_lic_footprint w w' dest :
  compute_lic h gl fuel w drawable scalarfield rotate = Some (w', dest) ->
  forall x y, ~ ((0 <= x < border_w gl)%Z /\ (0 <= y < border_h gl)%Z) ->
    dest x y = drw_shadow drawable x y.
Proof.
  unfold compute_lic.
  destruct (foldM _ (for_lt (border_h gl)) (w, drw_shadow drawable))
    as [[w1 d1] |] eqn:E; [| discriminate].
  cbn [bind]. intros H. injection H as <- <-.
  intros x y Hout. apply (rows_footprint _ _ _ _ _ E).
  intros [Hx Hy]. apply in_for_lt in Hy. auto.
Qed.

(** Property X15.  What [compute_lic] changes.  The buffer it produces equals
    the shadow buffer outside [[0, border_w) x [0, border_h)]; the progress
    is updated with [y / border_h] after each row and with 1 at the end;
    the items, the stored data and the displays are left alone. *)
Theorem compute_lic_effects w w' dest :
  compute_lic h gl fuel w drawable scalarfield rotate = Some (w', dest) ->
  (forall x y, ~ ((0 <= x < border_w gl)%Z /\ (0 <= y < border_h gl)%Z) ->
     dest x y = drw_shadow drawable x y) /\
  progress w'
  = 1 :: rev (map (fun y => IZR y / IZR (border_h gl)) (for_lt (border_h gl)))
      ++ progress w /\
  items w' = items w /\ plugin_data w' = plugin_data w /\
  displays_flushed w' = displays_flushed w.
Proof.
  unfold compute_lic.
  destruct (foldM _ (for_lt (border_h gl)) (w, drw_shadow drawable))
    as [[w1 d1] |] eqn:E; [| discriminate].
  cbn [bind]. intros H. injection H as <- <-.
  destruct (rows_progress _ _ _ _ _ E) as (Hp & Hi & Hd & Hf).
  split.
  - intros x y Hout. apply (rows_footprint _ _ _ _ _ E).
    intros [Hx Hy]. apply in_for_lt in Hy. auto.
  - cbn. rewrite Hp. auto.
Qed.

End ComputeLic.

(** ** The layout of the scalar field *)

Section StoreFacts.

Lemma store_some themap index v :
  (index < length themap)%nat ->
  exists m, store themap index v = Some m /\ length m = length themap /\
            nth_error m index = Some v /\
            (forall k, k <> index -> nth_error m k = nth_error themap k).
Proof.
  intros Hi. unfold store.
  destruct (Nat.ltb_spec index (length themap)) as [_ | H]; [| lia].
  eexists. split; [reflexivity |].
  assert (Lf : length (firstn index themap) = index)
    by (rewrite length_firstn; lia).
  split; [| split].
  - rewrite length_app, Lf. cbn [length]. rewrite length_skipn. lia.
  - rewrite nth_error_app2 by lia. rewrite Lf, Nat.sub_diag. reflexivity.
  - intros k Hk. destruct (Nat.lt_ge_cases k index) as [Hlt | Hge].
    + rewrite nth_error_app1 by lia. rewrite nth_error_firstn.
      destruct (Nat.ltb_spec k index); [reflexivity | lia].
    + rewrite nth_error_app2 by lia. rewrite Lf.
      destruct (k - index)%nat as [| d] eqn:Ed; [lia |].
      cbn [nth_error]. rewrite nth_error_skipn. f_equal. lia.
Qed.

Lemma store_none themap index v :
  (length themap <= index)%nat -> store themap index v = None.
Proof.
  intros Hi. unfold store.
  destruct (Nat.ltb_spec index (length themap)); [lia | reflexivity].
Qed.

Lemma foldM_cons {A S : Type} (body : S -> A -> option S) x xs s :
  foldM body (x :: xs) s = (s' <- body s x ;; foldM body xs s').
Proof. reflexivity. Qed.

Lemma bind_some_intro {A B : Type} (m : option A) a (k : A -> option B) r :
  m = Some a -> k a = r -> bind m k = r.
Proof. intros -> <-. reflexivity. Qed.

Lemma bind_none_intro {A B : Type} (m : option A) (k : A -> option B) :
  m = None -> bind m k = None.
Proof. intros ->. reflexivity. Qed.

End StoreFacts.

Section ScalarFieldLayout.

Variable h : Host.
Variable d : Drawable.
Variable channel : LICEffectChannel.

Local Abbreviation pixel_body y :=
  (fun (st : list Z * nat) (x : Z) =>
    let '(themap, index) := st in
    d' <- Some d ;;
    let v := scalar_value h channel (drw_buffer d' x y) index in
    themap <- store themap index v ;;
    Some (themap, S index)).

Lemma row_fill y nw :
  forall a m idx,
    ((idx + nw <= length m)%nat ->
     exists m',
       foldM (pixel_body y) (map Z.of_nat (seq a nw)) (m, idx)
       = Some (m', (idx + nw)%nat) /\
       length m' = length m /\
       (forall k, (k < idx \/ idx + nw <= k)%nat ->
          nth_error m' k = nth_error m k) /\
       (forall j, (j < nw)%nat ->
          nth_error m' (idx + j)
          = Some (scalar_value h channel
                    (drw_buffer d (Z.of_nat (a + j)) y) (idx + j)))) /\
    ((idx <= length m < idx + nw)%nat ->
     foldM (pixel_body y) (map Z.of_nat (seq a nw)) (m, idx) = None).
Proof.
  induction nw as [| nw IH]; intros a m idx.
  - split; [| lia]. intros _. exists m. rewrite Nat.add_0_r.
    repeat split; auto. intros j Hj. lia.
  - cbn [seq map]. rewrite foldM_cons. split.
    + intros Hlen.
      destruct (store_some m idx
                  (scalar_value h channel (drw_buffer d (Z.of_nat a) y) idx))
        as (m1 & Hs & Hl1 & Hn1 & Ho1); [lia |].
      destruct (IH (S a) m1 (S idx)) as [Hok _].
      destruct Hok as (m' & Hf & Hl & Hout & Hin); [lia |].
      exists m'. split.
      { eapply bind_some_intro.
        - cbn [bind]. rewrite Hs. reflexivity.
        - transitivity (Some (m', (S idx + nw)%nat)); [exact Hf |].
          f_equal. f_equal. lia. }
      split; [lia |]. split.
      * intros k Hk. rewrite Hout by lia. apply Ho1. lia.
      * intros j Hj. destruct j as [| j].
        -- rewrite !Nat.add_0_r. rewrite Hout by lia. exact Hn1.
        -- replace (idx + S j)%nat with (S idx + j)%nat by lia.
           replace (a + S j)%nat with (S a + j)%nat by lia.
           apply Hin. lia.
    + intros Hlen.
      destruct (Nat.lt_ge_cases idx (length m)) as [Hlt | Hge].
      * destruct (store_some m idx
                    (scalar_value h channel (drw_buffer d (Z.of_nat a) y) idx))
          as (m1 & Hs & Hl1 & _); [exact Hlt |].
        eapply bind_some_intro.
        -- cbn [bind]. rewrite Hs. reflexivity.
        -- destruct (IH (S a) m1 (S idx)) as [_ Hbad]. apply Hbad. lia.
      * apply bind_none_intro. cbn [bind].
        rewrite store_none by exact Hge. reflexivity.
Qed.

Lemma rows_fill nw nh :
  forall b m idx,
    ((idx + nh * nw <= length m)%nat ->
     exists m',
       foldM (fun st y => foldM (pixel_body y) (map Z.of_nat (seq 0 nw)) st)
         (map Z.of_nat (seq b nh)) (m, idx)
       = Some (m', (idx + nh * nw)%nat) /\
       length m' = length m /\
       (forall k, (k < idx \/ idx + nh * nw <= k)%nat ->
          nth_error m' k = nth_error m k) /\
       (forall r j, (r < nh)%nat -> (j < nw)%nat ->
          nth_error m' (idx + r * nw + j)
          = Some (scalar_value h channel
                    (drw_buffer d (Z.of_nat j) (Z.of_nat (b + r)))
                    (idx + r * nw + j)))) /\
    ((idx <= length m < idx + nh * nw)%nat ->
     foldM (fun st y => foldM (pixel_body y) (map Z.of_nat (seq 0 nw)) st)
       (map Z.of_nat (seq b nh)) (m, idx) = None).
Proof.
  induction nh as [| nh IH]; intros b m idx.
  - split; [| cbn; lia]. intros _. exists m. cbn [Nat.mul]. rewrite Nat.add_0_r.
    repeat split; auto. intros r j Hr. lia.
  - cbn [seq map]. rewrite foldM_cons. split.
    + intros Hlen. cbn [Nat.mul] in Hlen.
      destruct (row_fill (Z.of_nat b) nw 0 m idx) as [Hok _].
      destruct Hok as (m1 & Hf1 & Hl1 & Hout1 & Hin1); [lia |].
      destruct (IH (S b) m1 (idx + nw)%nat) as [Hok _].
      destruct Hok as (m' & Hf & Hl & Hout & Hin); [lia |].
      exists m'. split.
      { eapply bind_some_intro; [exact Hf1 |].
        transitivity (Some (m', (idx + nw + nh * nw)%nat)); [exact Hf |].
        f_equal. f_equal. cbn [Nat.mul]. lia. }
      split; [lia |]. split.
      * intros k Hk. cbn [Nat.mul] in Hk. rewrite Hout by lia. apply Hout1. lia.
      * intros r j Hr Hj. destruct r as [| r].
        -- cbn [Nat.mul]. rewrite !Nat.add_0_r. rewrite Hout by nia.
           rewrite Hin1 by exact Hj. reflexivity.
        -- replace (idx + S r * nw + j)%nat with (idx + nw + r * nw + j)%nat
             by (cbn [Nat.mul]; lia).
           replace (b + S r)%nat with (S b + r)%nat by lia.
           apply Hin; lia.
    + intros Hlen. cbn [Nat.mul] in Hlen.
      destruct (Nat.le_gt_cases (idx + nw) (length m)) as [Hle | Hgt].
      * destruct (row_fill (Z.of_nat b) nw 0 m idx) as [Hok _].
        destruct Hok as (m1 & Hf1 & Hl1 & _); [exact Hle |].
        eapply bind_some_intro; [exact Hf1 |].
        destruct (IH (S b) m1 (idx + nw)%nat) as [_ Hbad]. apply Hbad. lia.
      * destruct (row_fill (Z.of_nat b) nw 0 m idx) as [_ Hbad].
        apply bind_none_intro. apply Hbad. lia.
Qed.

Lemma rgb_to_hsl_fill gl :
  let L := Z.to_nat (Gint.mul (drw_width d) (drw_height d)) in
  let nw := Z.to_nat (border_w gl) in
  let nh := Z.to_nat (border_h gl) in
  ((nh * nw <= L)%nat ->
   exists m,
     rgb_to_hsl h gl (Some d) channel = Some m /\ length m = L /\
     (forall x y, (x < nw)%nat -> (y < nh)%nat ->
        nth_error m (y * nw + x)
        = Some (scalar_value h channel
                  (drw_buffer d (Z.of_nat x) (Z.of_nat y)) (y * nw + x))) /\
     (forall k, (nh * nw <= k < L)%nat ->
        nth_error m k = Some (g_new_contents h k))) /\
  ((L < nh * nw)%nat -> rgb_to_hsl h gl (Some d) channel = None).
Proof.
  intros L nw nh. unfold rgb_to_hsl. cbn [gimp_drawable_get_width gimp_drawable_get_height].
  fold L. unfold for_lt. fold nw nh.
  set (m0 := map (g_new_contents h) (seq 0 L)).
  assert (L0 : length m0 = L) by (unfold m0; rewrite length_map, length_seq; reflexivity).
  split.
  - intros Hfit.
    destruct (rows_fill nw nh 0 m0 0) as [Hok _].
    destruct Hok as (m & Hf & Hl & Hout & Hin); [lia |].
    exists m. split; [| split; [lia | split]].
    + eapply bind_some_intro; [exact Hf | reflexivity].
    + intros x y Hx Hy. apply (Hin y x Hy Hx).
    + intros k Hk. rewrite Hout by lia. unfold m0.
      rewrite nth_error_map, nth_error_seq.
      destruct (Nat.ltb_spec k L); [reflexivity | lia].
  - intros Hbig.
    destruct (rows_fill nw nh 0 m0 0) as [_ Hbad].
    apply bind_none_intro. apply Hbad. lia.
Qed.

End ScalarFieldLayout.

(** ** Runs that compute nothing *)

Section RunFacts.
Local Open Scope R_scope.

Lemma compute_image_unselected h fuel w gl id d :
  items w id = Some d -> drw_mask_intersect d = None ->
  compute_image h fuel w gl id = Some (w, gl).
Proof.
  intros Hd Hm. unfold compute_image. rewrite Hd. cbn [bind]. rewrite Hm. reflexivity.
Qed.

(** Property X18.  Runs of [lic_run] on one RGB drawable that change nothing:
    a non-interactive run reports success without computing; a run with the
    last values on an empty selection reports success; an interactive run
    whose dialog is cancelled reports a cancellation. *)
Theorem runs_that_leave_the_image_alone h fuel w gl id d :
  items w id = Some d -> drw_is_rgb d = true ->
  lic_run h fuel GIMP_RUN_NONINTERACTIVE 1 [id] w gl
  = Some (GIMP_PDB_SUCCESS, w, retrieve_data w gl) /\
  (drw_mask_intersect d = None ->
   lic_run h fuel GIMP_RUN_WITH_LAST_VALS 1 [id] w gl
   = Some (GIMP_PDB_SUCCESS, w, retrieve_data w gl)) /\
  (fst (create_main_dialog h (licvals (retrieve_data w gl))) = false ->
   exists gl',
     lic_run h fuel GIMP_RUN_INTERACTIVE 1 [id] w gl
     = Some (GIMP_PDB_CANCEL, w, gl')).
Proof.
  intros Hd Hrgb. unfold lic_run. cbn [Z.eqb negb nth_error bind].
  rewrite Hd. cbn [bind]. rewrite Hrgb.
  split; [reflexivity |]. split.
  - intros Hm. rewrite (compute_image_unselected h fuel w _ id d Hd Hm). reflexivity.
  - intros Hc. destruct (create_main_dialog h _) as [run vals].
    cbn [fst] in Hc. subst run. eexists. reflexivity.
Qed.

Lemma runs_that_leave_the_image_alone_witness :
  lic_run Samples.cancelling_host 0 GIMP_RUN_NONINTERACTIVE 1 [3]%Z
    Samples.idle_world Examples.initial_globals
  = Some (GIMP_PDB_SUCCESS, Samples.idle_world,
          retrieve_data Samples.idle_world Examples.initial_globals) /\
  lic_run Samples.cancelling_host 0 GIMP_RUN_WITH_LAST_VALS 1 [3]%Z
    Samples.idle_world Examples.initial_globals
  = Some (GIMP_PDB_SUCCESS, Samples.idle_world,
          retrieve_data Samples.idle_world Examples.initial_globals) /\
  exists gl',
    lic_run Samples.cancelling_host 0 GIMP_RUN_INTERACTIVE 1 [3]%Z
      Samples.idle_world Examples.initial_globals
    = Some (GIMP_PDB_CANCEL, Samples.idle_world, gl').
Proof.
  destruct (runs_that_leave_the_image_alone Samples.cancelling_host 0
              Samples.idle_world Examples.initial_globals 3 Samples.unselected_dot)
    as (H1 & H2 & H3); try reflexivity.
  split; [exact H1 |]. split; [apply H2; reflexivity | apply H3; reflexivity].
Defined.


End RunFacts.

(** ** A run on an image of one pixel *)

Section DotRun.
Local Open Scope R_scope.

(** On a 1 x 1 scalar field every tap reads the same byte. *)
Lemma dot_gradient gl v :
  effect_width gl = 1%Z -> effect_height gl = 1%Z ->
  gradx gl [v] 0 0 = Some 0%Z /\ grady gl [v] 0 0 = Some 0%Z.
Proof.
  intros Hw Hh.
  assert (P : forall x y, Gint.in_range x -> Gint.in_range y ->
                          peekmap gl [v] x y = Some v).
  { intros x y Hx Hy. apply peekmap_constant; rewrite ?Hw, ?Hh; try assumption;
      try reflexivity; try (unfold Gint.INT_MAX; lia).
    apply Forall_cons; [reflexivity | apply Forall_nil]. }
  assert (R0 : Gint.in_range 0) by (unfold Gint.in_range, Gint.INT_MIN, Gint.INT_MAX; lia).
  split.
  - unfold gradx. rewrite !P by (auto using sub_in_range, add_in_range).
    cbn [bind]. f_equal. apply gradx_sum_cancels.
  - unfold grady. rewrite !P by (auto using sub_in_range, add_in_range).
    cbn [bind]. f_equal. apply grady_sum_cancels.
Qed.

Lemma normalize_zero_pair a b : a = 0 -> b = 0 -> normalize (a, b) = (0, 0).
Proof.
  intros -> ->. unfold normalize. replace (0 * 0 + 0 * 0) with 0 by ring.
  rewrite sqrt_0. destruct (Rge_dec 0 0.000001); [lra | reflexivity].
Qed.

Lemma dot_flow gl v rotate :
  effect_width gl = 1%Z -> effect_height gl = 1%Z ->
  flow_vector gl [v] rotate 0 0 = Some (0, 0).
Proof.
  intros Hw Hh. destruct (dot_gradient gl v Hw Hh) as [Hx Hy].
  unfold flow_vector. rewrite Hx, Hy. cbn [bind]. f_equal.
  destruct (rotate =? 0)%Z; [| unfold rotate90]; apply normalize_zero_pair;
    simpl; ring.
Qed.

Lemma dot_pixel gl h fuel buffer :
  isteps gl = 1 -> 0 < l gl -> (1 <= fuel)%nat ->
  border_w gl <> 0%Z -> border_h gl <> 0%Z ->
  effect_convolve (licvals gl) = 1%Z ->
  lic_pixel h gl fuel buffer 0 0 (0, 0) = Some (RGB.mk 0 0 0 0).
Proof.
  intros Hs Hl Hfuel Hw Hh Hc. unfold lic_pixel. rewrite Hc. cbn [Z.eqb].
  destruct (getpixel_defined gl h buffer (IZR 0) (IZR 0) 0 0) as [c Hg];
    try (apply gint_of_gdouble_IZR; unfold Gint.in_range, Gint.INT_MIN, Gint.INT_MAX; lia);
    try assumption.
  apply (lic_image_single_step gl h fuel buffer 0 0 0 0 c c); try assumption.
  - replace (IZR 0 + l gl * 0) with (IZR 0) by (simpl; ring). exact Hg.
  - replace (IZR 0 - l gl * 0) with (IZR 0) by (simpl; ring). exact Hg.
Qed.

Lemma dot_compute_lic gl h fuel w drawable v rotate :
  isteps gl = 1 -> 0 < l gl -> (1 <= fuel)%nat ->
  border_w gl = 1%Z -> border_h gl = 1%Z ->
  effect_width gl = 1%Z -> effect_height gl = 1%Z ->
  effect_convolve (licvals gl) = 1%Z ->
  compute_lic h gl fuel w drawable [v] rotate
  = Some (gimp_progress_update
            (gimp_progress_update w (IZR 0 / IZR (border_h gl))) 1,
          poke (drw_shadow drawable) 0 0 (RGB.mk 0 0 0 0)).
Proof.
  intros Hs Hl Hfuel Hbw Hbh Hw Hh Hc. unfold compute_lic.
  rewrite Hbw, Hbh. unfold for_lt. change (Z.to_nat 1) with 1%nat.
  cbn [seq map Z.of_nat foldM bind].
  rewrite (dot_flow gl v rotate Hw Hh). cbn [bind].
  rewrite (dot_pixel gl h fuel (drw_buffer drawable))
    by (rewrite ?Hbw, ?Hbh; auto; discriminate).
  reflexivity.
Qed.

End DotRun.

Section DotImage.
Local Open Scope R_scope.

(** A run over a single selected pixel, in image mode with one integration
    step and a 1 x 1 effect image, completes. *)
Lemma dot_compute_image h fuel w gl id d e bx by_ :
  items w id = Some d ->
  drw_mask_intersect d = Some (bx, by_, 1, 1)%Z ->
  effect_convolve (licvals gl) = 1%Z ->
  intsteps (licvals gl) = 1 ->
  0.1 <= filtlen (licvals gl) ->
  effect_channel (licvals gl) = 2%Z ->
  items w (effect_image_id (licvals gl)) = Some e ->
  drw_width e = 1%Z -> drw_height e = 1%Z ->
  (1 <= fuel)%nat ->
  exists w' gl',
    compute_image h fuel w gl id = Some (w', gl') /\ licvals gl' = licvals gl.
Proof.
  intros Hd Hm Hc Hs Hf Hch He Hew Heh Hfuel.
  unfold compute_image. rewrite Hd. cbn [bind]. rewrite Hm.
  set (gl1 := set_border gl bx by_ 1 1).
  assert (E1 : (effect_convolve (licvals gl1) =? 0)%Z = false)
    by (unfold gl1; cbn; rewrite Hc; reflexivity).
  rewrite E1.
  destruct (Rlt_dec (filtlen (licvals gl1)) 0.1) as [Hlt | _];
    [unfold gl1 in Hlt; cbn in Hlt; lra |].
  set (gl4 := set_parameters gl1 _ _ _ _ _ _).
  set (gl5 := set_source_drw_has_alpha gl4 _).
  assert (Ee : effect_image_of w gl5 = Some e).
  { unfold effect_image_of, gimp_drawable_get_by_id, gl5, gl4, gl1. cbn. exact He. }
  rewrite Ee. cbn [gimp_drawable_get_width gimp_drawable_get_height].
  rewrite Hew, Heh.
  set (gl6 := set_effect_size gl5 1 1).
  assert (Ech : effect_channel (licvals gl6) = 2%Z)
    by (unfold gl6, gl5, gl4, gl1; cbn; exact Hch).
  rewrite Ech. cbn [Z.eqb Pos.eqb].
  destruct (rgb_to_hsl_fill h e LIC_BRIGHTNESS gl6) as [Hfill _].
  destruct Hfill as (m & Hm1 & Hlen & _).
  { rewrite Hew, Heh. unfold gl6, gl5, gl4, gl1. cbn. lia. }
  rewrite Hew, Heh in Hlen. cbn in Hlen.
  destruct m as [| v [| ? ?]]; try discriminate.
  rewrite Hm1. cbn [bind].
  rewrite dot_compute_lic; try assumption; try reflexivity.
  all: try (unfold gl6, gl5, gl4, gl1; cbn; first [exact Hs | exact Hc | lra]).
  cbn [bind]. eexists. eexists. split; reflexivity.
Qed.


End DotImage.

(** ** What [compute_image] leaves behind *)

Section ImageRun.
Local Open Scope R_scope.

Lemma studio_compute_image :
  exists w' gl',
    compute_image Examples.null_host 1 Samples.studio_world
      (retrieve_data Samples.studio_world Examples.initial_globals) 1
    = Some (w', gl').
Proof.
  destruct (dot_compute_image Examples.null_host 1 Samples.studio_world
              (retrieve_data Samples.studio_world Examples.initial_globals)
              1 Examples.dot Examples.dot 0 0) as (w' & gl' & Hrun & _);
    try reflexivity; try (cbn; lra); try apply le_n.
  eauto.
Qed.

Lemma compute_image_globals h fuel w gl id d bx by_ bw bh w' gl' :
  items w id = Some d ->
  drw_mask_intersect d = Some (bx, by_, bw, bh) ->
  compute_image h fuel w gl id = Some (w', gl') ->
  l gl' = Rmax (filtlen (licvals gl)) 0.1 /\
  licvals gl' = set_filtlen (licvals gl) (Rmax (filtlen (licvals gl)) 0.1) /\
  dx gl' = noisemag (licvals gl) /\ dy gl' = noisemag (licvals gl) /\
  minv gl' = lv_minv (licvals gl) / 10 /\ maxv gl' = lv_maxv (licvals gl) / 10 /\
  isteps gl' = intsteps (licvals gl) /\
  source_drw_has_alpha gl' = drw_has_alpha d /\
  (border_x gl', border_y gl', border_w gl', border_h gl') = (bx, by_, bw, bh) /\
  effect_width gl' = gimp_drawable_get_width (effect_image_of w gl) /\
  effect_height gl' = gimp_drawable_get_height (effect_image_of w gl) /\
  exists scalarfield w1 dest,
    compute_lic h gl' fuel w d scalarfield (effect_operator (licvals gl'))
    = Some (w1, dest) /\
    w' = gimp_displays_flush
           (set_item w1 id (gimp_drawable_merge_shadow d dest)).
Proof.
  intros Hd Hm. unfold compute_image. rewrite Hd. cbn [bind]. rewrite Hm.
  set (gl1 := set_border gl bx by_ bw bh).
  set (gl2 := if (effect_convolve (licvals gl1) =? 0)%Z
              then set_G gl1 (generatevectors gl1 h) else gl1).
  set (gl3 := if Rlt_dec (filtlen (licvals gl2)) 0.1
              then set_licvals gl2 (set_filtlen (licvals gl2) 0.1) else gl2).
  set (gl4 := set_parameters gl3 _ _ _ _ _ _).
  set (gl5 := set_source_drw_has_alpha gl4 _).
  set (gl6 := set_effect_size gl5 _ _).
  assert (E : l gl6 = Rmax (filtlen (licvals gl)) 0.1 /\
    licvals gl6 = set_filtlen (licvals gl) (Rmax (filtlen (licvals gl)) 0.1) /\
    dx gl6 = noisemag (licvals gl) /\ dy gl6 = noisemag (licvals gl) /\
    minv gl6 = lv_minv (licvals gl) / 10 /\ maxv gl6 = lv_maxv (licvals gl) / 10 /\
    isteps gl6 = intsteps (licvals gl) /\
    source_drw_has_alpha gl6 = drw_has_alpha d /\
    (border_x gl6, border_y gl6, border_w gl6, border_h gl6) = (bx, by_, bw, bh) /\
    effect_width gl6 = gimp_drawable_get_width (effect_image_of w gl) /\
    effect_height gl6 = gimp_drawable_get_height (effect_image_of w gl)).
  { assert (A2 : licvals gl2 = licvals gl /\
                 (border_x gl2, border_y gl2, border_w gl2, border_h gl2)
                 = (bx, by_, bw, bh)).
    { unfold gl2, gl1. destruct (effect_convolve _ =? 0)%Z; cbn; auto. }
    destruct A2 as [A2 B2]. clearbody gl2.
    assert (A3 : licvals gl3
                 = set_filtlen (licvals gl) (Rmax (filtlen (licvals gl)) 0.1) /\
                 (border_x gl3, border_y gl3, border_w gl3, border_h gl3)
                 = (bx, by_, bw, bh)).
    { unfold gl3. rewrite A2.
      destruct (Rlt_dec (filtlen (licvals gl)) 0.1) as [Hlt | Hge].
      - rewrite Rmax_right by lra. cbn. split; [reflexivity | exact B2].
      - rewrite Rmax_left by lra. split; [| exact B2].
        rewrite A2. destruct (licvals gl); reflexivity. }
    destruct A3 as [A3 B3]. clearbody gl3.
    unfold gl6, gl5, gl4, effect_image_of. cbn. rewrite A3. cbn.
    injection B3 as -> -> -> ->. repeat split; reflexivity. }
  destruct (if (effect_channel (licvals gl6) =? 0)%Z then _ else _)
    as [scalarfield |]; [| discriminate].
  cbn [bind].
  destruct (compute_lic h gl6 fuel w d scalarfield _) as [[w1 dest] |] eqn:Ec;
    [| discriminate].
  cbn [bind]. intros H. injection H as <- <-.
  destruct E as (E1 & E2 & E3 & E4 & E5 & E6 & E7 & E8 & E9 & E10 & E11).
  repeat (split; [assumption |]).
  exists scalarfield, w1, dest. split; [exact Ec | reflexivity].
Qed.


(** Property X16.  The globals [compute_image] leaves, on a drawable with a
    non-empty selection: the filter length is [filtlen] raised to at least
    0.1 (and written back to [licvals]); [dx] and [dy] are [noisemag];
    [minv] and [maxv] are a tenth of the settings; [isteps] is [intsteps];
    the rectangle is the selection's and the effect size is the size of the
    effect image. *)
Theorem compute_image_parameters h fuel w gl id d bx by_ bw bh w' gl' :
  items w id = Some d ->
  drw_mask_intersect d = Some (bx, by_, bw, bh) ->
  compute_image h fuel w gl id = Some (w', gl') ->
  l gl' = Rmax (filtlen (licvals gl)) 0.1 /\
  licvals gl' = set_filtlen (licvals gl) (Rmax (filtlen (licvals gl)) 0.1) /\
  dx gl' = noisemag (licvals gl) /\ dy gl' = noisemag (licvals gl) /\
  minv gl' = lv_minv (licvals gl) / 10 /\ maxv gl' = lv_maxv (licvals gl) / 10 /\
  isteps gl' = intsteps (licvals gl) /\
  source_drw_has_alpha gl' = drw_has_alpha d /\
  (border_x gl', border_y gl', border_w gl', border_h gl') = (bx, by_, bw, bh) /\
  effect_width gl' = gimp_drawable_get_width (effect_image_of w gl) /\
  effect_height gl' = gimp_drawable_get_height (effect_image_of w gl).
Proof.
  intros Hd Hm Hrun.
  destruct (compute_image_globals h fuel w gl id d bx by_ bw bh w' gl' Hd Hm Hrun)
    as (E1 & E2 & E3 & E4 & E5 & E6 & E7 & E8 & E9 & E10 & E11 & _).
  repeat (split; [assumption |]). assumption.
Qed.

Lemma compute_image_parameters_witness :
  exists w' gl',
    compute_image Examples.null_host 1 Samples.studio_world
      (retrieve_data Samples.studio_world Examples.initial_globals) 1
    = Some (w', gl') /\
    l gl' = Rmax (filtlen Samples.stored_values) 0.1 /\
    isteps gl' = intsteps Samples.stored_values.
Proof.
  destruct studio_compute_image as (w' & gl' & Hrun).
  exists w', gl'. split; [exact Hrun |].
  destruct (compute_image_parameters Examples.null_host 1 Samples.studio_world
              (retrieve_data Samples.studio_world Examples.initial_globals)
              1 Examples.dot 0 0 1 1 w' gl') as (H1 & _ & _ & _ & _ & _ & H7 & _);
    try reflexivity; [exact Hrun |].
  split; [exact H1 | exact H7].
Defined.

(** Property X17.  What [compute_image] changes, on a drawable with a
    non-empty selection: only the filtered drawable among the items, which
    receives the computed buffer, equal to its shadow buffer outside
    [[0, border_w) x [0, border_h)]; the stored data are left alone, the
    displays are flushed once and the progress ends at 1. *)
Theorem compute_image_effects h fuel w gl id d bx by_ bw bh w' gl' :
  items w id = Some d ->
  drw_mask_intersect d = Some (bx, by_, bw, bh) ->
  compute_image h fuel w gl id = Some (w', gl') ->
  (forall id', id' <> id -> items w' id' = items w id') /\
  (exists dest,
     items w' id = Some (gimp_drawable_merge_shadow d dest) /\
     forall x y, ~ ((0 <= x < bw)%Z /\ (0 <= y < bh)%Z) ->
       dest x y = drw_shadow d x y) /\
  plugin_data w' = plugin_data w /\
  displays_flushed w' = S (displays_flushed w) /\
  (exists rest, progress w' = 1 :: rest).
Proof.
  intros Hd Hm Hrun.
  destruct (compute_image_globals h fuel w gl id d bx by_ bw bh w' gl' Hd Hm Hrun)
    as (_ & _ & _ & _ & _ & _ & _ & _ & Hb & _ & _ & sf & w1 & dest & Hc & ->).
  injection Hb as _ _ Hbw Hbh.
  pose proof (compute_lic_keeps_world _ _ _ _ _ _ _ _ _ Hc) as (Hi & Hp & Hf).
  pose proof (compute_lic_footprint _ _ _ _ _ _ _ _ _ Hc) as Hfoot.
  rewrite Hbw, Hbh in Hfoot.
  split; [| split; [| split; [| split]]].
  - intros id' Hne. cbn. rewrite Hi.
    destruct (Z.eqb_spec id' id); [contradiction | reflexivity].
  - exists dest. cbn. rewrite Z.eqb_refl. split; [reflexivity | exact Hfoot].
  - cbn. exact Hp.
  - cbn. now rewrite Hf.
  - unfold compute_lic in Hc.
    destruct (foldM _ _ _) as [[w2 d2] |] in Hc; [| discriminate].
    cbn [bind] in Hc. injection Hc as <- _. cbn. eauto.
Qed.

Lemma compute_image_effects_witness :
  exists w',
    items w' 1%Z <> None /\
    plugin_data w' = plugin_data Samples.studio_world /\
    displays_flushed w' = S (displays_flushed Samples.studio_world).
Proof.
  destruct studio_compute_image as (w' & gl' & Hrun).
  exists w'.
  destruct (compute_image_effects Examples.null_host 1 Samples.studio_world
              (retrieve_data Samples.studio_world Examples.initial_globals)
              1 Examples.dot 0 0 1 1 w' gl')
    as (_ & (d' & Hd' & _) & Hp & Hf & _); try reflexivity; [exact Hrun |].
  split; [rewrite Hd'; discriminate |]. split; [exact Hp | exact Hf].
Defined.

End ImageRun.

(** ** Registration; periods of the noise; stored values *)

Section RegistrationFacts.
Import String Registration.

(** Property X20.  [lic_create_procedure] makes a procedure for exactly the
    names [lic_query_procedures] lists; the procedure carries that name and
    accepts the image types [RGB*]. *)
Theorem procedures_queried_are_created name :
  In name lic_query_procedures <->
  exists p, lic_create_procedure name = Some p /\ proc_name p = name /\
            proc_image_types p = "RGB*"%string.
Proof.
  unfold lic_query_procedures, lic_create_procedure. split.
  - intros [<- | []]. rewrite String.eqb_refl. eexists. repeat split.
  - intros (p & Hp & _).
    destruct (String.eqb_spec name PLUG_IN_PROC) as [-> | _]; [| discriminate].
    now left.
Qed.

End RegistrationFacts.


Section PeriodicBoth.
Local Open Scope R_scope.

Lemma Int_part_shift_by gl x k :
  dx gl <> 0 ->
  Int_part ((x + IZR k * dx gl) / dx gl) = (Int_part (x / dx gl) + k)%Z.
Proof. intros Hdx. rewrite <- Int_part_plus_IZR. f_equal. field. exact Hdx. Qed.

Lemma Int_part_shift_by_y gl y k :
  dy gl <> 0 ->
  Int_part ((y + IZR k * dy gl) / dy gl) = (Int_part (y / dy gl) + k)%Z.
Proof. intros Hdy. rewrite <- Int_part_plus_IZR. f_equal. field. exact Hdy. Qed.

Lemma omega_value_shift_by gl u v i j a b :
  omega_value gl u v (i + a * numx) (j + b * numy) = omega_value gl u v i j.
Proof.
  unfold omega_value. rewrite !Z.mod_add by discriminate. reflexivity.
Qed.

Lemma noise_value_periodic_by gl x y a b :
  dx gl <> 0 -> dy gl <> 0 ->
  noise_value gl (x + IZR (a * numx) * dx gl) (y + IZR (b * numy) * dy gl)
  = noise_value gl x y.
Proof.
  intros Hdx Hdy. unfold noise_value.
  rewrite (Int_part_shift_by gl x _ Hdx), (Int_part_shift_by_y gl y _ Hdy).
  set (s := Int_part (x / dx gl)). set (t := Int_part (y / dy gl)). cbv zeta.
  replace (s + a * numx + 1)%Z with (s + 1 + a * numx)%Z by lia.
  replace (t + b * numy + 1)%Z with (t + 1 + b * numy)%Z by lia.
  assert (Ex : forall i, (x + IZR (a * numx) * dx gl - IZR (i + a * numx) * dx gl) / dx gl
                         = (x - IZR i * dx gl) / dx gl).
  { intros i. f_equal. rewrite plus_IZR. ring. }
  assert (Ey : forall j, (y + IZR (b * numy) * dy gl - IZR (j + b * numy) * dy gl) / dy gl
                         = (y - IZR j * dy gl) / dy gl).
  { intros j. f_equal. rewrite plus_IZR. ring. }
  rewrite !Ex, !Ey, !omega_value_shift_by. reflexivity.
Qed.

(** Property X6.  The noise repeats in both directions and over any whole
    number of periods, negative ones included: its value at
    [(x + a numx dx, y + b numy dy)] is its value at [(x, y)], and it is
    defined there, when the cell indices of both points are in range. *)
Theorem noise_is_doubly_periodic gl x y a b :
  dx gl <> 0 -> dy gl <> 0 ->
  cell_in_range (Int_part (x / dx gl)) ->
  cell_in_range (Int_part (y / dy gl)) ->
  cell_in_range (Int_part (x / dx gl) + a * numx) ->
  cell_in_range (Int_part (y / dy gl) + b * numy) ->
  noise gl (x + IZR (a * numx) * dx gl) (y + IZR (b * numy) * dy gl)
  = noise gl x y /\
  noise gl x y <> None.
Proof.
  intros Hdx Hdy Hs Ht Hs' Ht'.
  rewrite (noise_eq gl x y) by assumption.
  rewrite noise_eq
    by (rewrite ?(Int_part_shift_by gl x _ Hdx), ?(Int_part_shift_by_y gl y _ Hdy);
        assumption).
  rewrite noise_value_periodic_by by assumption. split; [reflexivity | discriminate].
Qed.

Lemma noise_is_doubly_periodic_witness :
  noise Examples.flat_globals
    (0 + IZR (2 * numx) * dx Examples.flat_globals)
    (0 + IZR (-3 * numy) * dy Examples.flat_globals)
  = noise Examples.flat_globals 0 0 /\
  noise Examples.flat_globals 0 0 <> None.
Proof.
  apply (noise_is_doubly_periodic Examples.flat_globals 0 0 2 (-3)).
  - simpl; lra.
  - simpl; lra.
  - rewrite Int_part_0_div. apply cell_in_range_0.
  - rewrite Int_part_0_div. apply cell_in_range_0.
  - rewrite Int_part_0_div. unfold cell_in_range, numx, Gint.INT_MIN, Gint.INT_MAX; lia.
  - rewrite Int_part_0_div. unfold cell_in_range, numy, Gint.INT_MIN, Gint.INT_MAX; lia.
Defined.

End PeriodicBoth.

Section FieldAndDriver.
Local Open Scope R_scope.

(** Property X14.  The bytes [rgb_to_hsl] returns.  The map has
    [width * height] entries, the size of the effect image; the pixel (x, y)
    of the [border_w] x [border_h] rectangle goes to entry
    [y * border_w + x], with the draw of that index added; the entries from
    [border_h * border_w] on keep what the allocation contained.  When the
    rectangle has more pixels than the map has entries, a store falls outside
    the map. *)
Theorem rgb_to_hsl_layout h gl d channel :
  let L := Z.to_nat (Gint.mul (drw_width d) (drw_height d)) in
  let nw := Z.to_nat (border_w gl) in
  let nh := Z.to_nat (border_h gl) in
  ((nh * nw <= L)%nat ->
   exists m,
     rgb_to_hsl h gl (Some d) channel = Some m /\ length m = L /\
     (forall x y, (x < nw)%nat -> (y < nh)%nat ->
        nth_error m (y * nw + x)
        = Some (scalar_value h channel
                  (drw_buffer d (Z.of_nat x) (Z.of_nat y)) (y * nw + x))) /\
     (forall k, (nh * nw <= k < L)%nat ->
        nth_error m k = Some (g_new_contents h k))) /\
  ((L < nh * nw)%nat -> rgb_to_hsl h gl (Some d) channel = None).
Proof. apply rgb_to_hsl_fill. Qed.

Lemma rgb_to_hsl_layout_witness :
  exists m,
    rgb_to_hsl Examples.null_host Examples.flat_globals
      (Some (mkDrawable 3 2 true false None
               (fun _ _ => Examples.gray) (fun _ _ => Examples.gray)))
      LIC_HUE = Some m /\
    length m = 6%nat.
Proof.
  destruct (proj1 (rgb_to_hsl_layout Examples.null_host Examples.flat_globals
              (mkDrawable 3 2 true false None
                 (fun _ _ => Examples.gray) (fun _ _ => Examples.gray)) LIC_HUE))
    as (m & Hm & Hl & _).
  - cbn. lia.
  - exists m. split; [exact Hm | exact Hl].
Defined.

Lemma compute_lic_effects_witness :
  exists w' dest,
    compute_lic Examples.null_host Samples.image_dot_globals 1
      Samples.studio_world Examples.dot [7]%Z 1 = Some (w', dest) /\
    progress w'
    = 1 :: rev (map (fun y => IZR y / IZR (border_h Samples.image_dot_globals))
                  (for_lt (border_h Samples.image_dot_globals)))
        ++ progress Samples.studio_world.
Proof.
  eexists. eexists. split.
  - apply (dot_compute_lic Samples.image_dot_globals Examples.null_host 1
             Samples.studio_world Examples.dot 7 1); try reflexivity;
      try (simpl; lra); apply le_n.
  - eapply (compute_lic_effects Examples.null_host Samples.image_dot_globals 1
              Examples.dot [7]%Z 1).
    apply (dot_compute_lic Samples.image_dot_globals Examples.null_host 1
             Samples.studio_world Examples.dot 7 1); try reflexivity;
      try (simpl; lra); apply le_n.
Defined.



End FieldAndDriver.

(** ** The divisions of a whole run *)

Section RunDivisorFacts.
Local Open Scope R_scope.

Variable h : Host.

Lemma value_lifted {A : Type} (m : option A) :
  Divisors.value (RunDivisors.lift m) = m.
Proof. apply value_ret. Qed.

Lemma value_division {B : Type} a b (k : R -> option (Divisors.Logged B)) :
  Divisors.value (Divisors.seq_opt (Some (Divisors.div a b)) k)
  = Divisors.value (k (a / b)).
Proof. apply value_state. Qed.

Lemma logged_image_loop_unfold gl fuel buffer xx yy c s step u col1 col :
  RunDivisors.lic_image_loop h gl fuel buffer xx yy c s step u col1 col =
  if Rle_dec u (l gl) then
    match fuel with
    | O => None
    | S fuel' =>
        Divisors.seq_opt
          (RunDivisors.lift (getpixel gl h buffer (xx - u * c) (yy - u * s)))
          (fun col2 =>
        Divisors.seq_opt (Some (Divisors.filter gl u)) (fun fu =>
        if source_drw_has_alpha gl then
          RunDivisors.lic_image_loop h gl fuel' buffer xx yy c s step (u + step)
            (RGB.gimp_rgba_multiply col2 fu)
            (RGB.gimp_rgba_add col
               (RGB.gimp_rgba_multiply
                  (RGB.gimp_rgba_add col1 (RGB.gimp_rgba_multiply col2 fu))
                  (0.5 * step)))
        else
          RunDivisors.lic_image_loop h gl fuel' buffer xx yy c s step (u + step)
            (RGB.gimp_rgb_multiply col2 fu)
            (RGB.gimp_rgb_add col
               (RGB.gimp_rgb_multiply
                  (RGB.gimp_rgb_add col1 (RGB.gimp_rgb_multiply col2 fu))
                  (0.5 * step)))))
    end
  else Some (Divisors.ret col).
Proof. destruct fuel; reflexivity. Qed.

Lemma lic_image_loop_value gl fuel buffer xx yy c s step :
  forall u col1 col,
    Divisors.value
      (RunDivisors.lic_image_loop h gl fuel buffer xx yy c s step u col1 col)
    = lic_image_loop gl h fuel buffer xx yy c s step u col1 col.
Proof.
  induction fuel as [| fuel IH]; intros u col1 col;
    rewrite logged_image_loop_unfold, lic_image_loop_unfold;
    destruct (Rle_dec u (l gl)); try reflexivity.
  rewrite value_seq_opt, value_lifted.
  destruct (getpixel gl h buffer (xx - u * c) (yy - u * s)) as [col2 |];
    [| reflexivity].
  cbn [bind]. rewrite value_filter.
  destruct (source_drw_has_alpha gl); apply IH.
Qed.

Lemma lic_image_value gl fuel buffer x y vx vy :
  Divisors.value (RunDivisors.lic_image h gl fuel buffer x y vx vy)
  = lic_image gl h fuel buffer x y vx vy.
Proof.
  unfold RunDivisors.lic_image, lic_image.
  rewrite value_division, value_seq_opt, value_lifted.
  destruct (getpixel gl h buffer (IZR x + l gl * vx) (IZR y + l gl * vy))
    as [col1 |]; [| reflexivity].
  cbn [bind]. rewrite value_filter, value_seq_opt, lic_image_loop_value.
  destruct (lic_image_loop gl h fuel buffer _ _ _ _ _ _ _ _) as [col |];
    [| reflexivity].
  cbn [bind]. unfold Divisors.seq_opt, Divisors.div, Divisors.ret.
  reflexivity.
Qed.

Lemma flow_vector_value gl scalarfield rotate xcount ycount :
  Divisors.value (RunDivisors.flow_vector gl scalarfield rotate xcount ycount)
  = flow_vector gl scalarfield rotate xcount ycount.
Proof.
  unfold RunDivisors.flow_vector, flow_vector.
  rewrite value_seq_opt, value_lifted.
  destruct (gradx gl scalarfield xcount ycount) as [vx |]; [| reflexivity].
  cbn [bind]. rewrite value_seq_opt, value_lifted.
  destruct (grady gl scalarfield xcount ycount) as [vy |]; [| reflexivity].
  cbn [bind]. unfold Divisors.value. cbn [option_map].
  rewrite normalize_value. reflexivity.
Qed.

Lemma lic_pixel_value gl fuel src xcount ycount v :
  Divisors.value (RunDivisors.lic_pixel h gl fuel src xcount ycount v)
  = lic_pixel h gl fuel src xcount ycount v.
Proof.
  destruct v as [vx vy]. unfold RunDivisors.lic_pixel, lic_pixel.
  destruct (effect_convolve (licvals gl) =? 0)%Z; [| apply lic_image_value].
  rewrite value_seq_opt, lic_noise_value.
  destruct (lic_noise gl fuel xcount ycount vx vy) as [tmp |]; [| reflexivity].
  cbn [bind]. destruct (source_drw_has_alpha gl); reflexivity.
Qed.

Lemma compute_lic_value gl fuel w drawable scalarfield rotate :
  Divisors.value
    (RunDivisors.compute_lic h gl fuel w drawable scalarfield rotate)
  = compute_lic h gl fuel w drawable scalarfield rotate.
Proof.
  unfold RunDivisors.compute_lic, compute_lic.
  rewrite value_seq_opt.
  match goal with
  | |- (a <- Divisors.value (foldM ?bL ?xs ?s0) ;; _) = (st <- foldM ?b ?xs ?s ;; _) =>
      rewrite (value_foldM bL b xs)
  end.
  - cbn [fst Divisors.ret].
    destruct (foldM _ (for_lt (border_h gl)) (w, drw_shadow drawable))
      as [[w1 dest] |]; reflexivity.
  - intros st ycount. rewrite value_state.
    destruct (fst st) as [w0 dest0].
    rewrite value_seq_opt.
    match goal with
    | |- (a <- Divisors.value (foldM ?bL ?xs ?s0) ;; _) = (st <- foldM ?b ?xs ?s ;; _) =>
        rewrite (value_foldM bL b xs)
    end.
    + cbn [fst Divisors.ret].
      destruct (foldM _ (for_lt (border_w gl)) dest0) as [dest1 |];
        reflexivity.
    + intros st' xcount. rewrite value_state, value_seq_opt, flow_vector_value.
      destruct (flow_vector gl scalarfield rotate xcount ycount) as [v |];
        [| reflexivity].
      cbn [bind]. rewrite value_seq_opt, lic_pixel_value.
      destruct (lic_pixel h gl fuel (drw_buffer drawable) xcount ycount v);
        reflexivity.
Qed.

Lemma compute_image_value fuel w gl id :
  Divisors.value (RunDivisors.compute_image h fuel w gl id)
  = compute_image h fuel w gl id.
Proof.
  unfold RunDivisors.compute_image, compute_image.
  rewrite value_seq_opt, value_lifted.
  destruct (items w id) as [drawable |]; [| reflexivity].
  cbn [bind].
  destruct (drw_mask_intersect drawable) as [[[[bx by_] bw] bh] |];
    [| reflexivity].
  rewrite !value_division, value_seq_opt, value_lifted.
  match goal with
  | |- (a <- ?m ;; _) = (b <- ?m ;; _) => destruct m as [scalarfield |]
  end; [| reflexivity].
  cbn [bind]. rewrite value_seq_opt, compute_lic_value.
  match goal with
  | |- (a <- ?m ;; _) = (b <- ?m ;; _) => destruct m as [[w1 dest] |]
  end; reflexivity.
Qed.

(** *** Every divisor is at least 1e-6 in magnitude *)

Local Abbreviation safe := RunDivisors.safe.

Lemma safe_ge d : 0.000001 <= d -> safe d.
Proof. intros H. unfold RunDivisors.safe. rewrite Rabs_pos_eq; lra. Qed.

Lemma logs_lifted {A : Type} (P : R -> Prop) (m : option A) :
  Divisors.logs P (RunDivisors.lift m).
Proof. apply logs_ret. Qed.

Lemma logs_division {B : Type} (P : R -> Prop) a b
    (k : R -> option (Divisors.Logged B)) :
  P b -> Divisors.logs P (k (a / b)) ->
  Divisors.logs P (Divisors.seq_opt (Some (Divisors.div a b)) k).
Proof.
  intros Hb Hk. unfold Divisors.seq_opt, Divisors.div.
  destruct (k (a / b)) as [[v log] |]; simpl in *; [| exact I].
  apply Forall_cons; assumption.
Qed.

Section Pixel.

Variable gl : Globals.
Hypothesis Pl : safe (l gl).
Hypothesis Pisteps : safe (isteps gl).
Hypothesis Pnoise :
  effect_convolve (licvals gl) = 0%Z ->
  safe (dx gl) /\ safe (dy gl) /\ safe (maxv gl - minv gl).

Lemma lic_image_loop_logs fuel buffer xx yy c s step :
  forall u col1 col,
    Divisors.logs safe
      (RunDivisors.lic_image_loop h gl fuel buffer xx yy c s step u col1 col).
Proof.
  induction fuel as [| fuel IH]; intros u col1 col;
    rewrite logged_image_loop_unfold;
    destruct (Rle_dec u (l gl)); try exact I; try apply logs_some_ret.
  apply logs_seq_opt; [apply logs_lifted | intros col2].
  apply logs_seq_opt; [now apply filter_logs | intros fu].
  destruct (source_drw_has_alpha gl); apply IH.
Qed.

Lemma lic_image_logs fuel buffer x y vx vy :
  Divisors.logs safe (RunDivisors.lic_image h gl fuel buffer x y vx vy).
Proof.
  unfold RunDivisors.lic_image.
  apply logs_seq_opt; [now apply logs_div | intros step].
  apply logs_seq_opt; [apply logs_lifted | intros col1].
  apply logs_seq_opt; [now apply filter_logs | intros fl].
  apply logs_seq_opt; [apply lic_image_loop_logs | intros col].
  apply logs_seq_opt; [now apply logs_div | intros q].
  apply logs_some_ret.
Qed.

Lemma flow_vector_logs scalarfield rotate xcount ycount :
  Divisors.logs safe
    (RunDivisors.flow_vector gl scalarfield rotate xcount ycount).
Proof.
  unfold RunDivisors.flow_vector.
  apply logs_seq_opt; [apply logs_lifted | intros vx].
  apply logs_seq_opt; [apply logs_lifted | intros vy].
  apply logs_state. eapply Forall_impl; [| apply normalize_log].
  intros d Hd. now apply safe_ge.
Qed.

Lemma lic_pixel_logs fuel src xcount ycount v :
  Divisors.logs safe (RunDivisors.lic_pixel h gl fuel src xcount ycount v).
Proof.
  destruct v as [vx vy]. unfold RunDivisors.lic_pixel.
  destruct (Z.eqb_spec (effect_convolve (licvals gl)) 0) as [E | _];
    [| apply lic_image_logs].
  destruct (Pnoise E) as (Pdx & Pdy & Prange).
  apply logs_seq_opt.
  - apply lic_noise_logs; try assumption. apply safe_ge. lra.
  - intros tmp. destruct (source_drw_has_alpha gl); apply logs_some_ret.
Qed.

Lemma compute_lic_logs fuel w drawable scalarfield rotate :
  Divisors.logs safe
    (RunDivisors.compute_lic h gl fuel w drawable scalarfield rotate).
Proof.
  unfold RunDivisors.compute_lic.
  apply logs_seq_opt;
    [| intros [w1 dest]; apply logs_some_ret].
  destruct (Z_lt_le_dec 0 (border_h gl)) as [Hpos | Hneg].
  2: { assert (E : for_lt (border_h gl) = []).
       { unfold for_lt. replace (Z.to_nat (border_h gl)) with 0%nat by lia.
         reflexivity. }
       rewrite E. apply logs_some_ret. }
  assert (Ph : safe (IZR (border_h gl))).
  { apply safe_ge. assert (H1 : (1 <= border_h gl)%Z) by lia.
    apply IZR_le in H1. lra. }
  apply logs_foldM; [| apply Forall_nil].
  intros st ycount Hst.
  apply logs_seq_opt; [now apply logs_state | intros [w0 dest0]].
  apply logs_seq_opt.
  - apply logs_foldM; [| apply Forall_nil].
    intros st' xcount Hst'.
    apply logs_seq_opt; [now apply logs_state | intros dest1].
    apply logs_seq_opt; [apply flow_vector_logs | intros v].
    apply logs_seq_opt; [apply lic_pixel_logs | intros color].
    apply logs_some_ret.
  - intros dest1.
    apply logs_seq_opt; [now apply logs_div | intros fraction].
    apply logs_some_ret.
Qed.

End Pixel.

Lemma compute_image_logs fuel w gl id :
  safe (intsteps (licvals gl)) ->
  (effect_convolve (licvals gl) = 0%Z ->
   safe (noisemag (licvals gl)) /\
   safe (lv_maxv (licvals gl) / 10 - lv_minv (licvals gl) / 10)) ->
  Divisors.logs safe (RunDivisors.compute_image h fuel w gl id).
Proof.
  intros Hsteps Hnoise. unfold RunDivisors.compute_image.
  apply logs_seq_opt; [apply logs_lifted | intros drawable].
  destruct (drw_mask_intersect drawable) as [[[[bx by_] bw] bh] |];
    [| apply logs_some_ret].
  set (gl1 := set_border gl bx by_ bw bh).
  set (gl2 := if (effect_convolve (licvals gl1) =? 0)%Z
              then set_G gl1 (generatevectors gl1 h) else gl1).
  set (gl3 := if Rlt_dec (filtlen (licvals gl2)) 0.1
              then set_licvals gl2 (set_filtlen (licvals gl2) 0.1) else gl2).
  assert (A2 : licvals gl2 = licvals gl).
  { unfold gl2, gl1. destruct (effect_convolve _ =? 0)%Z; reflexivity. }
  assert (A3 : noisemag (licvals gl3) = noisemag (licvals gl) /\
               intsteps (licvals gl3) = intsteps (licvals gl) /\
               lv_minv (licvals gl3) = lv_minv (licvals gl) /\
               lv_maxv (licvals gl3) = lv_maxv (licvals gl) /\
               effect_convolve (licvals gl3) = effect_convolve (licvals gl) /\
               0.1 <= filtlen (licvals gl3)).
  { clearbody gl2. unfold gl3.
    destruct (Rlt_dec (filtlen (licvals gl2)) 0.1) as [Hlt | Hge].
    - cbn. rewrite A2. repeat split; lra.
    - rewrite A2 in *. repeat split; lra. }
  destruct A3 as (Bn & Bs & Bmin & Bmax & Bc & Bl). clearbody gl3.
  assert (P10 : safe 10) by (apply safe_ge; lra).
  apply logs_division; [exact P10 |].
  apply logs_division; [exact P10 |].
  apply logs_seq_opt; [apply logs_lifted | intros scalarfield].
  apply logs_seq_opt; [| intros [w1 dest]; apply logs_some_ret].
  apply compute_lic_logs; cbn.
  - apply safe_ge. lra.
  - now rewrite Bs.
  - rewrite Bc, Bn, Bmin, Bmax. intros E. destruct (Hnoise E) as [Hn Hr].
    repeat split; assumption.
Qed.

End RunDivisorFacts.

(** ** Guarded and unguarded divisions *)

Section GuardedDivisions.
Local Open Scope R_scope.

Lemma dot_pixel_noise gl h fuel buffer :
  0 < l gl -> 0 < isteps gl -> (trapezoids gl <= fuel)%nat ->
  effect_convolve (licvals gl) = 0%Z ->
  exists color, lic_pixel h gl fuel buffer 0 0 (0, 0) = Some color.
Proof.
  intros Hl Hs Hfuel Hc. unfold lic_pixel. rewrite Hc. cbn [Z.eqb].
  destruct (lic_noise_at_rest gl 0 0 (cell_origin _) (cell_origin _) fuel
              Hl Hs Hfuel) as [r Hr].
  rewrite Hr. cbn [bind]. destruct (source_drw_has_alpha gl); eauto.
Qed.

Lemma dot_compute_lic_noise gl h fuel w drawable v rotate :
  0 < l gl -> 0 < isteps gl -> (trapezoids gl <= fuel)%nat ->
  border_w gl = 1%Z -> border_h gl = 1%Z ->
  effect_width gl = 1%Z -> effect_height gl = 1%Z ->
  effect_convolve (licvals gl) = 0%Z ->
  exists w1 dest, compute_lic h gl fuel w drawable [v] rotate = Some (w1, dest).
Proof.
  intros Hl Hs Hfuel Hbw Hbh Hw Hh Hc. unfold compute_lic.
  rewrite Hbw, Hbh. unfold for_lt. change (Z.to_nat 1) with 1%nat.
  cbn [seq map Z.of_nat foldM bind].
  rewrite (dot_flow gl v rotate Hw Hh). cbn [bind].
  destruct (dot_pixel_noise gl h fuel (drw_buffer drawable) Hl Hs Hfuel Hc)
    as [color Hcolor].
  rewrite Hcolor. cbn [bind]. eauto.
Qed.

(** A run over a single selected pixel in noise mode, with one integration
    step and a 1 x 1 effect image, completes. *)
Lemma noise_compute_image :
  exists w' gl',
    compute_image Examples.null_host 1 noise_world
      (retrieve_data noise_world Examples.initial_globals) 1
    = Some (w', gl').
Proof.
  set (h := Examples.null_host).
  set (gl := retrieve_data noise_world Examples.initial_globals).
  unfold compute_image.
  change (items noise_world 1) with (Some Examples.dot).
  cbn [bind Examples.dot drw_mask_intersect drw_has_alpha].
  set (gl1 := set_border gl 0 0 1 1).
  change ((effect_convolve (licvals gl1) =? 0)%Z) with true. cbv iota.
  set (gl2 := set_G gl1 (generatevectors gl1 h)).
  destruct (Rlt_dec (filtlen (licvals gl2)) 0.1) as [Hlt | _];
    [cbn in Hlt; lra |].
  set (gl4 := set_parameters gl2 _ _ _ _ _ _).
  set (gl5 := set_source_drw_has_alpha gl4 _).
  change (effect_image_of noise_world gl5) with (Some Examples.dot).
  cbn [gimp_drawable_get_width gimp_drawable_get_height Examples.dot
       drw_width drw_height].
  set (gl6 := set_effect_size gl5 1 1).
  change (effect_channel (licvals gl6)) with 2%Z. cbn [Z.eqb Pos.eqb].
  destruct (rgb_to_hsl_fill h Examples.dot LIC_BRIGHTNESS gl6) as [Hfill _].
  destruct Hfill as (m & Hm1 & Hlen & _).
  { cbn. lia. }
  cbn in Hlen. destruct m as [| v [| ? ?]]; try discriminate.
  change (mkDrawable 1 1 true false (Some (0, 0, 1, 1)%Z)
            (fun _ _ => Examples.gray) (fun _ _ => Examples.gray))
    with Examples.dot.
  rewrite Hm1. cbn [bind].
  destruct (dot_compute_lic_noise gl6 h 1 noise_world Examples.dot v
              (effect_operator (licvals gl6))) as (w1 & dest & Hlic);
    try reflexivity; try (cbn; lra).
  { rewrite trapezoids_unit by reflexivity. apply le_n. }
  change (mkDrawable 1 1 true false (Some (0, 0, 1, 1)%Z)
            (fun _ _ => Examples.gray) (fun _ _ => Examples.gray))
    with Examples.dot in *.
  rewrite Hlic. cbn [bind]. eauto.
Qed.

(** Claim C4, as the code has it.  The only threshold check against 1e-6 is
    the one on the length of the flow vector, which is divided by its length
    only when the length is at least 1e-6.  No other divisor is checked.  In
    every run of [compute_image] that returns, in either convolution mode,
    the divisors are 10, [border_h], the length of the flow vector, the
    filter length [l], which [compute_image] raises to 0.1, [isteps] and, in
    noise mode only, [dx], [dy], [maxv - minv] and 2: none has a magnitude
    below 1e-6 provided the integration steps and, in noise mode, the noise
    magnitude and a tenth of the difference of the maximum and minimum
    settings have magnitude at least 1e-6.  The instrumented run returns
    what [compute_image] returns; [lic_run] divides nowhere itself. *)
Theorem divisions_are_guarded h fuel w gl id res log :
  0.000001 <= Rabs (intsteps (licvals gl)) ->
  (effect_convolve (licvals gl) = 0%Z ->
   0.000001 <= Rabs (noisemag (licvals gl)) /\
   0.000001 <= Rabs (lv_maxv (licvals gl) / 10 - lv_minv (licvals gl) / 10)) ->
  RunDivisors.compute_image h fuel w gl id = Some (res, log) ->
  compute_image h fuel w gl id = Some res /\
  Forall (fun d => 0.000001 <= Rabs d) log /\
  (forall v, Forall (fun d => 0.000001 <= d) (snd (Divisors.normalize v))).
Proof.
  intros Hsteps Hnoise Hrun. split; [| split].
  - rewrite <- compute_image_value, Hrun. reflexivity.
  - pose proof (compute_image_logs h fuel w gl id Hsteps Hnoise) as HL.
    rewrite Hrun in HL. exact HL.
  - intros v. apply normalize_log.
Qed.

Lemma divisions_are_guarded_witness :
  (exists res log,
     RunDivisors.compute_image Examples.null_host 1 Samples.studio_world
       (retrieve_data Samples.studio_world Examples.initial_globals) 1
     = Some (res, log) /\
     Forall (fun d => 0.000001 <= Rabs d) log) /\
  (exists res log,
     RunDivisors.compute_image Examples.null_host 1 noise_world
       (retrieve_data noise_world Examples.initial_globals) 1
     = Some (res, log) /\
     Forall (fun d => 0.000001 <= Rabs d) log).
Proof.
  split.
  - destruct studio_compute_image as (w' & gl' & Hrun).
    rewrite <- compute_image_value in Hrun.
    destruct (RunDivisors.compute_image Examples.null_host 1
                Samples.studio_world
                (retrieve_data Samples.studio_world Examples.initial_globals) 1)
      as [[res log] |] eqn:E; [| discriminate].
    exists res, log. split; [reflexivity |].
    apply (divisions_are_guarded Examples.null_host 1 Samples.studio_world
             (retrieve_data Samples.studio_world Examples.initial_globals) 1
             res log).
    + cbn. rewrite Rabs_pos_eq; lra.
    + cbn. discriminate.
    + exact E.
  - destruct noise_compute_image as (w' & gl' & Hrun).
    rewrite <- compute_image_value in Hrun.
    destruct (RunDivisors.compute_image Examples.null_host 1 noise_world
                (retrieve_data noise_world Examples.initial_globals) 1)
      as [[res log] |] eqn:E; [| discriminate].
    exists res, log. split; [reflexivity |].
    apply (divisions_are_guarded Examples.null_host 1 noise_world
             (retrieve_data noise_world Examples.initial_globals) 1
             res log).
    + cbn. rewrite Rabs_pos_eq; lra.
    + intros _. cbn. split; rewrite Rabs_pos_eq; lra.
    + exact E.
Defined.

End GuardedDivisions.

(** ** The result of [lic_noise] *)

Section NoiseResult.
Local Open Scope R_scope.






End NoiseResult.

Section OnBinary64.
Import Floats.


(** At the default settings [l = 5] and [isteps = 25] the loop of
    [lic_noise] makes 24 turns on binary64, where [u] is rounded at every
    addition, and 25 in exact arithmetic. *)
Lemma default_turns_on_binary64 :
  option_map (@length float)
    (Binary64.for_u Binary64.default_globals 25
       (- Binary64.l Binary64.default_globals
        + 2 * Binary64.l Binary64.default_globals
          / Binary64.isteps Binary64.default_globals)%float
       (2 * Binary64.l Binary64.default_globals
        / Binary64.isteps Binary64.default_globals)%float)
  = Some 24%nat /\
  trapezoids Examples.flat_globals = 25%nat.
Proof.
  split; [vm_compute; reflexivity |].
  unfold trapezoids. cbn [isteps Examples.flat_globals].
  rewrite Int_part_IZR. reflexivity.
Qed.

End OnBinary64.

(** ** The effect image of a run *)

Section EffectImage.
Local Open Scope R_scope.





End EffectImage.
